(** * Puzzle generator: geometry and compositing engine

    A shallow embedding of [generatePuzzles] from
    [src/react-app/components/PuzzleGenerator.tsx] and of the two path
    builders it defines, [drawAbstractPuzzlePiece] and
    [drawRealisticPuzzlePiece].

    Conventions.
    - JavaScript numbers that carry geometry are real numbers ([R]); loop
      counters, grid sizes and piece indices are [nat] or [Z].  The
      definitions outside [Binary64] compute in exact arithmetic and
      carry the statements that do not depend on round-off.  [Binary64]
      reads the sizes of the canvas and of the cells with every
      operation rounded to the nearest double and carries the statements
      that do.
    - [Math.random()] is an oracle: the n-th call of a run returns
      [omega n], a rational in [[0,1)].  Code that calls it lives in the
      monad [Rand], which threads the call counter.
    - A 2-D canvas is the log of the drawing commands it received.
    - A JavaScript [TypeError] (a property read on [undefined]) is [None]
      in the functions that index the pattern grid. *)

From Stdlib Require Import Reals Lra Lia ZArith QArith Qround String.
From Stdlib Require SpecFloat.
From stdpp Require Import base list gmap.

(** ** Numbers *)

Definition Math_floor (a : R) : Z := Int_part a.

(** [canvas.width = v]: the DOM keeps the dimension as an unsigned long,
    so a non-negative real is truncated to its integer part. *)
Definition canvasSize (v : R) : Z := Int_part v.

Definition Rgtb (a b : R) : bool := if Rlt_dec b a then true else false.
Definition Rltb (a b : R) : bool := if Rlt_dec a b then true else false.

(** ** The [Math.random] oracle *)

Definition Oracle : Type := nat -> Q.

Definition Rand (A : Type) : Type := Oracle -> nat -> A * nat.

Definition ret {A} (a : A) : Rand A := fun _ n => (a, n).

Definition bind {A B} (m : Rand A) (k : A -> Rand B) : Rand B :=
  fun omega n => let '(a, n') := m omega n in k a omega n'.

Notation "'let!' x ':=' m 'in' k" := (bind m (fun x => k))
  (at level 10, x name, m at level 100, k at level 200).

Definition Math_random : Rand Q := fun omega n => (omega n, S n).

(** [Math.random() > 0.5] *)
Definition coin : Rand bool :=
  let! r := Math_random in ret (negb (Qle_bool r (1 # 2))).

Fixpoint mapRand {A B} (f : A -> Rand B) (l : list A) : Rand (list B) :=
  match l with
  | [] => ret []
  | a :: l' => let! b := f a in let! bs := mapRand f l' in ret (b :: bs)
  end.

Definition in_unit (omega : Oracle) : Prop :=
  forall n, (0 <= omega n)%Q /\ (omega n < 1)%Q.

(** ** Edge flags and the pattern grid *)

Module Tabs.
Record t : Type := mk { top : bool; right : bool; bottom : bool; left : bool }.
End Tabs.

Abbreviation Grid := (list (list Tabs.t)).

Definition set_left (v : bool) (c : Tabs.t) : Tabs.t :=
  Tabs.mk (Tabs.top c) (Tabs.right c) (Tabs.bottom c) v.

Definition set_top (v : bool) (c : Tabs.t) : Tabs.t :=
  Tabs.mk v (Tabs.right c) (Tabs.bottom c) (Tabs.left c).

(** [piecePattern[row][col]] *)
Definition cell (g : Grid) (row col : nat) : option Tabs.t :=
  g !! row ≫= (.!! col).

(** [piecePattern[row][col].field = v]; throws when the cell is absent. *)
Definition write (f : Tabs.t -> Tabs.t) (row col : nat) (g : Grid) : option Grid :=
  match cell g row col with
  | Some _ => Some (alter (alter f col) row g)
  | None => None
  end.

(** The object literal of the initialisation loop: the four properties are
    evaluated in source order, and a boundary edge draws no coin. *)
Definition initCell (rows columns row col : nat) : Rand Tabs.t :=
  let! t := (if row =? 0 then ret false else coin)%nat in
  let! r := (if col =? columns - 1 then ret false else coin)%nat in
  let! b := (if row =? rows - 1 then ret false else coin)%nat in
  let! l := (if col =? 0 then ret false else coin)%nat in
  ret (Tabs.mk t r b l).

Definition initRow (rows columns row : nat) : Rand (list Tabs.t) :=
  mapRand (initCell rows columns row) (seq 0 columns).

Definition initPattern (rows columns : nat) : Rand Grid :=
  mapRand (initRow rows columns) (seq 0 rows).

Fixpoint foldM {A S} (f : A -> S -> option S) (l : list A) (s : S) : option S :=
  match l with
  | [] => Some s
  | a :: l' => f a s ≫= foldM f l'
  end.

(** Body of the consistency loop.  [piece] is a reference to the cell
    object, so [piece.bottom] is read from the grid as it stands after
    the first assignment. *)
Definition propagateCell (rows columns row col : nat) (g : Grid) : option Grid :=
  piece ← cell g row col;
  g1 ← (if (col <? columns - 1)%nat
        then write (set_left (negb (Tabs.right piece))) row (col + 1) g
        else Some g);
  piece' ← cell g1 row col;
  if (row <? rows - 1)%nat
  then write (set_top (negb (Tabs.bottom piece'))) (row + 1) col g1
  else Some g1.

Definition propagateRow (rows columns row : nat) (g : Grid) : option Grid :=
  foldM (propagateCell rows columns row) (seq 0 columns) g.

Definition ensureConsistency (rows columns : nat) (g : Grid) : option Grid :=
  foldM (propagateRow rows columns) (seq 0 rows) g.

(** [piecePattern] as the drawing code sees it. *)
Definition piecePattern (rows columns : nat) : Rand (option Grid) :=
  let! g := initPattern rows columns in ret (ensureConsistency rows columns g).

(** ** Paths and canvases *)

Record Point : Type := pt { px : R; py : R }.

Inductive PathCmd : Type :=
| MoveTo (p : Point)
| LineTo (p : Point)
| QuadraticCurveTo (cp p : Point)
| ClosePath.

(** A path is what the calls between [beginPath] and [stroke] or [fill]
    appended to it. *)
Abbreviation Path := (list PathCmd).

Record Image : Type := mkImage { img_width : R; img_height : R; img_src : string }.

Record StrokeStyle : Type :=
  mkStyle { strokeStyle : string; lineWidth : R; lineCap : string; lineJoin : string }.

Inductive CanvasOp : Type :=
| DrawImage (img : Image) (dx dy dw dh : R)
| Stroke (st : StrokeStyle) (p : Path)
| FillDestinationOut (p : Path).

Record Canvas : Type := mkCanvas { cv_width : Z; cv_height : Z; cv_ops : list CanvasOp }.

(** The points a path command puts on the path (control points excluded). *)
Definition cmd_points (c : PathCmd) : list Point :=
  match c with
  | MoveTo p | LineTo p => [p]
  | QuadraticCurveTo _ p => [p]
  | ClosePath => []
  end.

Definition is_curve (c : PathCmd) : bool :=
  match c with QuadraticCurveTo _ _ => true | _ => false end.

Section AbstractPiece.
Local Open Scope R_scope.

(** [random] of [drawAbstractPuzzlePiece]: a closure over [seed].  Read in
    exact arithmetic: the double that [Math.sin] returns is not modelled,
    and the statements below use of [random] only that its values are
    fractional parts. *)
Definition random (seed : R) (index : nat) : R :=
  let a := sin (seed * 9.898 + INR index * 78.233) * 43758.5453 in
  a - IZR (Math_floor a).

Variables (x y w h seed : R).

Definition segments : Z := (12 + Math_floor (random seed 0 * 8))%Z.

Definition padding : R := Rmin w h * 0.1.

(** Body of the point loop for one value of [i]. *)
Definition abstractPoint (i : nat) : Point :=
  let t := INR i / IZR segments in
  let p :=
    if Rltb t 0.25 then
      let localT := t * 4 in
      pt (x + padding + localT * (w - 2 * padding))
         (y + padding + (random seed (i * 2) - 0.5) * h * 0.3)
    else if Rltb t 0.5 then
      let localT := (t - 0.25) * 4 in
      pt (x + w - padding + (random seed (i * 2) - 0.5) * w * 0.3)
         (y + padding + localT * (h - 2 * padding))
    else if Rltb t 0.75 then
      let localT := (t - 0.5) * 4 in
      pt (x + w - padding - localT * (w - 2 * padding))
         (y + h - padding + (random seed (i * 2) - 0.5) * h * 0.3)
    else
      let localT := (t - 0.75) * 4 in
      pt (x + padding + (random seed (i * 2) - 0.5) * w * 0.3)
         (y + h - padding - localT * (h - 2 * padding)) in
  let px1 := px p + (random seed (i * 3 + 10) - 0.5) * Rmin w h * 0.15 in
  let py1 := py p + (random seed (i * 3 + 11) - 0.5) * Rmin w h * 0.15 in
  pt (Rmax (x - w * 0.1) (Rmin (x + w * 1.1) px1))
     (Rmax (y - h * 0.1) (Rmin (y + h * 1.1) py1)).

Definition abstractPoints : list Point :=
  map abstractPoint (seq 0 (Z.to_nat segments)).

(** The optional kink in front of [points[i]]. *)
Definition kink (i : nat) (prevPoint currentPoint : Point) : Path :=
  if Rgtb (random seed (i * 5 + 20)) 0.7 then
    [LineTo (pt ((px currentPoint + px prevPoint) / 2
                   + (random seed (i * 4 + 15) - 0.5) * Rmin w h * 0.1)
                ((py currentPoint + py prevPoint) / 2
                   + (random seed (i * 4 + 16) - 0.5) * Rmin w h * 0.1))]
  else [].

(** The drawing loop from index [i] on; [prevPoint] is [points[i - 1]]. *)
Fixpoint abstractSegments (i : nat) (prevPoint : Point) (rest : list Point) : Path :=
  match rest with
  | [] => []
  | currentPoint :: rest' =>
      kink i prevPoint currentPoint ++ LineTo currentPoint
        :: abstractSegments (S i) currentPoint rest'
  end.

Definition drawAbstractPuzzlePiece : Path :=
  match abstractPoints with
  | [] => []
  | p0 :: rest => MoveTo p0 :: abstractSegments 1 p0 rest ++ [ClosePath]
  end.

(** The halo of the cell rectangle. *)
Definition in_halo (p : Point) : Prop :=
  x - 0.1 * w <= px p <= x + 1.1 * w /\ y - 0.1 * h <= py p <= y + 1.1 * h.

(** The halo widened by the reach of a kink. *)
Definition in_kink_halo (p : Point) : Prop :=
  x - 0.1 * w - 0.05 * Rmin w h <= px p <= x + 1.1 * w + 0.05 * Rmin w h /\
  y - 0.1 * h - 0.05 * Rmin w h <= py p <= y + 1.1 * h + 0.05 * Rmin w h.

End AbstractPiece.

Section ClassicPiece.
Local Open Scope R_scope.

(** [width] and [height] are the variables of [generatePuzzles] that the
    closure [drawRealisticPuzzlePiece] captures. *)
Variables (width height : R).
Variables (x y w h : R) (tabs : Tabs.t).

Definition tabSize : R := Rmin w h * 0.2.
Definition tabRadius : R := tabSize * 0.8.

Definition topEdge : Path :=
  let midX := x + w / 2 in
  if Tabs.top tabs && Rgtb y 0 then
    [ LineTo (pt (midX - tabSize * 0.6) y);
      QuadraticCurveTo (pt (midX - tabSize * 0.4) (y - tabRadius * 0.3))
                       (pt (midX - tabSize * 0.3) (y - tabRadius));
      QuadraticCurveTo (pt midX (y - tabRadius * 1.2))
                       (pt (midX + tabSize * 0.3) (y - tabRadius));
      QuadraticCurveTo (pt (midX + tabSize * 0.4) (y - tabRadius * 0.3))
                       (pt (midX + tabSize * 0.6) y);
      LineTo (pt (x + w) y) ]
  else if negb (Tabs.top tabs) && Rgtb y 0 then
    [ LineTo (pt (midX - tabSize * 0.6) y);
      QuadraticCurveTo (pt (midX - tabSize * 0.4) (y + tabRadius * 0.3))
                       (pt (midX - tabSize * 0.3) (y + tabRadius));
      QuadraticCurveTo (pt midX (y + tabRadius * 1.2))
                       (pt (midX + tabSize * 0.3) (y + tabRadius));
      QuadraticCurveTo (pt (midX + tabSize * 0.4) (y + tabRadius * 0.3))
                       (pt (midX + tabSize * 0.6) y);
      LineTo (pt (x + w) y) ]
  else [ LineTo (pt (x + w) y) ].

Definition rightEdge : Path :=
  let midY := y + h / 2 in
  if Tabs.right tabs && Rltb (x + w) width then
    [ LineTo (pt (x + w) (midY - tabSize * 0.6));
      QuadraticCurveTo (pt (x + w + tabRadius * 0.3) (midY - tabSize * 0.4))
                       (pt (x + w + tabRadius) (midY - tabSize * 0.3));
      QuadraticCurveTo (pt (x + w + tabRadius * 1.2) midY)
                       (pt (x + w + tabRadius) (midY + tabSize * 0.3));
      QuadraticCurveTo (pt (x + w + tabRadius * 0.3) (midY + tabSize * 0.4))
                       (pt (x + w) (midY + tabSize * 0.6));
      LineTo (pt (x + w) (y + h)) ]
  else if negb (Tabs.right tabs) && Rltb (x + w) width then
    [ LineTo (pt (x + w) (midY - tabSize * 0.6));
      QuadraticCurveTo (pt (x + w - tabRadius * 0.3) (midY - tabSize * 0.4))
                       (pt (x + w - tabRadius) (midY - tabSize * 0.3));
      QuadraticCurveTo (pt (x + w - tabRadius * 1.2) midY)
                       (pt (x + w - tabRadius) (midY + tabSize * 0.3));
      QuadraticCurveTo (pt (x + w - tabRadius * 0.3) (midY + tabSize * 0.4))
                       (pt (x + w) (midY + tabSize * 0.6));
      LineTo (pt (x + w) (y + h)) ]
  else [ LineTo (pt (x + w) (y + h)) ].

Definition bottomEdge : Path :=
  let midX := x + w / 2 in
  if Tabs.bottom tabs && Rltb (y + h) height then
    [ LineTo (pt (midX + tabSize * 0.6) (y + h));
      QuadraticCurveTo (pt (midX + tabSize * 0.4) (y + h + tabRadius * 0.3))
                       (pt (midX + tabSize * 0.3) (y + h + tabRadius));
      QuadraticCurveTo (pt midX (y + h + tabRadius * 1.2))
                       (pt (midX - tabSize * 0.3) (y + h + tabRadius));
      QuadraticCurveTo (pt (midX - tabSize * 0.4) (y + h + tabRadius * 0.3))
                       (pt (midX - tabSize * 0.6) (y + h));
      LineTo (pt x (y + h)) ]
  else if negb (Tabs.bottom tabs) && Rltb (y + h) height then
    [ LineTo (pt (midX + tabSize * 0.6) (y + h));
      QuadraticCurveTo (pt (midX + tabSize * 0.4) (y + h - tabRadius * 0.3))
                       (pt (midX + tabSize * 0.3) (y + h - tabRadius));
      QuadraticCurveTo (pt midX (y + h - tabRadius * 1.2))
                       (pt (midX - tabSize * 0.3) (y + h - tabRadius));
      QuadraticCurveTo (pt (midX - tabSize * 0.4) (y + h - tabRadius * 0.3))
                       (pt (midX - tabSize * 0.6) (y + h));
      LineTo (pt x (y + h)) ]
  else [ LineTo (pt x (y + h)) ].

Definition leftEdge : Path :=
  let midY := y + h / 2 in
  if Tabs.left tabs && Rgtb x 0 then
    [ LineTo (pt x (midY + tabSize * 0.6));
      QuadraticCurveTo (pt (x - tabRadius * 0.3) (midY + tabSize * 0.4))
                       (pt (x - tabRadius) (midY + tabSize * 0.3));
      QuadraticCurveTo (pt (x - tabRadius * 1.2) midY)
                       (pt (x - tabRadius) (midY - tabSize * 0.3));
      QuadraticCurveTo (pt (x - tabRadius * 0.3) (midY - tabSize * 0.4))
                       (pt x (midY - tabSize * 0.6));
      LineTo (pt x y) ]
  else if negb (Tabs.left tabs) && Rgtb x 0 then
    [ LineTo (pt x (midY + tabSize * 0.6));
      QuadraticCurveTo (pt (x + tabRadius * 0.3) (midY + tabSize * 0.4))
                       (pt (x + tabRadius) (midY + tabSize * 0.3));
      QuadraticCurveTo (pt (x + tabRadius * 1.2) midY)
                       (pt (x + tabRadius) (midY - tabSize * 0.3));
      QuadraticCurveTo (pt (x + tabRadius * 0.3) (midY - tabSize * 0.4))
                       (pt x (midY - tabSize * 0.6));
      LineTo (pt x y) ]
  else [ LineTo (pt x y) ].

Definition drawRealisticPuzzlePiece : Path :=
  MoveTo (pt x y) :: topEdge ++ rightEdge ++ bottomEdge ++ leftEdge ++ [ClosePath].

End ClassicPiece.

(** ** Settings *)

Inductive PieceStyle : Type := Classic | Abstract.

Inductive OutputQuality : Type := Fast | Standard | High | Original.

(** The sliders deliver [columns], [rows] and [missingPercentage] as
    non-negative integers. *)
Record PuzzleSettings : Type := mkSettings {
  columns : nat;
  rows : nat;
  missingPercentage : nat;
  pieceStyle : PieceStyle;
  borderColor : string;
  outputQuality : OutputQuality
}.

(** [qualitySettings]; [None] stands for the pair of [Infinity] of
    ['original']. *)
Definition qualitySettings (q : OutputQuality) : option (R * R) :=
  match q with
  | Fast => Some (800, 600)
  | Standard => Some (1280, 720)
  | High => Some (1920, 1080)
  | Original => None
  end%R.

(** The values of [width] and [height] after the scaling step. *)
Definition scaledSize (q : OutputQuality) (width height : R) : R * R :=
  match qualitySettings q with
  | Some (maxWidth, maxHeight) =>
      if Rgtb width maxWidth || Rgtb height maxHeight then
        let scale := Rmin (maxWidth / width) (maxHeight / height) in
        (width * scale, height * scale)%R
      else (width, height)
  | None => (width, height)
  end.

(** [currentShapeSeed || shapeSeed]: an absent or zero argument falls back
    to the seed the component captured. *)
Definition usedShapeSeed (currentShapeSeed : option R) (shapeSeed : R) : R :=
  match currentShapeSeed with
  | Some s => if Req_dec_T s 0 then shapeSeed else s
  | None => shapeSeed
  end.

(** ** Missing-set selection *)

(** [missingIndices.add(i)] on a set kept in insertion order. *)
Definition set_add (i : nat) (s : list nat) : list nat :=
  if decide (i ∈ s) then s else s ++ [i].

(** [Math.floor(r * totalPieces)] for a draw [r]. *)
Definition drawIndex (totalPieces : nat) (r : Q) : nat :=
  Z.to_nat (Qfloor (r * inject_Z (Z.of_nat totalPieces))).

(** The [while] loop, with [fuel] bounding the number of draws; [None]
    when the bound is hit before the set is full. *)
Fixpoint missingLoop (fuel totalPieces missingCount : nat) (missingIndices : list nat)
  : Rand (option (list nat)) :=
  if (length missingIndices <? missingCount)%nat then
    match fuel with
    | O => ret None
    | S fuel' =>
        let! r := Math_random in
        missingLoop fuel' totalPieces missingCount
          (set_add (drawIndex totalPieces r) missingIndices)
    end
  else ret (Some missingIndices).

Definition missingCountOf (s : PuzzleSettings) : nat :=
  (rows s * columns s * missingPercentage s) / 100.

(** The indices the next [fuel] calls of [Math.random] select. *)
Definition draws (omega : Oracle) (n fuel totalPieces : nat) : list nat :=
  map (fun k => drawIndex totalPieces (omega (n + k)%nat)) (seq 0 fuel).

(** ** The generation call *)

Record Stats : Type := mkStats { total : nat; missing : nat }.

(** What one call hands to the component state, together with the local
    [missingIndices] the statements below speak about. *)
Record Generated : Type := mkGenerated {
  completeCanvas : Canvas;
  missingCanvas : Canvas;
  pieceStats : Stats;
  missingIndices : list nat
}.

Inductive Outcome : Type :=
| Produced (g : Generated)
| Threw                      (* a TypeError escaped *)
| Diverged.                  (* the selection loop used up its fuel *)

Section Generate.
Variables (shapeSeed : R) (img : Image) (settings : PuzzleSettings)
          (currentShapeSeed : option R).

Definition targetSize : R * R :=
  scaledSize (outputQuality settings) (img_width img) (img_height img).
Definition width : R := fst targetSize.
Definition height : R := snd targetSize.
Definition pieceWidth : R := (width / INR (columns settings))%R.
Definition pieceHeight : R := (height / INR (rows settings))%R.

Definition borderStyle : StrokeStyle :=
  mkStyle (borderColor settings) 2 "round" "round".

(** The path of the piece at [(row, col)], as each of the three loops
    builds it. *)
Definition piecePath (grid : Grid) (row col : nat) : option Path :=
  let x := (INR col * pieceWidth)%R in
  let y := (INR row * pieceHeight)%R in
  match pieceStyle settings with
  | Abstract =>
      let seed := (usedShapeSeed currentShapeSeed shapeSeed
                   + INR row * INR (columns settings) + INR col + 1)%R in
      Some (drawAbstractPuzzlePiece x y pieceWidth pieceHeight seed)
  | Classic =>
      tabs ← cell grid row col;
      Some (drawRealisticPuzzlePiece width height x y pieceWidth pieceHeight tabs)
  end.

(** The two nested loops that stroke every piece on a context. *)
Definition strokeBorders (grid : Grid) (ctx : list CanvasOp) : option (list CanvasOp) :=
  strokes ← mapM (fun row =>
               mapM (fun col => Stroke borderStyle <$> piecePath grid row col)
                    (seq 0 (columns settings)))
             (seq 0 (rows settings));
  Some (ctx ++ concat strokes).

(** [missingIndices.forEach]: one destination-out fill per index. *)
Definition cutHoles (grid : Grid) (indices : list nat) (ctx : list CanvasOp)
  : option (list CanvasOp) :=
  holes ← mapM (fun index =>
             let row := (index / columns settings)%nat in
             let col := (index mod columns settings)%nat in
             FillDestinationOut <$> piecePath grid row col) indices;
  Some (ctx ++ holes).

Definition generatePuzzles (fuel : nat) : Rand Outcome :=
  let blank := [DrawImage img 0 0 width height] in
  let! pattern := piecePattern (rows settings) (columns settings) in
  match pattern with
  | None => ret Threw
  | Some grid =>
      match strokeBorders grid blank with
      | None => ret Threw
      | Some completeCtx =>
          let totalPieces := (rows settings * columns settings)%nat in
          let missingCount := missingCountOf settings in
          let! chosen := missingLoop fuel totalPieces missingCount [] in
          match chosen with
          | None => ret Diverged
          | Some indices =>
              match cutHoles grid indices blank ≫= strokeBorders grid with
              | None => ret Threw
              | Some missingCtx =>
                  ret (Produced
                    (mkGenerated
                       (mkCanvas (canvasSize width) (canvasSize height) completeCtx)
                       (mkCanvas (canvasSize width) (canvasSize height) missingCtx)
                       (mkStats totalPieces missingCount)
                       indices))
              end
          end
      end
  end.

End Generate.

(** The draws a run of at most [fuel] selections gets from the oracle,
    once the grid has taken its coins, hit at least [missingCount]
    distinct indices. *)
Definition enoughDraws (s : PuzzleSettings) (fuel : nat) (omega : Oracle) (n : nat) : Prop :=
  (missingCountOf s <=
     size (list_to_set
             (draws omega (piecePattern (rows s) (columns s) omega n).2
                    fuel (rows s * columns s)) : gset nat))%nat.


(** ** Certified enclosures of [sin] and of [random]

    Fixed-point interval arithmetic on integers: the integer [v] stands
    for the real [v / SC].  An angle [N / 1000] is halved [k] times, the
    sine and cosine of the small angle are enclosed by their Taylor
    polynomials, and the enclosure is carried back by [k] angle
    doublings. *)

Definition SC : Z := 2 ^ 128.

Record Box : Type := mkBox { slo : Z; shi : Z; clo : Z; chi : Z }.

Definition cdiv (a b : Z) : Z := (- ((- a) / b))%Z.

Definition corner_min (ul uh vl vh : Z) : Z :=
  Z.min (Z.min (ul * vl) (ul * vh)) (Z.min (uh * vl) (uh * vh)).

Definition corner_max (ul uh vl vh : Z) : Z :=
  Z.max (Z.max (ul * vl) (ul * vh)) (Z.max (uh * vl) (uh * vh)).

Definition mul_lo (ul uh vl vh : Z) : Z := (corner_min ul uh vl vh / SC)%Z.
Definition mul_hi (ul uh vl vh : Z) : Z := cdiv (corner_max ul uh vl vh) SC.

(** [sin 2a = 2 sin a cos a] and [cos 2a = 1 - 2 sin² a]. *)
Definition double (b : Box) : Box :=
  mkBox (2 * mul_lo (slo b) (shi b) (clo b) (chi b))
        (2 * mul_hi (slo b) (shi b) (clo b) (chi b))
        (SC - 2 * mul_hi (slo b) (shi b) (slo b) (shi b))
        (SC - 2 * mul_lo (slo b) (shi b) (slo b) (shi b)).

Fixpoint doubles (k : nat) (b : Box) : Box :=
  match k with
  | O => b
  | S k' => doubles k' (double b)
  end.

(** Taylor enclosures at the angle [N / D], for [0 <= N <= D]. *)
Definition taylor (N D : Z) : Box :=
  mkBox (SC * (6 * N * (D * D) - N * N * N) / (6 * (D * D * D)))
        (cdiv (SC * (120 * N * (D * D * D * D) - 20 * (N * N * N) * (D * D)
                     + N * N * N * N * N))
              (120 * (D * D * D * D * D)))
        (SC * (2 * (D * D) - N * N) / (2 * (D * D)))
        (cdiv (SC * (24 * (D * D * D * D) - 12 * (N * N) * (D * D) + N * N * N * N))
              (24 * (D * D * D * D))).

(** Enclosure of [sin] and [cos] at the angle [N / 1000]. *)
Definition sinBox (N : Z) (k : nat) : Box :=
  doubles k (taylor N (1000 * 2 ^ Z.of_nat k)).

Definition encloses (b : Box) (a : R) : Prop :=
  (IZR (slo b) / IZR SC <= sin a <= IZR (shi b) / IZR SC /\
   IZR (clo b) / IZR SC <= cos a <= IZR (chi b) / IZR SC)%R.

(** [sin (N / 1000) * 43758.5453], scaled by [SC * 10000], lies between
    [fst] and [snd]. *)
Definition scaledBox (N : Z) (k : nat) : Z * Z :=
  let b := sinBox N k in ((slo b * 437585453)%Z, (shi b * 437585453)%Z).

Definition boxReady (N : Z) (k : nat) : bool :=
  let '(lo, hi) := scaledBox N k in
  let Q := (SC * 10000)%Z in
  (0 <=? N)%Z && (N <=? 1000 * 2 ^ Z.of_nat k)%Z && (hi <? (lo / Q + 1) * Q)%Z.

(** Checks [random <= num / den] at an angle [N / 1000]. *)
Definition random_upto (N : Z) (k : nat) (num den : Z) : bool :=
  let '(lo, hi) := scaledBox N k in
  let Q := (SC * 10000)%Z in
  boxReady N k && (0 <? den)%Z && ((hi - lo / Q * Q) * den <=? num * Q)%Z.

(** Checks [num / den <= random] at an angle [N / 1000]. *)
Definition random_from (N : Z) (k : nat) (num den : Z) : bool :=
  let '(lo, hi) := scaledBox N k in
  let Q := (SC * 10000)%Z in
  boxReady N k && (0 <? den)%Z && (num * Q <=? (lo - lo / Q * Q) * den)%Z.

(** ** Predicates on the pattern grid *)

(** The flags of the cell at [(r, c)] that face the rim are [false]. *)
Definition on_boundary_false (rows columns r c : nat) (t : Tabs.t) : Prop :=
  (r = 0%nat -> Tabs.top t = false) /\
  (c = (columns - 1)%nat -> Tabs.right t = false) /\
  (r = (rows - 1)%nat -> Tabs.bottom t = false) /\
  (c = 0%nat -> Tabs.left t = false).

(** The grid has a cell exactly at the positions of a [rows] by
    [columns] array. *)
Definition shaped (rows columns : nat) (g : Grid) : Prop :=
  forall r c, is_Some (cell g r c) <-> (r < rows /\ c < columns)%nat.

Definition bordered (rows columns : nat) (g : Grid) : Prop :=
  forall r c t, cell g r c = Some t -> on_boundary_false rows columns r c t.

(** Cells visited before [(r0, c0)] in row-major order. *)
Definition visited (r0 c0 r c : nat) : Prop :=
  (r < r0 \/ (r = r0 /\ c < c0))%nat.

(** Every visited cell agrees with its right and bottom neighbours. *)
Definition linked (r0 c0 : nat) (g : Grid) : Prop :=
  forall r c a, visited r0 c0 r c -> cell g r c = Some a ->
    (forall b, cell g r (c + 1) = Some b -> Tabs.left b = negb (Tabs.right a)) /\
    (forall b, cell g (r + 1) c = Some b -> Tabs.top b = negb (Tabs.bottom a)).

(** The grid the drawing code reads: every cell is there, flags on the
    rim are [false], and neighbours disagree on the edge they share. *)
Definition consistent (rows columns : nat) (g : Grid) : Prop :=
  shaped rows columns g /\ bordered rows columns g /\
  (forall r c a b, cell g r c = Some a -> cell g r (c + 1) = Some b ->
     Tabs.right a = negb (Tabs.left b) /\ Tabs.left b = negb (Tabs.right a)) /\
  (forall r c a b, cell g r c = Some a -> cell g (r + 1) c = Some b ->
     Tabs.bottom a = negb (Tabs.top b) /\ Tabs.top b = negb (Tabs.bottom a)).

(** ** Sample inputs *)

Definition sampleOracle : Oracle := fun n => (Z.of_nat ((n * 7) mod 10) # 10)%Q.
Definition otherOracle : Oracle := fun n => (Z.of_nat ((n * 3 + 1) mod 8) # 8)%Q.
Definition sampleImage : Image := mkImage 1600 1200 "photo.png".
Definition sampleSettings : PuzzleSettings := mkSettings 4 3 25 Classic "#000000" Fast.
Definition smallestSettings : PuzzleSettings := mkSettings 3 3 10 Classic "#000000" High.
Definition abstractSettings : PuzzleSettings := mkSettings 3 3 30 Abstract "#000000" Fast.
Definition squareImage : Image := mkImage 300 300 "square.png".
Definition abstractNine : PuzzleSettings := mkSettings 3 3 10 Abstract "#000000" High.

(** Decides [enoughDraws] on closed inputs. *)
Ltac enough_draws := unfold enoughDraws; apply Nat.leb_le; vm_compute; reflexivity.

Ltac goal_decide :=
  match goal with
  | |- context [decide ?P] => let Hd := fresh "Hd" in destruct (decide P) as [Hd|Hd]
  end.

(** ** What a pass over the grid keeps *)

(** One cell after a pass, against the same cell before it: [right] and
    [bottom] are untouched, and so are [top] in row 0 and [left] in column 0. *)
Definition keeps_cell (r c : nat) (before after : Tabs.t) : Prop :=
  Tabs.right after = Tabs.right before /\ Tabs.bottom after = Tabs.bottom before /\
  (r = 0%nat -> Tabs.top after = Tabs.top before) /\
  (c = 0%nat -> Tabs.left after = Tabs.left before).

Definition keeps (g g' : Grid) : Prop :=
  forall r c, option_Forall2 (keeps_cell r c) (cell g r c) (cell g' r c).

(** ** Reading a path *)

(** The pieces of curve a path draws, from the current point on. *)
Inductive Segment : Type :=
| Line (a b : Point)
| Curve (a cp b : Point).

Fixpoint pathSegments (current : Point) (p : Path) : list Segment :=
  match p with
  | [] => []
  | MoveTo q :: p' => pathSegments q p'
  | LineTo q :: p' => Line current q :: pathSegments q p'
  | QuadraticCurveTo cp q :: p' => Curve current cp q :: pathSegments q p'
  | ClosePath :: p' => pathSegments current p'
  end.

(** The same piece of curve, run through the other way. *)
Definition flip (s : Segment) : Segment :=
  match s with
  | Line a b => Line b a
  | Curve a cp b => Curve b cp a
  end.

Definition reversed (l : list Segment) : list Segment := map flip (rev l).

Definition curveCount (p : Path) : nat := length (List.filter is_curve p).


(** The point a run of path commands ends at. *)
Definition endPoint (p : Path) : option Point := last (flat_map cmd_points p).



(** The seed [generatePuzzles] hands to [drawAbstractPuzzlePiece] for the
    piece at [(row, col)]. *)
Definition pieceSeed (used : R) (columns row col : nat) : R :=
  (used + INR row * INR columns + INR col + 1)%R.

(** ** Layers of a canvas *)

Definition is_stroke_of (st : StrokeStyle) (op : CanvasOp) : Prop :=
  exists p, op = Stroke st p.

Definition is_hole (op : CanvasOp) : Prop := exists p, op = FillDestinationOut p.

(** ** An oracle that reaches every index *)

(** [Math.random] walking through the [totalPieces] indices in turn. *)
Definition cyclingOracle (totalPieces : nat) : Oracle :=
  fun n => (Z.of_nat (n mod totalPieces) # Pos.of_succ_nat (totalPieces - 1))%Q.

(** ** File intake *)

(** A [File] as the handlers read it: its name and its MIME type. *)
Record File : Type := mkFile { file_name : string; file_type : string }.

(** What a handler does, in order. *)
Inductive UiEffect : Type :=
| PreventDefault
| SetIsDragOver (b : bool)
| Alert (message : string)
| LoadImage (f : File).     (* [new Image()] with [src] the object URL of [f] *)

(** [file.type.startsWith('image/')] *)
Definition isImageFile (f : File) : bool := String.prefix "image/" (file_type f).

Definition processImageFile (f : File) : list UiEffect :=
  if negb (isImageFile f) then [Alert "Пожалуйста, выберите файл изображения"]
  else [LoadImage f].

(** [event.target.files?.[0]]; nothing happens without a first file. *)
Definition handleImageUpload (files : list File) : list UiEffect :=
  match files with
  | [] => []
  | file :: _ => processImageFile file
  end.

Definition handleDrop (files : list File) : list UiEffect :=
  [PreventDefault; SetIsDragOver false] ++
  match List.find isImageFile files with
  | Some imageFile => processImageFile imageFile
  | None => [Alert "Пожалуйста, перетащите файл изображения"]
  end.

Definition photo : File := mkFile "cat.png" "image/png".
Definition notes : File := mkFile "notes.txt" "text/plain".

(** ** Tactics for paths *)


(** ** Binary64 arithmetic

    The sizes of the canvas and of the cells are products, quotients and
    sums of doubles, and the guards of [drawRealisticPuzzlePiece] compare
    such sums with the canvas size.  Statements that depend on the
    round-off are made in this reading of the same lines: every operation
    is followed by [round64], rounding to the nearest number with 53
    significant bits, ties to even.  The exponent range is not modelled:
    the magnitudes met here (image sizes and their quotients) are far from
    overflow and underflow. *)

Module Binary64.

Definition pow2 (e : Z) : R := powerRZ 2 e.

(** The binade of a positive number: the [e] with [2^e <= x < 2^(e+1)]. *)
Definition exponent (x : R) : Z := Int_part (ln x / ln 2).

(** The nearest integer, ties to even. *)
Definition nearestEven (t : R) : Z :=
  let f := Int_part t in
  if Rlt_dec (t - IZR f) (1 / 2) then f
  else if Rlt_dec (1 / 2) (t - IZR f) then (f + 1)%Z
  else if Z.even f then f else (f + 1)%Z.

(** A positive number rounded to 53 significant bits. *)
Definition roundPositive (x : R) : R :=
  (IZR (nearestEven (x * pow2 (52 - exponent x))) * pow2 (exponent x - 52))%R.

Definition round64 (x : R) : R :=
  if Rlt_dec 0 x then roundPositive x
  else if Rlt_dec x 0 then (- roundPositive (- x))%R
  else 0%R.

(** [generatePuzzles], lines 104 to 112: [scale], [width *= scale] and
    [height *= scale]. *)
Definition scaledSize (q : OutputQuality) (width height : R) : R * R :=
  match qualitySettings q with
  | Some (maxWidth, maxHeight) =>
      if Rgtb width maxWidth || Rgtb height maxHeight then
        let scale := Rmin (round64 (maxWidth / width)) (round64 (maxHeight / height)) in
        (round64 (width * scale), round64 (height * scale))
      else (width, height)
  | None => (width, height)
  end.

Section Sizes.
Variables (img : Image) (settings : PuzzleSettings).

Definition targetSize : R * R :=
  scaledSize (outputQuality settings) (img_width img) (img_height img).
Definition width : R := fst targetSize.
Definition height : R := snd targetSize.

(** Lines 114 to 117: [completeCanvas.width = width] and the like. *)
Definition canvasWidth : Z := canvasSize width.
Definition canvasHeight : Z := canvasSize height.

(** Lines 127 and 128. *)
Definition pieceWidth : R := round64 (width / INR (columns settings)).
Definition pieceHeight : R := round64 (height / INR (rows settings)).

(** [const x = col * pieceWidth] and [const y = row * pieceHeight], in
    each of the three loops over the pieces. *)
Definition cellX (col : nat) : R := round64 (INR col * pieceWidth).
Definition cellY (row : nat) : R := round64 (INR row * pieceHeight).

End Sizes.

End Binary64.

(** The executable specification of binary64 arithmetic that comes with
    the Standard Library, to check [round64] on concrete inputs. *)
Module IEEE754.

Definition binary64 : Type := SpecFloat.spec_float.

Definition ofPositive (n : positive) : binary64 :=
  SpecFloat.binary_normalize 53 1024 (Z.pos n) 0 false.
Definition div : binary64 -> binary64 -> binary64 := SpecFloat.SFdiv 53 1024.
Definition mul : binary64 -> binary64 -> binary64 := SpecFloat.SFmul 53 1024.
Definition add : binary64 -> binary64 -> binary64 := SpecFloat.SFadd 53 1024.
Definition ltb : binary64 -> binary64 -> bool := SpecFloat.SFltb.

Definition toR (f : binary64) : R :=
  match f with
  | SpecFloat.S754_finite sign m e =>
      (IZR (if sign then Z.neg m else Z.pos m) * Binary64.pow2 e)%R
  | _ => 0%R
  end.

End IEEE754.

(** Inputs on which the round-off shows. *)
Definition landscapeImage : Image := mkImage 800 600 "landscape.png".
Definition sevenRows : PuzzleSettings := mkSettings 4 7 25 Classic "#000000" Fast.
Definition squarePhoto : Image := mkImage 1109 1109 "square.png".
Definition bannerImage : Image := mkImage 1060 100 "banner.png".
Definition narrowImage : Image := mkImage 600 450 "narrow.png".
Definition ninths : PuzzleSettings := mkSettings 9 3 25 Classic "#000000" Fast.

(** ** Tactics for binary64 values *)

(** Powers of two with a literal exponent, as numbers. *)
Ltac pow2_values :=
  unfold Binary64.pow2, powerRZ;
  repeat match goal with
         | |- context [Pos.to_nat ?p] =>
             let v := eval vm_compute in (Pos.to_nat p) in
             progress change (Pos.to_nat p) with v
         end.

(** [x] is less than half a unit in the last place away from [m * 2^e]. *)
Ltac close_enough :=
  match goal with
  | |- (Rabs _ < Binary64.pow2 (?e - 1))%R =>
      let e1 := eval vm_compute in (e - 1)%Z in
      change (e - 1)%Z with e1
  end;
  pow2_values; apply Rabs_def1; lra.

(** The value of a closed term of [IEEE754], as a real number. *)
Ltac ieee_value :=
  match goal with
  | |- IEEE754.toR ?f = _ =>
      let v := eval vm_compute in f in
      change f with v; unfold IEEE754.toR
  end.

(** * Properties *)

(** ** Numbers *)

Lemma Rgtb_true a b : (b < a)%R -> Rgtb a b = true.
Proof. intros H. unfold Rgtb. by destruct (Rlt_dec b a). Qed.

Lemma Rgtb_false a b : (a <= b)%R -> Rgtb a b = false.
Proof. intros H. unfold Rgtb. destruct (Rlt_dec b a); [lra|done]. Qed.

Lemma Rltb_true a b : (a < b)%R -> Rltb a b = true.
Proof. intros H. unfold Rltb. by destruct (Rlt_dec a b). Qed.

Lemma Rltb_false a b : (b <= a)%R -> Rltb a b = false.
Proof. intros H. unfold Rltb. destruct (Rlt_dec a b); [lra|done]. Qed.

Lemma canvasSize_le a : (IZR (canvasSize a) <= a)%R.
Proof. unfold canvasSize. apply base_Int_part. Qed.


(** ** Facts about the oracle monad *)

Lemma mapRand_length {A B} (f : A -> Rand B) (l : list A) omega n :
  length (mapRand f l omega n).1 = length l.
Proof.
  revert n. induction l as [|a l IH]; intros n; [done|].
  cbn. unfold bind. destruct (f a omega n) as [b n1].
  specialize (IH n1). destruct (mapRand f l omega n1) as [bs n2]. cbn in *. lia.
Qed.

Lemma mapRand_lookup {A B} (f : A -> Rand B) (l : list A) omega n i b :
  (mapRand f l omega n).1 !! i = Some b ->
  exists a m, l !! i = Some a /\ b = (f a omega m).1.
Proof.
  revert n i. induction l as [|a l IH]; intros n i; [done|].
  cbn. unfold bind. destruct (f a omega n) as [b0 n1] eqn:E.
  specialize (IH n1). destruct (mapRand f l omega n1) as [bs n2]. cbn in *.
  destruct i as [|i]; cbn.
  - intros [= <-]. exists a, n. by rewrite E.
  - apply IH.
Qed.

Lemma sampleOracle_in_unit : in_unit sampleOracle.
Proof.
  intros n. unfold sampleOracle, Qle, Qlt. cbn.
  pose proof (Nat.mod_upper_bound (n * 7) 10). lia.
Qed.

Lemma otherOracle_in_unit : in_unit otherOracle.
Proof.
  intros n. unfold otherOracle, Qle, Qlt. cbn.
  pose proof (Nat.mod_upper_bound (n * 3 + 1) 8). lia.
Qed.

(** ** The pattern grid *)

Lemma initCell_boundary rows columns r c omega n :
  on_boundary_false rows columns r c (initCell rows columns r c omega n).1.
Proof.
  unfold initCell, bind, on_boundary_false.
  destruct (Nat.eqb_spec r 0), (Nat.eqb_spec c (columns - 1)),
    (Nat.eqb_spec r (rows - 1)), (Nat.eqb_spec c 0);
    cbn; repeat split; intros; congruence.
Qed.

Lemma mapRand_lookup_Some {A B} (f : A -> Rand B) (l : list A) omega n i a :
  l !! i = Some a -> exists m, (mapRand f l omega n).1 !! i = Some (f a omega m).1.
Proof.
  revert n i. induction l as [|a0 l IH]; intros n i; [done|].
  cbn. unfold bind. destruct (f a0 omega n) as [b0 n1] eqn:E.
  specialize (IH n1). destruct (mapRand f l omega n1) as [bs n2]. cbn in *.
  destruct i as [|i]; cbn.
  - intros [= <-]. exists n. by rewrite E.
  - apply IH.
Qed.

Lemma initPattern_cell rows columns omega n r c :
  (r < rows)%nat -> (c < columns)%nat ->
  exists m, cell (initPattern rows columns omega n).1 r c
            = Some (initCell rows columns r c omega m).1.
Proof.
  intros Hr Hc. unfold cell, initPattern.
  destruct (mapRand_lookup_Some (initRow rows columns) (seq 0 rows) omega n r r)
    as [m Hm]; [by apply lookup_seq_lt|].
  rewrite Hm. cbn. unfold initRow.
  destruct (mapRand_lookup_Some (initCell rows columns r) (seq 0 columns) omega m c c)
    as [m' Hm']; [by apply lookup_seq_lt|].
  exists m'. exact Hm'.
Qed.

Lemma initPattern_shaped rows columns omega n :
  shaped rows columns (initPattern rows columns omega n).1.
Proof.
  intros r c. split.
  - intros [t Ht]. unfold cell, initPattern in Ht.
    destruct ((mapRand (initRow rows columns) (seq 0 rows) omega n).1 !! r) as [row|] eqn:E;
      [|done].
    cbn in Ht. pose proof (lookup_lt_Some _ _ _ E) as Hlt.
    rewrite mapRand_length, length_seq in Hlt.
    apply mapRand_lookup in E as (r' & m & Hr' & Hrow). subst row.
    apply lookup_lt_Some in Ht. unfold initRow in Ht.
    rewrite mapRand_length, length_seq in Ht. lia.
  - intros [Hr Hc]. destruct (initPattern_cell rows columns omega n r c Hr Hc) as [m ->]. done.
Qed.

Lemma initPattern_bordered rows columns omega n :
  bordered rows columns (initPattern rows columns omega n).1.
Proof.
  intros r c t Ht.
  assert (is_Some (cell (initPattern rows columns omega n).1 r c)) as Hs by (by rewrite Ht).
  apply initPattern_shaped in Hs as [Hr Hc].
  destruct (initPattern_cell rows columns omega n r c Hr Hc) as [m Hm].
  rewrite Hm in Ht. injection Ht as <-. apply initCell_boundary.
Qed.

(** Reading a cell after an assignment to a cell. *)
Lemma cell_write f r c g g' r' c' :
  write f r c g = Some g' ->
  cell g' r' c' = if decide (r = r' /\ c = c') then f <$> cell g r' c' else cell g r' c'.
Proof.
  unfold write. destruct (cell g r c) as [t|] eqn:E; [|done]. intros [= <-].
  unfold cell in *. destruct (decide (r = r')) as [->|Hr].
  - rewrite list_lookup_alter_eq. destruct (g !! r') as [row|]; [|by case_decide].
    cbn. destruct (decide (c = c')) as [->|Hc].
    + rewrite list_lookup_alter_eq. by rewrite decide_True.
    + rewrite list_lookup_alter_ne by done. rewrite decide_False; [done|tauto].
  - rewrite list_lookup_alter_ne by done. rewrite decide_False; [done|tauto].
Qed.

Lemma write_is_Some f r c g : is_Some (cell g r c) -> is_Some (write f r c g).
Proof. intros [t Ht]. unfold write. rewrite Ht. done. Qed.

Lemma write_shaped f r c g g' rows columns :
  write f r c g = Some g' -> shaped rows columns g -> shaped rows columns g'.
Proof.
  intros Hw Hs r' c'. rewrite (cell_write _ _ _ _ _ r' c' Hw), <- (Hs r' c').
  case_decide; [|done]. by rewrite fmap_is_Some.
Qed.

Lemma propagateCell_step rows columns r0 c0 g :
  (r0 < rows)%nat -> (c0 < columns)%nat ->
  shaped rows columns g -> bordered rows columns g -> linked r0 c0 g ->
  exists g', propagateCell rows columns r0 c0 g = Some g' /\
    shaped rows columns g' /\ bordered rows columns g' /\ linked r0 (c0 + 1) g'.
Proof.
  intros Hr0 Hc0 Hs Hb Hl. unfold propagateCell.
  destruct (proj2 (Hs r0 c0) (conj Hr0 Hc0)) as [piece Hp]. rewrite Hp. cbn [mbind option_bind].
  (* first assignment *)
  set (w1 := if (c0 <? columns - 1)%nat
             then write (set_left (negb (Tabs.right piece))) r0 (c0 + 1) g else Some g).
  assert (exists g1, w1 = Some g1) as [g1 Hg1].
  { subst w1. destruct (Nat.ltb_spec c0 (columns - 1)); [|by eauto].
    apply write_is_Some. apply (proj2 (Hs r0 (c0 + 1)%nat)). lia. }
  rewrite Hg1. cbn [mbind option_bind].
  assert (forall r c, cell g1 r c =
            if decide (c0 < columns - 1 /\ r0 = r /\ c0 + 1 = c)%nat
            then set_left (negb (Tabs.right piece)) <$> cell g r c else cell g r c) as Hc1.
  { intros r c. subst w1. destruct (Nat.ltb_spec c0 (columns - 1)).
    - rewrite (cell_write _ _ _ _ _ r c Hg1). repeat case_decide; try done; tauto.
    - injection Hg1 as <-. rewrite decide_False; [done|lia]. }
  assert (cell g1 r0 c0 = Some piece) as Hp1.
  { rewrite Hc1, decide_False; [done|lia]. }
  rewrite Hp1. cbn [mbind option_bind].
  set (w2 := if (r0 <? rows - 1)%nat
             then write (set_top (negb (Tabs.bottom piece))) (r0 + 1) c0 g1 else Some g1).
  assert (forall r c, is_Some (cell g1 r c) <-> is_Some (cell g r c)) as Hs1.
  { intros r c. rewrite Hc1. goal_decide; [|done]. by rewrite fmap_is_Some. }
  assert (exists g2, w2 = Some g2) as [g2 Hg2].
  { subst w2. destruct (Nat.ltb_spec r0 (rows - 1)); [|by eauto].
    apply write_is_Some. apply (proj2 (Hs1 _ _)). apply (proj2 (Hs (r0 + 1)%nat c0)). lia. }
  exists g2. split; [exact Hg2|].
  assert (forall r c, cell g2 r c =
            if decide (r0 < rows - 1 /\ r0 + 1 = r /\ c0 = c)%nat
            then set_top (negb (Tabs.bottom piece)) <$> cell g1 r c else cell g1 r c) as Hc2.
  { intros r c. subst w2. destruct (Nat.ltb_spec r0 (rows - 1)).
    - rewrite (cell_write _ _ _ _ _ r c Hg2). repeat case_decide; try done; tauto.
    - injection Hg2 as <-. rewrite decide_False; [done|lia]. }
  (* what a cell of the new grid looks like *)
  assert (forall r c t, cell g2 r c = Some t ->
            exists t0, cell g r c = Some t0 /\
              Tabs.right t = Tabs.right t0 /\ Tabs.bottom t = Tabs.bottom t0 /\
              Tabs.left t = (if decide (c0 < columns - 1 /\ r0 = r /\ c0 + 1 = c)%nat
                             then negb (Tabs.right piece) else Tabs.left t0) /\
              Tabs.top t = (if decide (r0 < rows - 1 /\ r0 + 1 = r /\ c0 = c)%nat
                            then negb (Tabs.bottom piece) else Tabs.top t0)) as Hcell.
  { intros r c t. rewrite Hc2, Hc1.
    destruct (decide (r0 < rows - 1 /\ r0 + 1 = r /\ c0 = c)%nat),
             (decide (c0 < columns - 1 /\ r0 = r /\ c0 + 1 = c)%nat);
      destruct (cell g r c) as [t0|]; cbn; try done; intros [= <-]; eauto 10. }
  assert (forall r c, is_Some (cell g2 r c) <-> is_Some (cell g r c)) as Hs2.
  { intros r c. rewrite Hc2, Hc1. repeat goal_decide; by rewrite ?fmap_is_Some. }
  split; [|split].
  - intros r c. by rewrite Hs2.
  - intros r c t Ht. destruct (Hcell r c t Ht) as (t0 & Ht0 & Hri & Hbo & Hle & Hto).
    destruct (Hb r c t0 Ht0) as (B1 & B2 & B3 & B4).
    unfold on_boundary_false. rewrite Hri, Hbo, Hle, Hto.
    repeat split; intros ->; repeat goal_decide; auto; lia.
  - intros r c a Hv Ha.
    destruct (Hcell r c a Ha) as (a0 & Ha0 & Hri & Hbo & _ & _).
    assert (r < rows /\ c < columns)%nat as [Hr Hc] by (apply (proj1 (Hs r c)); by rewrite Ha0).
    split; intros b Hbn; destruct (Hcell _ _ b Hbn) as (b0 & Hb0 & _ & _ & Hle & Hto).
    + rewrite Hle, Hri. goal_decide.
      * destruct Hd as (_ & -> & Hd). assert (c = c0) as -> by lia. congruence.
      * assert (c + 1 < columns)%nat by (apply (proj1 (Hs r (c + 1)%nat)); by rewrite Hb0).
        assert (visited r0 c0 r c) as Hv0.
        { unfold visited in *. destruct Hv as [?|[-> ?]]; [by left|].
          destruct (decide (c = c0)) as [->|]; [exfalso; apply Hd; lia|right; lia]. }
        by apply (Hl r c a0 Hv0 Ha0).
    + rewrite Hto, Hbo. goal_decide.
      * destruct Hd as (_ & Hd & ->). assert (r = r0) as -> by lia. congruence.
      * assert (r + 1 < rows)%nat by (apply (proj1 (Hs (r + 1)%nat c)); by rewrite Hb0).
        assert (visited r0 c0 r c) as Hv0.
        { unfold visited in *. destruct Hv as [?|[-> ?]]; [by left|].
          destruct (decide (c = c0)) as [->|]; [exfalso; apply Hd; lia|right; lia]. }
        by apply (Hl r c a0 Hv0 Ha0).
Qed.

Lemma propagateRow_from rows columns r0 n : forall c0 g,
  (c0 + n = columns)%nat -> (r0 < rows)%nat ->
  shaped rows columns g -> bordered rows columns g -> linked r0 c0 g ->
  exists g', foldM (propagateCell rows columns r0) (seq c0 n) g = Some g' /\
    shaped rows columns g' /\ bordered rows columns g' /\ linked r0 columns g'.
Proof.
  induction n as [|n IH]; intros c0 g Hn Hr0 Hs Hb Hl.
  - exists g. assert (c0 = columns) as -> by lia. cbn. auto.
  - destruct (propagateCell_step rows columns r0 c0 g) as (g1 & E & Hs1 & Hb1 & Hl1);
      [lia..|done|done|done|].
    cbn [seq foldM]. rewrite E. cbn [mbind option_bind].
    replace (c0 + 1)%nat with (S c0) in Hl1 by lia.
    apply IH; [lia|done..].
Qed.

Lemma linked_next_row rows columns r0 g :
  shaped rows columns g -> linked r0 columns g -> linked (S r0) 0 g.
Proof.
  intros Hs Hl r c a Hv Ha. apply Hl; [|done].
  assert (c < columns)%nat by (apply (proj1 (Hs r c)); by rewrite Ha).
  unfold visited in *. lia.
Qed.

Lemma ensureConsistency_from rows columns n : forall r0 g,
  (r0 + n = rows)%nat ->
  shaped rows columns g -> bordered rows columns g -> linked r0 0 g ->
  exists g', foldM (propagateRow rows columns) (seq r0 n) g = Some g' /\
    shaped rows columns g' /\ bordered rows columns g' /\ linked rows 0 g'.
Proof.
  induction n as [|n IH]; intros r0 g Hn Hs Hb Hl.
  - exists g. assert (r0 = rows) as -> by lia. cbn. auto.
  - destruct (propagateRow_from rows columns r0 columns 0 g) as (g1 & E & Hs1 & Hb1 & Hl1);
      [lia..|done|done|done|].
    change (propagateRow rows columns r0 g = Some g1) in E.
    cbn [seq foldM]. rewrite E. cbn [mbind option_bind].
    apply IH; [lia|done..|]. by eapply linked_next_row.
Qed.

Lemma piecePattern_Some rows columns omega n :
  exists g, (piecePattern rows columns omega n).1 = Some g /\ consistent rows columns g.
Proof.
  unfold piecePattern, bind.
  pose proof (initPattern_shaped rows columns omega n) as Hs.
  pose proof (initPattern_bordered rows columns omega n) as Hb.
  destruct (initPattern rows columns omega n) as [g0 n1]. cbn in *.
  destruct (ensureConsistency_from rows columns rows 0 g0) as (g & E & Hs' & Hb' & Hl);
    [lia|done|done| |].
  { intros r c a Hv. unfold visited in Hv. lia. }
  exists g. split; [exact E|]. split; [done|]. split; [done|].
  split; intros r c a b Ha Hbn.
  - assert (r < rows /\ c < columns)%nat as [? ?] by (apply (proj1 (Hs' r c)); by rewrite Ha).
    destruct (Hl r c a) as [H1 _]; [left; lia|done|].
    rewrite (H1 b Hbn). by rewrite negb_involutive.
  - assert (r < rows /\ c < columns)%nat as [? ?] by (apply (proj1 (Hs' r c)); by rewrite Ha).
    destruct (Hl r c a) as [_ H2]; [left; lia|done|].
    rewrite (H2 b Hbn). by rewrite negb_involutive.
Qed.

(** C1.  For any numbers of rows and columns (in particular at least 3 of
    each) and any outcome of the coin flips, the two passes produce a grid
    with a cell at exactly the positions [(r, c)], [r < rows] and
    [c < columns]; horizontally and vertically adjacent cells carry
    opposite flags on the edge they share; and the flag of every edge on
    the rim of the grid (top of row 0, right of the last column, bottom of
    the last row, left of column 0) is [false]. *)
Theorem classic_grid_consistent (rows columns : nat) (omega : Oracle) (n : nat) :
  (3 <= rows)%nat -> (3 <= columns)%nat ->
  exists g, (piecePattern rows columns omega n).1 = Some g /\
    (forall r c, is_Some (cell g r c) <-> (r < rows /\ c < columns)%nat) /\
    (forall r c a b, cell g r c = Some a -> cell g r (c + 1) = Some b ->
       Tabs.right a = negb (Tabs.left b) /\ Tabs.left b = negb (Tabs.right a)) /\
    (forall r c a b, cell g r c = Some a -> cell g (r + 1) c = Some b ->
       Tabs.bottom a = negb (Tabs.top b) /\ Tabs.top b = negb (Tabs.bottom a)) /\
    (forall r c a, cell g r c = Some a ->
       (r = 0%nat -> Tabs.top a = false) /\
       (c = (columns - 1)%nat -> Tabs.right a = false) /\
       (r = (rows - 1)%nat -> Tabs.bottom a = false) /\
       (c = 0%nat -> Tabs.left a = false)).
Proof.
  intros _ _. destruct (piecePattern_Some rows columns omega n) as (g & E & Hs & Hb & Hh & Hv).
  exists g. split; [exact E|]. split; [exact Hs|]. split; [exact Hh|]. split; [exact Hv|].
  intros r c a Ha. exact (Hb r c a Ha).
Qed.

Lemma classic_grid_consistent_witness :
  exists g, (piecePattern 3 4 sampleOracle 0).1 = Some g /\
    forall r c, is_Some (cell g r c) <-> (r < 3 /\ c < 4)%nat.
Proof.
  destruct (classic_grid_consistent 3 4 sampleOracle 0) as (g & E & Hs & _); [lia|lia|].
  exists g. split; [exact E|exact Hs].
Defined.

(** ** The missing-set selection *)

Lemma drawIndex_lt (totalPieces : nat) (r : Q) :
  (0 <= r)%Q -> (r < 1)%Q -> (0 < totalPieces)%nat -> (drawIndex totalPieces r < totalPieces)%nat.
Proof.
  intros H0 H1 Ht. unfold drawIndex.
  set (T := inject_Z (Z.of_nat totalPieces)).
  assert (0 < T)%Q as HT by (unfold T; change 0%Q with (inject_Z 0); rewrite <- Zlt_Qlt; lia).
  assert (0 <= Qfloor (r * T))%Z as Hlo.
  { change 0%Z with (Qfloor (inject_Z 0)). apply Qfloor_resp_le.
    apply Qmult_le_0_compat; [done|]. by apply Qlt_le_weak. }
  assert (Qfloor (r * T) < Z.of_nat totalPieces)%Z as Hhi.
  { rewrite Zlt_Qlt. eapply Qle_lt_trans; [apply Qfloor_le|].
    fold T. apply Qlt_le_trans with (1 * T)%Q; [by apply Qmult_lt_compat_r|].
    rewrite Qmult_1_l. apply Qle_refl. }
  lia.
Qed.

Lemma set_add_NoDup i s : NoDup s -> NoDup (set_add i s).
Proof.
  intros Hs. unfold set_add. case_decide; [done|].
  apply NoDup_app. split; [done|]. split; [|apply NoDup_singleton].
  intros x Hx ->%list_elem_of_singleton. done.
Qed.

Lemma set_add_elem i s x : x ∈ set_add i s <-> x = i \/ x ∈ s.
Proof.
  unfold set_add. case_decide.
  - split; [auto|]. intros [->|]; done.
  - rewrite elem_of_app, list_elem_of_singleton. tauto.
Qed.

Lemma set_add_length i s : (length s <= length (set_add i s) <= S (length s))%nat.
Proof. unfold set_add. case_decide; rewrite ?length_app; cbn; lia. Qed.

Lemma draws_S omega n fuel totalPieces :
  draws omega n (S fuel) totalPieces
  = drawIndex totalPieces (omega n) :: draws omega (S n) fuel totalPieces.
Proof.
  unfold draws. cbn [seq map]. rewrite Nat.add_0_r. f_equal.
  rewrite <- seq_shift, map_map. apply map_ext. intros k. do 2 f_equal. lia.
Qed.

(** What the loop returns, when it returns. *)
Lemma missingLoop_sound totalPieces missingCount omega (Hom : in_unit omega) fuel :
  forall acc n S n',
  (0 < totalPieces \/ missingCount = 0)%nat ->
  NoDup acc -> (forall i, i ∈ acc -> (i < totalPieces)%nat) ->
  (length acc <= missingCount)%nat ->
  missingLoop fuel totalPieces missingCount acc omega n = (Some S, n') ->
  NoDup S /\ length S = missingCount /\ (forall i, i ∈ S -> (i < totalPieces)%nat).
Proof.
  induction fuel as [|fuel IH]; intros acc n S n' Ht Hnd Hr Hlen; cbn [missingLoop];
    destruct (Nat.ltb_spec (length acc) missingCount) as [Hlt|Hge].
  - done.
  - intros [= <- <-]. repeat split; [done|lia|done].
  - unfold bind, Math_random. apply IH; [done|by apply set_add_NoDup| |].
    + intros i [->|Hi]%set_add_elem; [|by apply Hr].
      apply drawIndex_lt; [apply Hom..|lia].
    + pose proof (set_add_length (drawIndex totalPieces (omega n)) acc). lia.
  - intros [= <- <-]. repeat split; [done|lia|done].
Qed.

(** The loop returns as soon as the draws it is given hit enough
    distinct indices. *)
Lemma missingLoop_complete totalPieces missingCount omega fuel :
  forall acc n,
  NoDup acc ->
  (missingCount <= size (list_to_set (acc ++ draws omega n fuel totalPieces) : gset nat))%nat ->
  exists S n', missingLoop fuel totalPieces missingCount acc omega n = (Some S, n').
Proof.
  induction fuel as [|fuel IH]; intros acc n Hnd Hsz; cbn [missingLoop];
    destruct (Nat.ltb_spec (length acc) missingCount) as [Hlt|Hge]; try by eauto.
  - exfalso. unfold draws in Hsz. cbn in Hsz. rewrite app_nil_r in Hsz.
    rewrite size_list_to_set in Hsz by done. lia.
  - unfold bind, Math_random. apply IH; [by apply set_add_NoDup|].
    rewrite draws_S in Hsz.
    eapply Nat.le_trans; [exact Hsz|]. apply subseteq_size.
    intros x. rewrite !elem_of_list_to_set, !elem_of_app, elem_of_cons, set_add_elem. tauto.
Qed.

Lemma missingLoop_zero fuel totalPieces omega n :
  missingLoop fuel totalPieces 0 [] omega n = (Some [], n).
Proof. by destruct fuel. Qed.

(** ** The generation call *)

Section GenerateFacts.
Variables (shapeSeed : R) (img : Image) (settings : PuzzleSettings)
          (currentShapeSeed : option R).

Abbreviation blank := [DrawImage img 0 0 (width img settings) (height img settings)].
Abbreviation path := (piecePath shapeSeed img settings currentShapeSeed).
Abbreviation stroke := (strokeBorders shapeSeed img settings currentShapeSeed).
Abbreviation cut := (cutHoles shapeSeed img settings currentShapeSeed).
Abbreviation allPieces := (rows settings * columns settings)%nat.

Lemma piecePath_is_Some grid row col :
  shaped (rows settings) (columns settings) grid ->
  (row < rows settings)%nat -> (col < columns settings)%nat ->
  is_Some (path grid row col).
Proof.
  intros Hs Hr Hc. unfold piecePath. destruct (pieceStyle settings); [|done].
  destruct (proj2 (Hs row col) (conj Hr Hc)) as [t ->]. done.
Qed.

Lemma strokeBorders_is_Some grid ctx :
  shaped (rows settings) (columns settings) grid -> is_Some (stroke grid ctx).
Proof.
  intros Hs. unfold strokeBorders.
  match goal with |- is_Some (mapM ?f ?l ≫= _) =>
    assert (is_Some (mapM f l)) as [strokes ->]; [|done] end.
  apply mapM_is_Some, Forall_forall. intros row [_ Hr]%elem_of_seq. cbn.
  apply mapM_is_Some, Forall_forall. intros col [_ Hc]%elem_of_seq. cbn.
  apply fmap_is_Some, piecePath_is_Some; [done|lia..].
Qed.

Lemma index_row_col index :
  (index < allPieces)%nat ->
  (index / columns settings < rows settings)%nat /\
  (index mod columns settings < columns settings)%nat.
Proof.
  intros Hi. assert (columns settings <> 0)%nat by nia. split.
  - apply Nat.Div0.div_lt_upper_bound. nia.
  - by apply Nat.mod_upper_bound.
Qed.

Lemma cutHoles_is_Some grid indices ctx :
  shaped (rows settings) (columns settings) grid ->
  (forall i, i ∈ indices -> (i < allPieces)%nat) ->
  is_Some (cut grid indices ctx).
Proof.
  intros Hs Hi. unfold cutHoles.
  match goal with |- is_Some (mapM ?f ?l ≫= _) =>
    assert (is_Some (mapM f l)) as [holes ->]; [|done] end.
  apply mapM_is_Some, Forall_forall. intros index Hin. cbn.
  destruct (index_row_col index (Hi _ Hin)).
  by apply fmap_is_Some, piecePath_is_Some.
Qed.

(** What a run that produced a result went through. *)
Lemma generatePuzzles_inv fuel omega n g n' :
  generatePuzzles shapeSeed img settings currentShapeSeed fuel omega n = (Produced g, n') ->
  exists grid n1 indices completeCtx holesCtx missingCtx,
    piecePattern (rows settings) (columns settings) omega n = (Some grid, n1) /\
    stroke grid blank = Some completeCtx /\
    missingLoop fuel allPieces (missingCountOf settings) [] omega n1 = (Some indices, n') /\
    cut grid indices blank = Some holesCtx /\
    stroke grid holesCtx = Some missingCtx /\
    g = mkGenerated
          (mkCanvas (canvasSize (width img settings)) (canvasSize (height img settings))
                    completeCtx)
          (mkCanvas (canvasSize (width img settings)) (canvasSize (height img settings))
                    missingCtx)
          (mkStats allPieces (missingCountOf settings)) indices.
Proof.
  unfold generatePuzzles, bind.
  destruct (piecePattern _ _ omega n) as [[grid|] n1]; [|done].
  destruct (stroke grid blank) as [completeCtx|] eqn:Ec; [|done].
  destruct (missingLoop _ _ _ _ omega n1) as [[indices|] n2] eqn:El; [|done].
  destruct (cut grid indices blank) as [holesCtx|] eqn:Eh; cbn [mbind option_bind]; [|done].
  destruct (stroke grid holesCtx) as [missingCtx|] eqn:Em; [|done].
  intros [= <- <-]. exists grid, n1, indices, completeCtx, holesCtx, missingCtx.
  repeat split; done.
Qed.

(** A run whose selection loop finishes produces a result. *)
Lemma generatePuzzles_produces fuel omega n grid n1 indices n' :
  in_unit omega ->
  piecePattern (rows settings) (columns settings) omega n = (Some grid, n1) ->
  missingLoop fuel allPieces (missingCountOf settings) [] omega n1 = (Some indices, n') ->
  exists g, generatePuzzles shapeSeed img settings currentShapeSeed fuel omega n
            = (Produced g, n').
Proof.
  intros Hom Hp Hm.
  destruct (piecePattern_Some (rows settings) (columns settings) omega n)
    as (grid' & E & Hs & _).
  rewrite Hp in E. injection E as <-.
  unfold generatePuzzles, bind. rewrite Hp.
  destruct (strokeBorders_is_Some grid blank Hs) as [completeCtx ->].
  rewrite Hm.
  destruct (missingLoop_sound allPieces (missingCountOf settings) omega Hom fuel [] n1 indices n')
    as (_ & _ & Hr);
    [ | apply NoDup_nil_2 | by intros i ?%elem_of_nil | cbn; lia | done | ].
  { unfold missingCountOf. destruct (Nat.eq_dec allPieces 0) as [->|]; [by right|left; lia]. }
  destruct (cutHoles_is_Some grid indices blank Hs Hr) as [holesCtx ->].
  cbn [mbind option_bind].
  destruct (strokeBorders_is_Some grid holesCtx Hs) as [missingCtx ->].
  eauto.
Qed.




(** Enough distinct draws within the fuel make the run produce. *)
Lemma generatePuzzles_enough fuel omega n :
  in_unit omega -> enoughDraws settings fuel omega n ->
  exists g n', generatePuzzles shapeSeed img settings currentShapeSeed fuel omega n
               = (Produced g, n').
Proof.
  intros Hom Hsz. unfold enoughDraws in Hsz.
  destruct (piecePattern_Some (rows settings) (columns settings) omega n)
    as (grid & E & _).
  destruct (piecePattern (rows settings) (columns settings) omega n) as [o n1] eqn:Hp.
  cbn in E, Hsz. subst o.
  destruct (missingLoop_complete allPieces (missingCountOf settings) omega fuel [] n1)
    as (indices & n' & Hm); [apply NoDup_nil_2|exact Hsz|].
  destruct (generatePuzzles_produces fuel omega n grid n1 indices n' Hom Hp Hm) as [g Hg].
  eauto.
Qed.

(** With nothing to select the run produces, whatever the oracle. *)
Lemma generatePuzzles_no_missing fuel omega n :
  missingCountOf settings = 0%nat ->
  exists g n', generatePuzzles shapeSeed img settings currentShapeSeed fuel omega n
               = (Produced g, n') /\
    missingIndices g = [] /\ cv_ops (missingCanvas g) = cv_ops (completeCanvas g) /\
    missingCanvas g = completeCanvas g.
Proof.
  intros H0.
  destruct (piecePattern_Some (rows settings) (columns settings) omega n)
    as (grid & E & Hs & _).
  destruct (piecePattern (rows settings) (columns settings) omega n) as [o n1] eqn:Hp.
  cbn in E. subst o.
  unfold generatePuzzles, bind. rewrite Hp.
  destruct (strokeBorders_is_Some grid blank Hs) as [completeCtx Hc]. rewrite Hc.
  rewrite H0, missingLoop_zero.
  unfold cutHoles. cbn [mapM mret option_ret mbind option_bind]. rewrite app_nil_r, Hc.
  eauto 10.
Qed.

End GenerateFacts.

(** ** The missing set and the statistics *)

(** C3.  A run whose oracle stays in [[0, 1)] and whose selection loop
    is given draws that hit at least [missingCount] distinct indices
    produces a result in which the missing set has exactly
    [missingCount = floor (rows * columns * missingPercentage / 100)]
    elements, all distinct and all below [rows * columns], and the
    statistics report [total = rows * columns] and
    [missing = missingCount]. *)
Theorem missing_set_exact shapeSeed img s cur fuel omega n :
  in_unit omega -> enoughDraws s fuel omega n ->
  exists g n', generatePuzzles shapeSeed img s cur fuel omega n = (Produced g, n') /\
    let missingCount := length (missingIndices g) in
    (100 * missingCount <= rows s * columns s * missingPercentage s
       < 100 * (missingCount + 1))%nat /\
    NoDup (missingIndices g) /\
    (forall i, i ∈ missingIndices g -> (i < rows s * columns s)%nat) /\
    total (pieceStats g) = (rows s * columns s)%nat /\
    missing (pieceStats g) = missingCount.
Proof.
  intros Hom Hsz.
  destruct (generatePuzzles_enough shapeSeed img s cur fuel omega n Hom Hsz) as (g & n' & Hg).
  exists g, n'. split; [exact Hg|].
  destruct (generatePuzzles_inv _ _ _ _ _ _ _ _ _ Hg)
    as (grid & n1 & indices & cc & hc & mc & Hp & _ & Hm & _ & _ & ->).
  cbn [missingIndices pieceStats total missing].
  destruct (missingLoop_sound (rows s * columns s) (missingCountOf s) omega Hom fuel [] n1
              indices n') as (Hnd & Hlen & Hr);
    [ | apply NoDup_nil_2 | by intros i ?%elem_of_nil | cbn; lia | done | ].
  { unfold missingCountOf. destruct (Nat.eq_dec (rows s * columns s) 0) as [->|];
      [by right|left; lia]. }
  rewrite Hlen. split; [|done].
  unfold missingCountOf.
  pose proof (Nat.div_mod (rows s * columns s * missingPercentage s) 100).
  pose proof (Nat.mod_upper_bound (rows s * columns s * missingPercentage s) 100). lia.
Qed.

Lemma missing_set_exact_witness :
  exists g n', generatePuzzles 0 sampleImage sampleSettings None 10 sampleOracle 0
               = (Produced g, n') /\
    length (missingIndices g) = 3%nat /\ pieceStats g = mkStats 12 3.
Proof.
  destruct (missing_set_exact 0 sampleImage sampleSettings None 10 sampleOracle 0)
    as (g & n' & Hg & Hfl & _ & _ & Ht & Hm).
  - exact sampleOracle_in_unit.
  - enough_draws.
  - exists g, n'. split; [exact Hg|]. cbn in *.
    assert (length (missingIndices g) = 3)%nat as Hl by lia. split; [exact Hl|].
    destruct (pieceStats g); cbn in *. congruence.
Defined.

(** ** No validation of the configuration *)




(** ** No missing piece *)

(** C8.  When [missingCount] is zero the selection loop draws nothing,
    no hole is cut, and the missing canvas received exactly the commands
    of the complete canvas: the two rasters are identical. *)
Theorem no_missing_pieces_same_raster shapeSeed img s cur fuel omega n :
  missingCountOf s = 0%nat ->
  exists g n', generatePuzzles shapeSeed img s cur fuel omega n = (Produced g, n') /\
    missingIndices g = [] /\
    (forall p, FillDestinationOut p ∉ cv_ops (missingCanvas g)) /\
    missingCanvas g = completeCanvas g.
Proof.
  intros H0.
  destruct (generatePuzzles_no_missing shapeSeed img s cur fuel omega n H0)
    as (g & n' & Hg & Hi & Hops & Heq).
  exists g, n'. repeat split; try done.
  intros p Hin. rewrite Hops in Hin.
  destruct (generatePuzzles_inv _ _ _ _ _ _ _ _ _ Hg)
    as (grid & n1 & indices & cc & hc & mc & _ & Hc & _ & _ & _ & ->).
  cbn in Hin. unfold strokeBorders in Hc.
  destruct (mapM _ _) as [strokes|] eqn:E in Hc; [|done]. cbn in Hc. injection Hc as <-.
  apply elem_of_cons in Hin as [|Hin]; [done|].
  apply list_elem_of_In, in_concat in Hin as (row & Hrow & Hin).
  apply mapM_Some_1 in E.
  apply list_elem_of_In, list_elem_of_lookup in Hrow as [i Hi'].
  destruct (Forall2_lookup_r _ _ _ _ _ E Hi') as (r & _ & Er).
  apply mapM_Some_1 in Er.
  apply list_elem_of_In, list_elem_of_lookup in Hin as [j Hj].
  destruct (Forall2_lookup_r _ _ _ _ _ Er Hj) as (c & _ & Ec).
  destruct (piecePath _ _ _ _ _ _ _); done.
Qed.

Lemma no_missing_pieces_same_raster_witness :
  missingCountOf smallestSettings = 0%nat /\
  exists g n', generatePuzzles 0 sampleImage smallestSettings None 0 sampleOracle 0
               = (Produced g, n') /\ missingCanvas g = completeCanvas g.
Proof.
  split; [reflexivity|].
  destruct (no_missing_pieces_same_raster 0 sampleImage smallestSettings None 0 sampleOracle 0)
    as (g & n' & Hg & _ & _ & Heq); [reflexivity|]. eauto.
Defined.

(** ** Determinism of the abstract style *)

(** The abstract path of a piece reads neither the grid nor the oracle,
    only the seed in use. *)
Lemma piecePath_abstract ss1 ss2 img s cur1 cur2 grid1 grid2 row col :
  pieceStyle s = Abstract ->
  usedShapeSeed cur1 ss1 = usedShapeSeed cur2 ss2 ->
  piecePath ss1 img s cur1 grid1 row col = piecePath ss2 img s cur2 grid2 row col.
Proof. intros Hst Hseed. unfold piecePath. rewrite Hst, Hseed. done. Qed.

Lemma strokeBorders_abstract ss1 ss2 img s cur1 cur2 grid1 grid2 ctx :
  pieceStyle s = Abstract ->
  usedShapeSeed cur1 ss1 = usedShapeSeed cur2 ss2 ->
  strokeBorders ss1 img s cur1 grid1 ctx = strokeBorders ss2 img s cur2 grid2 ctx.
Proof.
  intros Hst Hseed. unfold strokeBorders. f_equal.
  apply mapM_ext. intros row. apply mapM_ext. intros col.
  by rewrite (piecePath_abstract ss1 ss2 img s cur1 cur2 grid1 grid2 row col).
Qed.

(** C2.  For the Abstract style the complete canvas is a function of the
    image, the configuration and the seed in use.  Take two runs that
    agree on these: each produces when it is given enough draws, and the
    results they produce have the same complete canvas, whatever
    [Math.random] returns in either run and however long the selection
    loops take.  The path of a piece is [drawAbstractPuzzlePiece] at the
    cell rectangle and the per-piece seed, a function with no other
    input. *)
Theorem abstract_complete_deterministic
    ss1 ss2 img s cur1 cur2 fuel1 fuel2 omega1 omega2 n1 n2 :
  pieceStyle s = Abstract ->
  usedShapeSeed cur1 ss1 = usedShapeSeed cur2 ss2 ->
  (in_unit omega1 -> enoughDraws s fuel1 omega1 n1 ->
   exists g1 m1, generatePuzzles ss1 img s cur1 fuel1 omega1 n1 = (Produced g1, m1)) /\
  (in_unit omega2 -> enoughDraws s fuel2 omega2 n2 ->
   exists g2 m2, generatePuzzles ss2 img s cur2 fuel2 omega2 n2 = (Produced g2, m2)) /\
  (forall g1 g2 m1 m2,
     generatePuzzles ss1 img s cur1 fuel1 omega1 n1 = (Produced g1, m1) ->
     generatePuzzles ss2 img s cur2 fuel2 omega2 n2 = (Produced g2, m2) ->
     completeCanvas g1 = completeCanvas g2) /\
  (forall grid row col,
     piecePath ss1 img s cur1 grid row col
     = Some (drawAbstractPuzzlePiece
               (INR col * pieceWidth img s) (INR row * pieceHeight img s)
               (pieceWidth img s) (pieceHeight img s)
               (usedShapeSeed cur1 ss1 + INR row * INR (columns s) + INR col + 1))).
Proof.
  intros Hst Hseed.
  split; [apply generatePuzzles_enough|]. split; [apply generatePuzzles_enough|]. split.
  - intros g1 g2 m1 m2 H1 H2.
    destruct (generatePuzzles_inv _ _ _ _ _ _ _ _ _ H1)
      as (grid1 & k1 & i1 & cc1 & hc1 & mc1 & _ & Hc1 & _ & _ & _ & ->).
    destruct (generatePuzzles_inv _ _ _ _ _ _ _ _ _ H2)
      as (grid2 & k2 & i2 & cc2 & hc2 & mc2 & _ & Hc2 & _ & _ & _ & ->).
    cbn [completeCanvas]. f_equal.
    rewrite (strokeBorders_abstract ss1 ss2 img s cur1 cur2 grid1 grid2 _ Hst Hseed) in Hc1.
    congruence.
  - intros grid row col. unfold piecePath. by rewrite Hst.
Qed.

Lemma usedShapeSeed_given s shapeSeed : s <> 0%R -> usedShapeSeed (Some s) shapeSeed = s.
Proof. intros Hs. unfold usedShapeSeed. by destruct (Req_dec_T s 0). Qed.

Lemma abstract_complete_deterministic_witness :
  exists g1 g2 m1 m2,
    generatePuzzles 0 sampleImage abstractSettings (Some 42%R) 10 sampleOracle 0
      = (Produced g1, m1) /\
    generatePuzzles 7 sampleImage abstractSettings (Some 42%R) 20 otherOracle 5
      = (Produced g2, m2) /\
    completeCanvas g1 = completeCanvas g2.
Proof.
  assert (usedShapeSeed (Some 42%R) 0 = usedShapeSeed (Some 42%R) 7) as Hseed.
  { rewrite !usedShapeSeed_given by lra. reflexivity. }
  destruct (abstract_complete_deterministic 0 7 sampleImage abstractSettings
              (Some 42%R) (Some 42%R) 10 20 sampleOracle otherOracle 0 5 eq_refl Hseed)
    as (Hrun1 & Hrun2 & Hsame & _).
  destruct Hrun1 as (g1 & m1 & H1); [exact sampleOracle_in_unit | enough_draws |].
  destruct Hrun2 as (g2 & m2 & H2); [exact otherOracle_in_unit | enough_draws |].
  exists g1, g2, m1, m2. split; [exact H1|]. split; [exact H2|].
  exact (Hsame g1 g2 m1 m2 H1 H2).
Defined.

(** ** Where the commands of the missing canvas sit *)

Lemma concat_lookup_grid {A} (ls : list (list A)) (n r c : nat) :
  Forall (fun l => length l = n) ls -> (c < n)%nat ->
  concat ls !! (r * n + c)%nat = ls !! r ≫= (.!! c).
Proof.
  intros Hall Hc. revert r. induction Hall as [|l ls Hl _ IH]; intros r; [done|].
  cbn [concat]. destruct r as [|r]; cbn [lookup list_lookup mbind option_bind].
  - cbn. rewrite lookup_app_l by lia. done.
  - rewrite lookup_app_r by lia. replace (S r * n + c - length l)%nat with (r * n + c)%nat by lia.
    apply IH.
Qed.

Section Positions.
Variables (shapeSeed : R) (img : Image) (s : PuzzleSettings) (cur : option R).

Lemma strokeBorders_lookup grid ctx out row col :
  strokeBorders shapeSeed img s cur grid ctx = Some out ->
  (row < rows s)%nat -> (col < columns s)%nat ->
  out !! (length ctx + (row * columns s + col))%nat
  = Stroke (borderStyle s) <$> piecePath shapeSeed img s cur grid row col.
Proof.
  intros Hout Hr Hc. unfold strokeBorders in Hout.
  destruct (mapM _ _) as [strokes|] eqn:E in Hout; [|done]. cbn in Hout.
  injection Hout as <-. apply mapM_Some_1 in E.
  rewrite lookup_app_r by lia. replace (length ctx + (row * columns s + col) - length ctx)%nat
    with (row * columns s + col)%nat by lia.
  rewrite (concat_lookup_grid strokes (columns s) row col); [|(* lengths *)|done].
  - destruct (Forall2_lookup_l _ _ _ row row E) as (l & Hl & El);
      [by apply lookup_seq_lt|].
    rewrite Hl. cbn. apply mapM_Some_1 in El.
    destruct (Forall2_lookup_l _ _ _ col col El) as (o & Ho & Eo);
      [by apply lookup_seq_lt|].
    rewrite Ho. cbn in Eo. by rewrite Eo.
  - apply Forall_forall. intros l Hin.
    apply list_elem_of_lookup in Hin as [i Hi].
    destruct (Forall2_lookup_r _ _ _ _ _ E Hi) as (r & _ & Er).
    apply length_mapM in Er. by rewrite length_seq in Er.
Qed.

Lemma cutHoles_lookup grid indices ctx out k index :
  cutHoles shapeSeed img s cur grid indices ctx = Some out ->
  indices !! k = Some index ->
  out !! (length ctx + k)%nat
  = FillDestinationOut
      <$> piecePath shapeSeed img s cur grid (index / columns s) (index mod columns s).
Proof.
  intros Hout Hk. unfold cutHoles in Hout.
  destruct (mapM _ _) as [holes|] eqn:E in Hout; [|done]. cbn in Hout.
  injection Hout as <-. apply mapM_Some_1 in E.
  rewrite lookup_app_r by lia. replace (length ctx + k - length ctx)%nat with k by lia.
  destruct (Forall2_lookup_l _ _ _ k index E Hk) as (o & Ho & Eo).
  rewrite Ho. cbn in Eo. by rewrite Eo.
Qed.

Lemma cutHoles_length grid indices ctx out :
  cutHoles shapeSeed img s cur grid indices ctx = Some out ->
  length out = (length ctx + length indices)%nat.
Proof.
  intros Hout. unfold cutHoles in Hout.
  destruct (mapM _ _) as [holes|] eqn:E in Hout; [|done]. cbn in Hout.
  injection Hout as <-. apply length_mapM in E. rewrite length_app. lia.
Qed.

End Positions.

Lemma strokeBorders_prefix shapeSeed img s cur grid ctx out :
  strokeBorders shapeSeed img s cur grid ctx = Some out -> exists tail, out = ctx ++ tail.
Proof.
  unfold strokeBorders. destruct (mapM _ _) as [strokes|]; [|done].
  cbn. intros [= <-]. eauto.
Qed.

(** C10.  A run given enough draws produces.  In a run that produced a
    result, take the [k]-th index of the missing set, at row
    [index / columns] and column [index mod columns].  That cell is
    inside the grid, its row-major number is [index], and the path
    filled with destination-out for it (command [1 + k] of the missing
    canvas) is the very path stroked for that cell afterwards (command
    [1 + |missing set| + index]): both are [piecePath] on the one stored
    grid at the same row and column, hence at the same rectangle, the
    same stored flags and the same per-piece seed. *)
Theorem holes_match_borders shapeSeed img s cur fuel omega n :
  in_unit omega ->
  (enoughDraws s fuel omega n ->
   exists g n', generatePuzzles shapeSeed img s cur fuel omega n = (Produced g, n')) /\
  forall g n', generatePuzzles shapeSeed img s cur fuel omega n = (Produced g, n') ->
  exists grid, (piecePattern (rows s) (columns s) omega n).1 = Some grid /\
    forall k index, missingIndices g !! k = Some index ->
      let row := (index / columns s)%nat in
      let col := (index mod columns s)%nat in
      (row < rows s)%nat /\ (col < columns s)%nat /\ index = (row * columns s + col)%nat /\
      exists p, piecePath shapeSeed img s cur grid row col = Some p /\
        cv_ops (missingCanvas g) !! (1 + k)%nat = Some (FillDestinationOut p) /\
        cv_ops (missingCanvas g) !! (1 + length (missingIndices g) + index)%nat
          = Some (Stroke (borderStyle s) p).
Proof.
  intros Hom. split; [by apply generatePuzzles_enough|]. intros g n' Hg.
  destruct (generatePuzzles_inv _ _ _ _ _ _ _ _ _ Hg)
    as (grid & n1 & indices & cc & hc & mc & Hp & _ & Hm & Hh & Hs & ->).
  exists grid. split; [by rewrite Hp|].
  intros k index Hk. cbn zeta. cbn [missingIndices missingCanvas cv_ops] in Hk |- *.
  set (row := (index / columns s)%nat). set (col := (index mod columns s)%nat).
  destruct (piecePattern_Some (rows s) (columns s) omega n) as (grid' & E & Hshape & _).
  rewrite Hp in E. injection E as <-.
  destruct (missingLoop_sound (rows s * columns s) (missingCountOf s) omega Hom fuel [] n1
              indices n') as (_ & _ & Hr);
    [ | apply NoDup_nil_2 | by intros i ?%elem_of_nil | cbn; lia | done | ].
  { unfold missingCountOf. destruct (Nat.eq_dec (rows s * columns s) 0) as [->|];
      [by right|left; lia]. }
  assert (index < rows s * columns s)%nat as Hlt.
  { apply Hr, list_elem_of_lookup. eauto. }
  destruct (index_row_col s index Hlt) as [Hrow Hcol]. fold row col in Hrow, Hcol.
  assert (index = row * columns s + col)%nat as Hidx.
  { subst row col. pose proof (Nat.div_mod_eq index (columns s)). lia. }
  split; [done|]. split; [done|]. split; [done|].
  destruct (piecePath_is_Some shapeSeed img s cur grid row col Hshape Hrow Hcol) as [p Hpath].
  exists p. split; [done|].
  pose proof (cutHoles_lookup _ _ _ _ _ _ _ _ k index Hh Hk) as Hhole.
  fold row col in Hhole. rewrite Hpath in Hhole. cbn in Hhole.
  pose proof (cutHoles_length _ _ _ _ _ _ _ _ Hh) as Hlen. cbn in Hlen.
  pose proof (strokeBorders_lookup _ _ _ _ _ _ _ row col Hs Hrow Hcol) as Hstroke.
  rewrite Hpath, Hlen, <- Hidx in Hstroke. cbn in Hstroke.
  split; [|exact Hstroke].
  destruct (strokeBorders_prefix _ _ _ _ _ _ _ Hs) as [tail ->].
  rewrite lookup_app_l; [exact Hhole|].
  apply lookup_lt_Some in Hk. lia.
Qed.

Lemma holes_match_borders_witness :
  exists g n' grid,
    generatePuzzles 0 sampleImage sampleSettings None 10 sampleOracle 0 = (Produced g, n') /\
    (piecePattern 3 4 sampleOracle 0).1 = Some grid /\
    forall k index, missingIndices g !! k = Some index ->
      exists p, cv_ops (missingCanvas g) !! (1 + k)%nat = Some (FillDestinationOut p) /\
                cv_ops (missingCanvas g) !! (1 + length (missingIndices g) + index)%nat
                  = Some (Stroke (borderStyle sampleSettings) p).
Proof.
  destruct (holes_match_borders 0 sampleImage sampleSettings None 10 sampleOracle 0
              sampleOracle_in_unit) as [Hrun Hall].
  destruct Hrun as (g & n' & Hg); [enough_draws|].
  destruct (Hall g n' Hg) as (grid & Hgrid & Hholes).
  exists g, n', grid. split; [exact Hg|]. split; [exact Hgrid|].
  intros k index Hk. destruct (Hholes k index Hk) as (_ & _ & _ & p & _ & H1 & H2).
  exists p. split; [exact H1|exact H2].
Defined.

(** ** The deterministic random source *)

Lemma random_range (seed : R) (index : nat) : (0 <= random seed index < 1)%R.
Proof.
  unfold random, Math_floor.
  destruct (base_fp (sin (seed * 9.898 + INR index * 78.233) * 43758.5453)) as [H1 H2].
  unfold frac_part in *. lra.
Qed.

(** ** Quality tiers *)

Section Scaling.
Local Open Scope R_scope.

Lemma scale_down (iw ih mw mh : R) :
  0 < iw -> 0 < ih -> 0 < mw -> 0 < mh -> (mw < iw \/ mh < ih) ->
  let scale := Rmin (mw / iw) (mh / ih) in
  0 < scale < 1 /\ iw * scale <= mw /\ ih * scale <= mh.
Proof.
  intros Hiw Hih Hmw Hmh Hbig scale.
  assert (iw * (mw / iw) = mw) as Ew by (field; lra).
  assert (ih * (mh / ih) = mh) as Eh by (field; lra).
  assert (0 < mw / iw) by (apply Rdiv_lt_0_compat; lra).
  assert (0 < mh / ih) by (apply Rdiv_lt_0_compat; lra).
  assert (scale <= mw / iw) as H1 by apply Rmin_l.
  assert (scale <= mh / ih) as H2 by apply Rmin_r.
  assert (0 < scale) as Hpos by (unfold scale; by apply Rmin_glb_lt).
  assert (scale < 1) as Hlt.
  { destruct Hbig as [Hb|Hb].
    - assert (mw / iw < 1) by (generalize dependent (mw / iw); intros; nra). lra.
    - assert (mh / ih < 1) by (generalize dependent (mh / ih); intros; nra). lra. }
  split; [lra|]. split.
  - rewrite <- Ew. apply Rmult_le_compat_l; lra.
  - rewrite <- Eh. apply Rmult_le_compat_l; lra.
Qed.

Lemma qualitySettings_pos q mw mh : qualitySettings q = Some (mw, mh) -> 0 < mw /\ 0 < mh.
Proof. destruct q; intros [= <- <-]; lra. Qed.

Lemma scaledSize_spec q iw ih :
  0 < iw -> 0 < ih ->
  let '(w, h) := scaledSize q iw ih in
  w <= iw /\ h <= ih /\ 0 < w /\ 0 < h /\ w * ih = h * iw /\
  (forall mw mh, qualitySettings q = Some (mw, mh) ->
     w <= mw /\ h <= mh /\
     ((mw < iw \/ mh < ih) ->
        w = iw * Rmin (mw / iw) (mh / ih) /\ h = ih * Rmin (mw / iw) (mh / ih)) /\
     (iw <= mw -> ih <= mh -> w = iw /\ h = ih)) /\
  (qualitySettings q = None -> w = iw /\ h = ih).
Proof.
  intros Hiw Hih. unfold scaledSize.
  destruct (qualitySettings q) as [[mw mh]|] eqn:Eq.
  - destruct (qualitySettings_pos q mw mh Eq) as [Hmw Hmh].
    destruct (Rlt_dec mw iw) as [Hw|Hw]; [|destruct (Rlt_dec mh ih) as [Hh|Hh]].
    + rewrite (Rgtb_true iw mw Hw). cbn [orb].
      destruct (scale_down iw ih mw mh Hiw Hih Hmw Hmh (or_introl Hw)) as ([? ?] & ? & ?).
      repeat apply conj; try nra; [|done].
      intros mw' mh' [= <- <-]. repeat apply conj; try done; lra.
    + rewrite (Rgtb_false iw mw) by lra. rewrite (Rgtb_true ih mh Hh). cbn [orb].
      destruct (scale_down iw ih mw mh Hiw Hih Hmw Hmh (or_intror Hh)) as ([? ?] & ? & ?).
      repeat apply conj; try nra; [|done].
      intros mw' mh' [= <- <-]. repeat apply conj; try done; lra.
    + rewrite (Rgtb_false iw mw), (Rgtb_false ih mh) by lra. cbn [orb].
      repeat apply conj; try lra; try done.
      intros mw' mh' [= <- <-]. repeat apply conj; try lra; try done.
  - repeat apply conj; try lra; done.
Qed.

End Scaling.

(** ** Classic pieces on the rim *)

Section Rim.
Local Open Scope R_scope.
Variables (width height x y w h : R) (tabs : Tabs.t).

Lemma topEdge_straight : y <= 0 -> topEdge x y w h tabs = [LineTo (pt (x + w) y)].
Proof. intros Hy. unfold topEdge. rewrite (Rgtb_false y 0 Hy). by destruct (Tabs.top tabs). Qed.

Lemma rightEdge_straight :
  width <= x + w -> rightEdge width x y w h tabs = [LineTo (pt (x + w) (y + h))].
Proof.
  intros Hx. unfold rightEdge. rewrite (Rltb_false (x + w) width Hx).
  by destruct (Tabs.right tabs).
Qed.

Lemma bottomEdge_straight :
  height <= y + h -> bottomEdge height x y w h tabs = [LineTo (pt x (y + h))].
Proof.
  intros Hy. unfold bottomEdge. rewrite (Rltb_false (y + h) height Hy).
  by destruct (Tabs.bottom tabs).
Qed.

Lemma leftEdge_straight : x <= 0 -> leftEdge x y w h tabs = [LineTo (pt x y)].
Proof. intros Hx. unfold leftEdge. rewrite (Rgtb_false x 0 Hx). by destruct (Tabs.left tabs). Qed.

End Rim.

(** ** Soundness of the enclosures *)

Section Enclosures.
Local Open Scope R_scope.

Lemma SC_pos : (0 < SC)%Z.
Proof. reflexivity. Qed.

Lemma IZR_SC_pos : 0 < IZR SC.
Proof. apply IZR_lt. exact SC_pos. Qed.

Lemma div_unfold (a d : R) : 0 < d -> a / d * d = a.
Proof. intros. field. lra. Qed.

Lemma le_div (a b d : R) : 0 < d -> b * d <= a -> b <= a / d.
Proof. intros Hd H. apply (Rmult_le_reg_r d); [done|]. by rewrite div_unfold. Qed.

Lemma div_le (a b d : R) : 0 < d -> a <= b * d -> a / d <= b.
Proof. intros Hd H. apply (Rmult_le_reg_r d); [done|]. by rewrite div_unfold. Qed.

Lemma le_div_inv (a b d : R) : 0 < d -> b <= a / d -> b * d <= a.
Proof.
  intros Hd H. rewrite <- (div_unfold a d Hd). apply Rmult_le_compat_r; lra.
Qed.

Lemma div_le_inv (a b d : R) : 0 < d -> a / d <= b -> a <= b * d.
Proof.
  intros Hd H. rewrite <- (div_unfold a d Hd). apply Rmult_le_compat_r; lra.
Qed.

Lemma IZR_fdiv (n d : Z) : (0 < d)%Z -> IZR (n / d) <= IZR n / IZR d.
Proof.
  intros Hd. assert (0 < IZR d) as Hd' by (by apply IZR_lt).
  apply le_div; [done|]. rewrite <- mult_IZR. apply IZR_le.
  rewrite Z.mul_comm. apply Z.mul_div_le. done.
Qed.

Lemma IZR_cdiv (n d : Z) : (0 < d)%Z -> IZR n / IZR d <= IZR (cdiv n d).
Proof.
  intros Hd. unfold cdiv. rewrite opp_IZR.
  pose proof (IZR_fdiv (- n) d Hd) as H. rewrite opp_IZR in H.
  unfold Rdiv in *. lra.
Qed.

Lemma corner_lower (m ul uh vl vh U V : R) :
  m <= ul * vl -> m <= ul * vh -> m <= uh * vl -> m <= uh * vh ->
  ul <= U <= uh -> vl <= V <= vh -> m <= U * V.
Proof.
  intros H1 H2 H3 H4 [HU1 HU2] [HV1 HV2].
  destruct (Rle_dec 0 V) as [HV|HV].
  - apply Rle_trans with (ul * V); [|nra].
    destruct (Rle_dec 0 ul); nra.
  - apply Rle_trans with (uh * V); [|nra].
    destruct (Rle_dec 0 uh); nra.
Qed.

Lemma corner_upper (m ul uh vl vh U V : R) :
  ul * vl <= m -> ul * vh <= m -> uh * vl <= m -> uh * vh <= m ->
  ul <= U <= uh -> vl <= V <= vh -> U * V <= m.
Proof.
  intros H1 H2 H3 H4 [HU1 HU2] [HV1 HV2].
  destruct (Rle_dec 0 V) as [HV|HV].
  - apply Rle_trans with (uh * V); [nra|].
    destruct (Rle_dec 0 uh); nra.
  - apply Rle_trans with (ul * V); [nra|].
    destruct (Rle_dec 0 ul); nra.
Qed.

Lemma mul_sound (ul uh vl vh : Z) (u v : R) :
  IZR ul / IZR SC <= u <= IZR uh / IZR SC ->
  IZR vl / IZR SC <= v <= IZR vh / IZR SC ->
  IZR (mul_lo ul uh vl vh) / IZR SC <= u * v <= IZR (mul_hi ul uh vl vh) / IZR SC.
Proof.
  intros Hu Hv. pose proof IZR_SC_pos as HS.
  set (U := u * IZR SC). set (V := v * IZR SC).
  assert (IZR ul <= U <= IZR uh) as HU.
  { unfold U. destruct Hu as [H1 H2].
    apply div_le_inv in H1; [|lra]. apply le_div_inv in H2; [|lra]. lra. }
  assert (IZR vl <= V <= IZR vh) as HV.
  { unfold V. destruct Hv as [H1 H2].
    apply div_le_inv in H1; [|lra]. apply le_div_inv in H2; [|lra]. lra. }
  assert (u * v = U * V / IZR SC / IZR SC) as -> by (unfold U, V; field; lra).
  split.
  - apply Rle_trans with (IZR (corner_min ul uh vl vh) / IZR SC / IZR SC).
    + apply Rmult_le_compat_r; [left; by apply Rinv_0_lt_compat|].
      apply IZR_fdiv, SC_pos.
    + apply Rmult_le_compat_r; [left; by apply Rinv_0_lt_compat|].
      apply Rmult_le_compat_r; [left; by apply Rinv_0_lt_compat|].
      apply (corner_lower _ (IZR ul) (IZR uh) (IZR vl) (IZR vh)); try done;
        rewrite <- mult_IZR; apply IZR_le; unfold corner_min; lia.
  - apply Rle_trans with (IZR (corner_max ul uh vl vh) / IZR SC / IZR SC).
    + apply Rmult_le_compat_r; [left; by apply Rinv_0_lt_compat|].
      apply Rmult_le_compat_r; [left; by apply Rinv_0_lt_compat|].
      apply (corner_upper _ (IZR ul) (IZR uh) (IZR vl) (IZR vh)); try done;
        rewrite <- mult_IZR; apply IZR_le; unfold corner_max; lia.
    + apply Rmult_le_compat_r; [left; by apply Rinv_0_lt_compat|].
      apply IZR_cdiv, SC_pos.
Qed.

Lemma double_sound (b : Box) (a : R) : encloses b a -> encloses (double b) (2 * a).
Proof.
  intros [Hs Hc]. pose proof IZR_SC_pos as HS.
  pose proof (mul_sound _ _ _ _ _ _ Hs Hc) as [P1 P2].
  pose proof (mul_sound _ _ _ _ _ _ Hs Hs) as [Q1 Q2].
  unfold encloses, double. cbn [slo shi clo chi].
  rewrite sin_2a, cos_2a_sin, !minus_IZR, !mult_IZR.
  unfold Rdiv in *. repeat split.
  - lra.
  - lra.
  - assert (IZR SC * / IZR SC = 1) as E by (field; lra). nra.
  - assert (IZR SC * / IZR SC = 1) as E by (field; lra). nra.
Qed.

Lemma doubles_sound (k : nat) : forall (b : Box) (a : R),
  encloses b a -> encloses (doubles k b) (2 ^ k * a).
Proof.
  induction k as [|k IH]; intros b a Hb; cbn [doubles pow].
  - by rewrite Rmult_1_l.
  - replace (2 * 2 ^ k * a) with (2 ^ k * (2 * a)) by ring.
    apply IH, double_sound, Hb.
Qed.



Lemma taylor_sound (N D : Z) :
  (0 <= N <= D)%Z -> (0 < D)%Z -> encloses (taylor N D) (IZR N / IZR D).
Proof.
  intros HN HD. pose proof IZR_SC_pos as HS.
  assert (0 < IZR D) as HD' by (by apply IZR_lt).
  assert (0 <= IZR N <= IZR D) as HN' by (split; apply IZR_le; lia).
  set (a := IZR N / IZR D).
  assert (0 <= a <= 1) as Ha.
  { unfold a. split; [apply le_div; lra|apply div_le; lra]. }
  destruct (pre_sin_bound a 0) as [S1 S2]; [lra..|].
  destruct (pre_cos_bound a 0) as [C1 C2]; [lra..|].
  unfold sin_approx, cos_approx, sin_term, cos_term in *. cbn in S1, S2, C1, C2.
  assert (forall X Y : Z, (0 < Y)%Z -> IZR (SC * X / Y) / IZR SC <= IZR X / IZR Y) as Hlo.
  { intros X Y HY. assert (0 < IZR Y) by (by apply IZR_lt).
    apply div_le; [done|]. eapply Rle_trans; [by apply IZR_fdiv|].
    rewrite mult_IZR. right. field. lra. }
  assert (forall X Y : Z, (0 < Y)%Z -> IZR X / IZR Y <= IZR (cdiv (SC * X) Y) / IZR SC) as Hhi.
  { intros X Y HY. assert (0 < IZR Y) by (by apply IZR_lt).
    apply le_div; [done|]. eapply Rle_trans; [|by apply IZR_cdiv].
    rewrite mult_IZR. right. field. lra. }
  unfold encloses, taylor. cbn [slo shi clo chi]. repeat split.
  - eapply Rle_trans; [apply Hlo; nia|]. eapply Rle_trans; [|exact S1].
    rewrite !minus_IZR, !mult_IZR. unfold a. right. field. lra.
  - eapply Rle_trans; [|apply Hhi; nia]. eapply Rle_trans; [exact S2|].
    rewrite !plus_IZR, !minus_IZR, !mult_IZR. unfold a. right. field. lra.
  - eapply Rle_trans; [apply Hlo; nia|]. eapply Rle_trans; [|exact C1].
    rewrite !minus_IZR, !mult_IZR. unfold a. right. field. lra.
  - eapply Rle_trans; [|apply Hhi; nia]. eapply Rle_trans; [exact C2|].
    rewrite !plus_IZR, !minus_IZR, !mult_IZR. unfold a. right. field. lra.
Qed.

Lemma sinBox_sound (N : Z) (k : nat) :
  (0 <= N <= 1000 * 2 ^ Z.of_nat k)%Z -> encloses (sinBox N k) (IZR N / 1000).
Proof.
  intros HN. unfold sinBox.
  assert (0 < 2 ^ Z.of_nat k)%Z as Hp by (apply Z.pow_pos_nonneg; lia).
  pose proof (doubles_sound k _ _ (taylor_sound N (1000 * 2 ^ Z.of_nat k) HN ltac:(lia)))
    as H.
  replace (2 ^ k * (IZR N / IZR (1000 * 2 ^ Z.of_nat k))) with (IZR N / 1000) in H; [done|].
  rewrite mult_IZR, <- pow_IZR.
  assert (2 ^ k <> 0) by (apply pow_nonzero; lra). field. done.
Qed.

(** The enclosure of [random] read off a ready box. *)
Lemma random_box (seed : R) (index : nat) (N : Z) (k : nat) :
  seed * 9.898 + INR index * 78.233 = IZR N / 1000 ->
  boxReady N k = true ->
  let Q := (SC * 10000)%Z in
  let M := ((scaledBox N k).1 / Q)%Z in
  IZR ((scaledBox N k).1 - M * Q) / IZR Q <= random seed index
    <= IZR ((scaledBox N k).2 - M * Q) / IZR Q.
Proof.
  intros Hx Hready Q M. pose proof IZR_SC_pos as HS.
  unfold boxReady in Hready. subst M.
  destruct (scaledBox N k) as [lo hi] eqn:Eb. cbn [fst snd]. fold Q in Hready |- *.
  apply andb_prop in Hready as [Hready Hhi]. apply andb_prop in Hready as [H0 H1].
  apply Z.leb_le in H0, H1. apply Z.ltb_lt in Hhi.
  unfold scaledBox in Eb. injection Eb as <- <-.
  destruct (sinBox_sound N k (conj H0 H1)) as [[Hs1 Hs2] _].
  assert (0 < Q)%Z as HQ by (unfold Q; pose proof SC_pos; lia).
  assert (0 < IZR Q) as HQ' by (by apply IZR_lt).
  assert (IZR Q = IZR SC * 10000) as EQ by (unfold Q; by rewrite mult_IZR).
  unfold random. rewrite Hx.
  set (a := sin (IZR N / 1000) * 43758.5453).
  set (lo := (slo (sinBox N k) * 437585453)%Z) in *.
  set (hi := (shi (sinBox N k) * 437585453)%Z) in *.
  assert (IZR lo / IZR Q <= a <= IZR hi / IZR Q) as [Ha1 Ha2].
  { unfold a, lo, hi. rewrite !mult_IZR, EQ. split.
    - apply div_le; [lra|]. apply div_le_inv in Hs1; [|done]. nra.
    - apply le_div; [lra|]. apply le_div_inv in Hs2; [|done]. nra. }
  set (M := (lo / Q)%Z) in *.
  assert (IZR M <= IZR lo / IZR Q) as HM1 by (by apply IZR_fdiv).
  assert (IZR hi / IZR Q < IZR M + 1) as HM2.
  { apply (Rmult_lt_reg_r (IZR Q)); [done|]. rewrite div_unfold by done.
    change 1 with (IZR 1). rewrite <- plus_IZR, <- mult_IZR. by apply IZR_lt. }
  assert (Math_floor a = M) as ->.
  { symmetry. apply Int_part_spec. lra. }
  rewrite !minus_IZR, !mult_IZR. split.
  - apply div_le; [done|]. apply div_le_inv in Ha1; [|done]. nra.
  - apply le_div; [done|]. apply le_div_inv in Ha2; [|done]. nra.
Qed.

Lemma random_upto_sound (seed : R) (index : nat) (N : Z) (k : nat) (num den : Z) :
  seed * 9.898 + INR index * 78.233 = IZR N / 1000 ->
  random_upto N k num den = true ->
  random seed index <= IZR num / IZR den.
Proof.
  intros Hx Hc. unfold random_upto in Hc.
  pose proof (random_box seed index N k Hx) as Hbox.
  destruct (scaledBox N k) as [lo hi]. cbn [fst snd] in Hbox.
  apply andb_prop in Hc as [Hc Hle]. apply andb_prop in Hc as [Hready Hden].
  destruct (Hbox Hready) as [_ Hup]. apply Z.ltb_lt in Hden. apply Z.leb_le in Hle.
  assert (0 < SC * 10000)%Z as HQ by (pose proof SC_pos; lia).
  assert (0 < IZR (SC * 10000)) as HQ' by (by apply IZR_lt).
  assert (0 < IZR den) as Hden' by (by apply IZR_lt).
  eapply Rle_trans; [exact Hup|].
  apply div_le; [done|]. apply (Rmult_le_reg_r (IZR den)); [done|].
  replace (IZR num / IZR den * IZR (SC * 10000) * IZR den)
    with (IZR num * IZR (SC * 10000)) by (field; lra).
  rewrite <- !mult_IZR. by apply IZR_le.
Qed.

Lemma random_from_sound (seed : R) (index : nat) (N : Z) (k : nat) (num den : Z) :
  seed * 9.898 + INR index * 78.233 = IZR N / 1000 ->
  random_from N k num den = true ->
  IZR num / IZR den <= random seed index.
Proof.
  intros Hx Hc. unfold random_from in Hc.
  pose proof (random_box seed index N k Hx) as Hbox.
  destruct (scaledBox N k) as [lo hi]. cbn [fst snd] in Hbox.
  apply andb_prop in Hc as [Hc Hle]. apply andb_prop in Hc as [Hready Hden].
  destruct (Hbox Hready) as [Hlow _]. apply Z.ltb_lt in Hden. apply Z.leb_le in Hle.
  assert (0 < SC * 10000)%Z as HQ by (pose proof SC_pos; lia).
  assert (0 < IZR (SC * 10000)) as HQ' by (by apply IZR_lt).
  assert (0 < IZR den) as Hden' by (by apply IZR_lt).
  eapply Rle_trans; [|exact Hlow].
  apply le_div; [done|]. apply (Rmult_le_reg_r (IZR den)); [done|].
  replace (IZR num / IZR den * IZR (SC * 10000) * IZR den)
    with (IZR num * IZR (SC * 10000)) by (field; lra).
  rewrite <- !mult_IZR. by apply IZR_le.
Qed.

End Enclosures.

(** ** Abstract pieces *)

Section Halo.
Local Open Scope R_scope.

Lemma segments_range (seed : R) : (12 <= segments seed <= 19)%Z.
Proof.
  unfold segments, Math_floor.
  destruct (random_range seed 0) as [H0 H1].
  destruct (base_Int_part (random seed 0 * 8)) as [Hlo Hhi].
  assert (-1 < Int_part (random seed 0 * 8) < 8)%Z; [|lia].
  split; apply lt_IZR; lra.
Qed.

Lemma clamp_range (lo hi v : R) : lo <= hi -> lo <= Rmax lo (Rmin hi v) <= hi.
Proof.
  intros H. split; [apply Rmax_l|].
  apply Rmax_lub; [done|apply Rmin_l].
Qed.

Lemma clamp_le (lo hi v u : R) : lo <= u -> v <= u -> Rmax lo (Rmin hi v) <= u.
Proof.
  intros H1 H2. apply Rmax_lub; [done|]. eapply Rle_trans; [apply Rmin_r|done].
Qed.

Variables (x y w h seed : R).
Hypotheses (Hw : 0 <= w) (Hh : 0 <= h).

Lemma abstractPoint_in_halo (i : nat) : in_halo x y w h (abstractPoint x y w h seed i).
Proof.
  unfold abstractPoint, in_halo. cbn [px py].
  split;
    match goal with
    | |- _ <= Rmax ?lo (Rmin ?hi ?v) <= _ => destruct (clamp_range lo hi v); lra
    end.
Qed.

Lemma in_halo_widen (p : Point) : in_halo x y w h p -> in_kink_halo x y w h p.
Proof.
  unfold in_halo, in_kink_halo. intros [[? ?] [? ?]].
  assert (0 <= Rmin w h) by (by apply Rmin_glb). lra.
Qed.

Lemma kink_in_kink_halo (i : nat) (prevPoint currentPoint : Point) (c : PathCmd) (p : Point) :
  in_halo x y w h prevPoint -> in_halo x y w h currentPoint ->
  c ∈ kink w h seed i prevPoint currentPoint -> p ∈ cmd_points c ->
  in_kink_halo x y w h p.
Proof.
  intros [[? ?] [? ?]] [[? ?] [? ?]]. unfold kink.
  destruct (Rgtb _ _); [|by intros ?%elem_of_nil].
  intros ->%list_elem_of_singleton ->%list_elem_of_singleton.
  unfold in_kink_halo. cbn [px py].
  assert (0 <= Rmin w h) by (by apply Rmin_glb).
  pose proof (random_range seed (i * 4 + 15)).
  pose proof (random_range seed (i * 4 + 16)).
  split; split; nra.
Qed.

Lemma abstractSegments_in_kink_halo (rest : list Point) : forall (i : nat) (prevPoint : Point),
  in_halo x y w h prevPoint -> Forall (in_halo x y w h) rest ->
  forall c p, c ∈ abstractSegments w h seed i prevPoint rest -> p ∈ cmd_points c ->
    in_kink_halo x y w h p.
Proof.
  induction rest as [|cur rest IH]; intros i prev Hprev Hrest c p; cbn [abstractSegments].
  - by intros ?%elem_of_nil.
  - apply Forall_cons in Hrest as [Hcur Hrest].
    rewrite elem_of_app, elem_of_cons. intros [Hk|[->|Hc]] Hp.
    + exact (kink_in_kink_halo i prev cur c p Hprev Hcur Hk Hp).
    + apply list_elem_of_singleton in Hp as ->. by apply in_halo_widen.
    + exact (IH (S i) cur Hcur Hrest c p Hc Hp).
Qed.

Lemma abstractSegments_visits (rest : list Point) : forall (i : nat) (prevPoint p : Point),
  p ∈ rest -> LineTo p ∈ abstractSegments w h seed i prevPoint rest.
Proof.
  induction rest as [|cur rest IH]; intros i prev p; cbn [abstractSegments].
  - by intros ?%elem_of_nil.
  - rewrite elem_of_app, !elem_of_cons. intros [->|Hp]; [by right; left|].
    right; right. by apply IH.
Qed.

End Halo.

(** C5 (amended).  For a rectangle of non-negative width and height
    every vertex the point loop pushes lies within the halo
    [[x - 0.1 w, x + 1.1 w] x [y - 0.1 h, y + 1.1 h]], and the path visits
    each of them with [moveTo] or [lineTo]; every point of the path, the
    kinks included, lies within the halo widened by [0.05 * min w h] on
    each side. *)
Theorem abstract_path_within_halo (x y w h seed : R) :
  (0 <= w)%R -> (0 <= h)%R ->
  Forall (in_halo x y w h) (abstractPoints x y w h seed) /\
  (forall p, p ∈ abstractPoints x y w h seed ->
     MoveTo p ∈ drawAbstractPuzzlePiece x y w h seed \/
     LineTo p ∈ drawAbstractPuzzlePiece x y w h seed) /\
  (forall c p, c ∈ drawAbstractPuzzlePiece x y w h seed -> p ∈ cmd_points c ->
     in_kink_halo x y w h p).
Proof.
  intros Hw Hh.
  assert (Forall (in_halo x y w h) (abstractPoints x y w h seed)) as Hpts.
  { apply Forall_forall. intros p Hp. unfold abstractPoints in Hp.
    apply list_elem_of_fmap in Hp as (i & -> & _). by apply abstractPoint_in_halo. }
  split; [exact Hpts|]. unfold drawAbstractPuzzlePiece.
  destruct (abstractPoints x y w h seed) as [|p0 rest].
  { split; [intros p Hp|intros c p Hp _]; by apply elem_of_nil in Hp. }
  apply Forall_cons in Hpts as [Hp0 Hrest]. split.
  - intros p [->|Hp]%elem_of_cons; [left; by left|].
    right. right. apply elem_of_app. left. by apply abstractSegments_visits.
  - intros c p. rewrite elem_of_cons, elem_of_app. intros [->|[Hc| ->%list_elem_of_singleton]] Hp.
    + apply list_elem_of_singleton in Hp as ->. by apply in_halo_widen.
    + exact (abstractSegments_in_kink_halo x y w h seed Hw Hh rest 1%nat p0 Hp0 Hrest c p Hc Hp).
    + by apply elem_of_nil in Hp.
Qed.

Lemma abstract_path_within_halo_witness :
  Forall (in_halo 0 0 100 100) (abstractPoints 0 0 100 100 666).
Proof.
  refine (proj1 (abstract_path_within_halo 0 0 100 100 666 _ _)); lra.
Defined.

(** *** A kink outside the halo *)

Section Escape.
Local Open Scope R_scope.

Lemma angle_666 (index : nat) :
  666 * 9.898 + INR index * 78.233 = IZR (666 * 9898 + Z.of_nat index * 78233) / 1000.
Proof. rewrite INR_IZR_INZ, plus_IZR, !mult_IZR. lra. Qed.

Lemma random_666_0 : random 666 0 <= 9 / 100.
Proof. apply (random_upto_sound 666 0 _ 40 9 100 (angle_666 0)). vm_compute. reflexivity. Qed.

Lemma random_666_11 : random 666 11 <= 5 / 100.
Proof. apply (random_upto_sound 666 11 _ 40 5 100 (angle_666 11)). vm_compute. reflexivity. Qed.

Lemma random_666_2 : random 666 2 <= 4 / 100.
Proof. apply (random_upto_sound 666 2 _ 40 4 100 (angle_666 2)). vm_compute. reflexivity. Qed.

Lemma random_666_14 : random 666 14 <= 4 / 100.
Proof. apply (random_upto_sound 666 14 _ 40 4 100 (angle_666 14)). vm_compute. reflexivity. Qed.

Lemma random_666_20 : random 666 20 <= 4 / 100.
Proof. apply (random_upto_sound 666 20 _ 40 4 100 (angle_666 20)). vm_compute. reflexivity. Qed.

Lemma random_666_25 : 74 / 100 <= random 666 25.
Proof. apply (random_from_sound 666 25 _ 40 74 100 (angle_666 25)). vm_compute. reflexivity. Qed.

Lemma Rmin_100 : Rmin 100 100 = 100.
Proof. apply Rmin_left. lra. Qed.

Lemma first_point_low : py (abstractPoint 0 0 100 100 666 0) <= -9.05.
Proof.
  unfold abstractPoint. cbn [px py INR Nat.mul Nat.add].
  replace (0 / IZR (segments 666)) with 0 by (unfold Rdiv; ring).
  rewrite (Rltb_true 0 0.25) by lra. cbn [px py]. unfold padding. rewrite Rmin_100.
  pose proof random_666_0. pose proof random_666_11.
  apply clamp_le; lra.
Qed.

Lemma second_point_low : py (abstractPoint 0 0 100 100 666 1) <= -10.
Proof.
  unfold abstractPoint. cbn [px py INR Nat.mul Nat.add].
  pose proof (segments_range 666) as [Hs _]. apply IZR_le in Hs.
  assert (1 / IZR (segments 666) < 0.25) as Ht.
  { apply (Rmult_lt_reg_r (IZR (segments 666))); [lra|]. rewrite div_unfold by lra. lra. }
  rewrite (Rltb_true _ _ Ht). cbn [px py]. unfold padding. rewrite Rmin_100.
  pose proof random_666_2. pose proof random_666_14.
  apply clamp_le; lra.
Qed.

End Escape.

(** For the 100 by 100 cell at the origin and the seed 666 the path
    contains a kink whose ordinate is below [y - 0.1 * h = -10]. *)
Lemma kink_below_halo :
  exists p, LineTo p ∈ drawAbstractPuzzlePiece 0 0 100 100 666 /\
    (py p < 0 - 0.1 * 100)%R /\ ~ in_halo 0 0 100 100 p.
Proof.
  set (p0 := abstractPoint 0 0 100 100 666 0).
  set (p1 := abstractPoint 0 0 100 100 666 1).
  set (kp := pt ((px p1 + px p0) / 2 + (random 666 (1 * 4 + 15) - 0.5) * Rmin 100 100 * 0.1)
                ((py p1 + py p0) / 2 + (random 666 (1 * 4 + 16) - 0.5) * Rmin 100 100 * 0.1)).
  assert (py kp < 0 - 0.1 * 100)%R as Hlow.
  { unfold kp. cbn [py Nat.mul Nat.add]. rewrite Rmin_100.
    assert (py p0 <= -9.05)%R by exact first_point_low.
    assert (py p1 <= -10)%R by exact second_point_low.
    pose proof random_666_20. lra. }
  exists kp. split; [|split; [exact Hlow|]].
  - unfold drawAbstractPuzzlePiece, abstractPoints.
    pose proof (segments_range 666) as [Hs _].
    destruct (Z.to_nat (segments 666)) as [|[|m]] eqn:E; [lia..|].
    cbn [seq map]. fold p0 p1. cbn [abstractSegments].
    assert (kink 100 100 666 1 p0 p1 = [LineTo kp]) as ->.
    { unfold kink. rewrite Rgtb_true; [done|]. cbn [Nat.mul Nat.add].
      pose proof random_666_25. lra. }
    cbn [app]. apply elem_of_cons. right. apply elem_of_cons. by left.
  - unfold in_halo. intros [_ [Hy _]]. lra.
Qed.

(** The first piece of a 3 by 3 abstract puzzle over a 300 by 300 image,
    generated with the seed 665, is that piece. *)
Lemma first_piece_of_square shapeSeed grid :
  piecePath shapeSeed squareImage abstractNine (Some 665%R) grid 0 0
  = Some (drawAbstractPuzzlePiece 0 0 100 100 666).
Proof.
  unfold piecePath. cbn [pieceStyle abstractNine columns].
  assert (width squareImage abstractNine = 300%R) as Ew.
  { unfold width, targetSize, scaledSize.
    cbn [outputQuality abstractNine qualitySettings img_width img_height squareImage].
    rewrite !Rgtb_false by lra. done. }
  assert (height squareImage abstractNine = 300%R) as Eh.
  { unfold height, targetSize, scaledSize.
    cbn [outputQuality abstractNine qualitySettings img_width img_height squareImage].
    rewrite !Rgtb_false by lra. done. }
  assert (pieceWidth squareImage abstractNine = 100%R) as ->.
  { unfold pieceWidth. rewrite Ew. cbn [columns abstractNine INR]. lra. }
  assert (pieceHeight squareImage abstractNine = 100%R) as ->.
  { unfold pieceHeight. rewrite Eh. cbn [rows abstractNine INR]. lra. }
  rewrite usedShapeSeed_given by lra. cbn [INR].
  do 2 f_equal; lra.
Qed.

Lemma first_stroke_of_square :
  exists g n',
    generatePuzzles 0 squareImage abstractNine (Some 665%R) 0 sampleOracle 0
      = (Produced g, n') /\
    cv_ops (completeCanvas g) !! 1%nat
      = Some (Stroke (borderStyle abstractNine) (drawAbstractPuzzlePiece 0 0 100 100 666)).
Proof.
  destruct (generatePuzzles_no_missing 0 squareImage abstractNine (Some 665%R) 0 sampleOracle 0)
    as (g & n' & Hg & _); [reflexivity|].
  exists g, n'. split; [exact Hg|].
  destruct (generatePuzzles_inv _ _ _ _ _ _ _ _ _ Hg)
    as (grid & n1 & indices & cc & hc & mc & _ & Hc & _ & _ & _ & ->).
  cbn [completeCanvas cv_ops].
  pose proof (strokeBorders_lookup _ _ _ _ _ _ _ 0%nat 0%nat Hc) as Hl.
  rewrite first_piece_of_square in Hl. apply Hl; cbn; lia.
Qed.

(** C5 (as stated, refuted).  Generating a 3 by 3 abstract puzzle from a
    300 by 300 image with the seed 665 strokes, for the piece at row 0
    and column 0 (cell rectangle [(0, 0, 100, 100)], per-piece seed 666),
    a path with a kink whose ordinate is below [y - 0.1 * h = -10]: a
    point of an emitted path outside the halo of its cell. *)
Lemma kink_escapes_halo :
  exists g n' p,
    generatePuzzles 0 squareImage abstractNine (Some 665%R) 0 sampleOracle 0
      = (Produced g, n') /\
    cv_ops (completeCanvas g) !! 1%nat
      = Some (Stroke (borderStyle abstractNine) (drawAbstractPuzzlePiece 0 0 100 100 666)) /\
    LineTo p ∈ drawAbstractPuzzlePiece 0 0 100 100 666 /\
    (py p < 0 - 0.1 * 100)%R /\ ~ in_halo 0 0 100 100 p.
Proof.
  destruct first_stroke_of_square as (g & n' & Hg & Hstroke).
  destruct kink_below_halo as (p & Hin & Hlow & Hout).
  by exists g, n', p.
Qed.

(** * Further properties of the code *)

(** ** What the consistency pass keeps *)

Lemma keeps_refl g : keeps g g.
Proof. intros r c. destruct (cell g r c); constructor. by repeat split. Qed.

Lemma keeps_trans g1 g2 g3 : keeps g1 g2 -> keeps g2 g3 -> keeps g1 g3.
Proof.
  intros H1 H2 r c. specialize (H1 r c). specialize (H2 r c).
  destruct (cell g1 r c) as [a|], (cell g2 r c) as [b|], (cell g3 r c) as [d|];
    inversion H1 as [? ? K1|]; inversion H2 as [? ? K2|]; constructor.
  destruct K1 as (?&?&Ht1&Hl1), K2 as (?&?&Ht2&Hl2).
  repeat split; try congruence.
  - intros Hr. rewrite (Ht2 Hr). by apply Ht1.
  - intros Hc. rewrite (Hl2 Hc). by apply Hl1.
Qed.

Lemma write_keeps f r0 c0 g g' :
  (forall t, keeps_cell r0 c0 t (f t)) -> write f r0 c0 g = Some g' -> keeps g g'.
Proof.
  intros Hf Hw r c. rewrite (cell_write _ _ _ _ _ r c Hw).
  destruct (cell g r c) as [t|]; destruct (decide (r0 = r /\ c0 = c)) as [[<- <-]|];
    constructor; [apply Hf|by repeat split].
Qed.

Lemma propagateCell_keeps rows columns r0 c0 g g' :
  propagateCell rows columns r0 c0 g = Some g' -> keeps g g'.
Proof.
  unfold propagateCell. destruct (cell g r0 c0) as [piece|]; [|done]. cbn [mbind option_bind].
  destruct (if (c0 <? columns - 1)%nat then _ else _) as [g1|] eqn:E1; [|done].
  cbn [mbind option_bind]. destruct (cell g1 r0 c0) as [piece'|]; [|done].
  cbn [mbind option_bind]. intros E2.
  apply keeps_trans with g1.
  - destruct (c0 <? columns - 1)%nat; [|injection E1 as <-; apply keeps_refl].
    eapply write_keeps; [|exact E1]. intros t. repeat split; cbn; try done. lia.
  - destruct (r0 <? rows - 1)%nat; [|injection E2 as <-; apply keeps_refl].
    eapply write_keeps; [|exact E2]. intros t. repeat split; cbn; try done. lia.
Qed.

Lemma foldM_keeps {A} (f : A -> Grid -> option Grid) (l : list A) :
  (forall a g g', f a g = Some g' -> keeps g g') ->
  forall g g', foldM f l g = Some g' -> keeps g g'.
Proof.
  intros Hf. induction l as [|a l IH]; intros g g'; cbn [foldM].
  - intros [= <-]. apply keeps_refl.
  - destruct (f a g) as [g1|] eqn:E; [|done]. cbn [mbind option_bind]. intros E'.
    eapply keeps_trans; [by eapply Hf|by apply IH].
Qed.

Lemma ensureConsistency_keeps rows columns g g' :
  ensureConsistency rows columns g = Some g' -> keeps g g'.
Proof.
  apply foldM_keeps. intros r g1 g2. apply foldM_keeps.
  intros c g3 g4. apply propagateCell_keeps.
Qed.

(** X1.  The grid [piecePattern] returns, read off the coins of the
    initialisation pass alone: every cell keeps the [right] and [bottom]
    flags the coins gave it (with the rim already forced to [false]); its
    [top] flag is the negation of the initial [bottom] flag of the cell
    above, its [left] flag the negation of the initial [right] flag of the
    cell to its left; [top] in row 0 and [left] in column 0 are [false].
    So the random [top] and [left] draws of inner cells never reach the
    result. *)
Theorem propagation_closed_form (rows columns : nat) (omega : Oracle) (n : nat) :
  let g0 := (initPattern rows columns omega n).1 in
  exists g, (piecePattern rows columns omega n).1 = Some g /\
    forall r c t, cell g r c = Some t ->
      exists t0, cell g0 r c = Some t0 /\
        Tabs.right t = Tabs.right t0 /\ Tabs.bottom t = Tabs.bottom t0 /\
        (forall a0, cell g0 (r - 1) c = Some a0 -> (0 < r)%nat ->
           Tabs.top t = negb (Tabs.bottom a0)) /\
        (forall a0, cell g0 r (c - 1) = Some a0 -> (0 < c)%nat ->
           Tabs.left t = negb (Tabs.right a0)) /\
        (r = 0%nat -> Tabs.top t = false) /\ (c = 0%nat -> Tabs.left t = false).
Proof.
  intros g0.
  destruct (piecePattern_Some rows columns omega n) as (g & E & Hs & Hb & Hh & Hv).
  exists g. split; [exact E|].
  assert (ensureConsistency rows columns g0 = Some g) as Hrun.
  { unfold piecePattern, bind in E. subst g0.
    destruct (initPattern rows columns omega n) as [g1 n1]. exact E. }
  pose proof (ensureConsistency_keeps _ _ _ _ Hrun) as Hk.
  intros r c t Ht. pose proof (Hk r c) as Hrc. rewrite Ht in Hrc.
  inversion Hrc as [t0 t' (Hr & Hbo & _ & _) E0|]; subst.
  exists t0. split; [done|]. split; [done|]. split; [done|].
  destruct (Hb r c t Ht) as (B1 & _ & _ & B4).
  repeat split; try done.
  - intros a0 Ha0 Hpos. pose proof (Hk (r - 1)%nat c) as Hup. rewrite Ha0 in Hup.
    inversion Hup as [a0' a (_ & Hbo' & _ & _) Ea0 Ea|]; subst.
    symmetry in Ea. replace r with (r - 1 + 1)%nat in Ht by lia.
    destruct (Hv _ _ _ _ Ea Ht) as [_ ->]. by rewrite Hbo'.
  - intros a0 Ha0 Hpos. pose proof (Hk r (c - 1)%nat) as Hl. rewrite Ha0 in Hl.
    inversion Hl as [a0' a (Hri' & _ & _ & _) Ea0 Ea|]; subst.
    symmetry in Ea. replace c with (c - 1 + 1)%nat in Ht by lia.
    destruct (Hh _ _ _ _ Ea Ht) as [_ ->]. by rewrite Hri'.
Qed.

(** ** The consistency pass on its own result *)

Lemma alter_fix {A} (f : A -> A) (l : list A) (i : nat) (x : A) :
  l !! i = Some x -> f x = x -> alter f i l = l.
Proof.
  intros Hl Hf. apply list_eq. intros j. destruct (decide (i = j)) as [<-|Hne].
  - rewrite list_lookup_alter_eq, Hl. cbn. by rewrite Hf.
  - by rewrite list_lookup_alter_ne.
Qed.

Lemma write_fix f r c g t :
  cell g r c = Some t -> f t = t -> write f r c g = Some g.
Proof.
  intros Hc Hf. unfold write. rewrite Hc. f_equal.
  unfold cell in Hc. destruct (g !! r) as [row|] eqn:Er; [|done]. cbn in Hc.
  apply (alter_fix _ _ _ row Er). by apply (alter_fix _ _ _ t Hc).
Qed.

Lemma propagateCell_fix rows columns r0 c0 g :
  consistent rows columns g -> (r0 < rows)%nat -> (c0 < columns)%nat ->
  propagateCell rows columns r0 c0 g = Some g.
Proof.
  intros (Hs & _ & Hh & Hv) Hr Hc. unfold propagateCell.
  destruct (proj2 (Hs r0 c0) (conj Hr Hc)) as [piece Hp]. rewrite Hp.
  cbn [mbind option_bind].
  assert ((if (c0 <? columns - 1)%nat
           then write (set_left (negb (Tabs.right piece))) r0 (c0 + 1) g
           else Some g) = Some g) as ->.
  { destruct (Nat.ltb_spec c0 (columns - 1)); [|done].
    destruct (proj2 (Hs r0 (c0 + 1)%nat)) as [b Hb]; [lia|].
    apply (write_fix _ _ _ _ b Hb). destruct (Hh _ _ _ _ Hp Hb) as [_ E].
    destruct b; cbn in *. by rewrite E. }
  cbn [mbind option_bind]. rewrite Hp. cbn [mbind option_bind].
  destruct (Nat.ltb_spec r0 (rows - 1)); [|done].
  destruct (proj2 (Hs (r0 + 1)%nat c0)) as [b Hb]; [lia|].
  apply (write_fix _ _ _ _ b Hb). destruct (Hv _ _ _ _ Hp Hb) as [_ E].
  destruct b; cbn in *. by rewrite E.
Qed.

Lemma foldM_fix {A S} (f : A -> S -> option S) (l : list A) (s : S) :
  (forall a, a ∈ l -> f a s = Some s) -> foldM f l s = Some s.
Proof.
  induction l as [|a l IH]; intros Hf; cbn [foldM]; [done|].
  rewrite Hf by (by left). cbn [mbind option_bind]. apply IH.
  intros b Hb. apply Hf. by right.
Qed.

(** X2.  The consistency pass is idempotent on what [piecePattern]
    returns: running the two nested loops of the pass once more over the
    returned grid raises nothing and leaves every cell as it is. *)
Theorem propagation_idempotent (rows columns : nat) (omega : Oracle) (n : nat) (g : Grid) :
  (piecePattern rows columns omega n).1 = Some g ->
  ensureConsistency rows columns g = Some g.
Proof.
  intros E. destruct (piecePattern_Some rows columns omega n) as (g' & E' & Hc).
  rewrite E in E'. injection E' as <-.
  apply foldM_fix. intros r [_ Hr]%elem_of_seq.
  apply foldM_fix. intros c [_ Hcol]%elem_of_seq.
  apply propagateCell_fix; [done|lia..].
Qed.

Lemma propagation_idempotent_witness :
  exists g, (piecePattern 3 4 sampleOracle 0).1 = Some g /\ ensureConsistency 3 4 g = Some g.
Proof.
  destruct (piecePattern_Some 3 4 sampleOracle 0) as (g & E & _).
  exists g. split; [exact E|]. exact (propagation_idempotent 3 4 sampleOracle 0 g E).
Defined.

(** ** How many tabs a classic piece carries *)

Section Bumps.
Local Open Scope R_scope.
Variables (width height x y w h : R) (tabs : Tabs.t).

Lemma topEdge_bumped : 0 < y -> curveCount (topEdge x y w h tabs) = 3%nat.
Proof.
  intros H. unfold topEdge. rewrite (Rgtb_true _ _ H). by destruct (Tabs.top tabs).
Qed.

Lemma rightEdge_bumped : x + w < width -> curveCount (rightEdge width x y w h tabs) = 3%nat.
Proof.
  intros H. unfold rightEdge. rewrite (Rltb_true _ _ H). by destruct (Tabs.right tabs).
Qed.

Lemma bottomEdge_bumped : y + h < height -> curveCount (bottomEdge height x y w h tabs) = 3%nat.
Proof.
  intros H. unfold bottomEdge. rewrite (Rltb_true _ _ H). by destruct (Tabs.bottom tabs).
Qed.

Lemma leftEdge_bumped : 0 < x -> curveCount (leftEdge x y w h tabs) = 3%nat.
Proof.
  intros H. unfold leftEdge. rewrite (Rgtb_true _ _ H). by destruct (Tabs.left tabs).
Qed.

Lemma curveCount_app (p q : Path) : curveCount (p ++ q) = (curveCount p + curveCount q)%nat.
Proof. unfold curveCount. by rewrite List.filter_app, length_app. Qed.

Lemma curveCount_piece :
  curveCount (drawRealisticPuzzlePiece width height x y w h tabs)
  = (curveCount (topEdge x y w h tabs) + curveCount (rightEdge width x y w h tabs)
     + curveCount (bottomEdge height x y w h tabs) + curveCount (leftEdge x y w h tabs))%nat.
Proof.
  unfold drawRealisticPuzzlePiece.
  change (MoveTo (pt x y) :: ?p) with ([MoveTo (pt x y)] ++ p).
  rewrite !curveCount_app. cbn. lia.
Qed.

End Bumps.

(** ** The seeds of abstract pieces *)

(** X5.  In the Abstract style the piece at [(row, col)] is drawn by
    [drawAbstractPuzzlePiece] with the seed
    [used + row * columns + col + 1], and inside the grid this seed is
    injective in the position: two pieces get the same seed only if they
    are the same piece. *)
Theorem piece_seeds_distinct shapeSeed img s cur grid (row col row' col' : nat) :
  pieceStyle s = Abstract -> (col < columns s)%nat -> (col' < columns s)%nat ->
  let seed r c := pieceSeed (usedShapeSeed cur shapeSeed) (columns s) r c in
  piecePath shapeSeed img s cur grid row col
    = Some (drawAbstractPuzzlePiece (INR col * pieceWidth img s) (INR row * pieceHeight img s)
              (pieceWidth img s) (pieceHeight img s) (seed row col)) /\
  (seed row col = seed row' col' -> row = row' /\ col = col').
Proof.
  intros Hst Hc Hc' seed. split.
  - unfold piecePath. by rewrite Hst.
  - unfold seed, pieceSeed. intros E.
    assert (INR (row * columns s + col) = INR (row' * columns s + col')) as E'.
    { rewrite !plus_INR, !mult_INR. lra. }
    apply INR_eq in E'.
    assert (row = row') as -> by nia. split; [done|lia].
Qed.

Lemma piece_seeds_distinct_witness :
  pieceSeed (usedShapeSeed (Some 42%R) 0) (columns abstractSettings) 0 2
  <> pieceSeed (usedShapeSeed (Some 42%R) 0) (columns abstractSettings) 1 0.
Proof.
  assert (2 < columns abstractSettings)%nat as H2 by (cbn; lia).
  assert (0 < columns abstractSettings)%nat as H0 by (cbn; lia).
  intros E.
  destruct (proj2 (piece_seeds_distinct 0 sampleImage abstractSettings (Some 42%R) [] 0 2 1 0
                     eq_refl H2 H0) E) as [H _].
  discriminate H.
Defined.

(** ** The shape of an abstract path *)

Section AbstractShape.
Variables (x y w h seed : R).




End AbstractShape.


(** ** More on the quality tiers *)

Section ScalingMore.
Local Open Scope R_scope.

Lemma scaledSize_within q iw ih mw mh :
  qualitySettings q = Some (mw, mh) -> iw <= mw -> ih <= mh ->
  scaledSize q iw ih = (iw, ih).
Proof.
  intros Eq Hw Hh. unfold scaledSize. rewrite Eq.
  by rewrite (Rgtb_false iw mw Hw), (Rgtb_false ih mh Hh).
Qed.

Lemma scaledSize_over q iw ih mw mh :
  qualitySettings q = Some (mw, mh) -> (mw < iw \/ mh < ih) ->
  scaledSize q iw ih = (iw * Rmin (mw / iw) (mh / ih), ih * Rmin (mw / iw) (mh / ih)).
Proof.
  intros Eq Hbig. unfold scaledSize. rewrite Eq.
  destruct Hbig as [H|H].
  - by rewrite (Rgtb_true iw mw H).
  - rewrite (Rgtb_true ih mh H). by rewrite orb_true_r.
Qed.

(** Fitting into a larger box never gives a smaller result. *)
Lemma fit_monotone (iw ih mw1 mh1 mw2 mh2 : R) :
  0 < iw -> 0 < ih -> 0 < mw1 -> 0 < mh1 -> mw1 <= mw2 -> mh1 <= mh2 ->
  Rmin (mw1 / iw) (mh1 / ih) <= Rmin (mw2 / iw) (mh2 / ih).
Proof.
  intros. apply Rmin_glb.
  - eapply Rle_trans; [apply Rmin_l|]. apply Rmult_le_compat_r; [|lra].
    left. by apply Rinv_0_lt_compat.
  - eapply Rle_trans; [apply Rmin_r|]. apply Rmult_le_compat_r; [|lra].
    left. by apply Rinv_0_lt_compat.
Qed.

Lemma scaledSize_monotone q1 q2 iw ih mw1 mh1 mw2 mh2 :
  0 < iw -> 0 < ih ->
  qualitySettings q1 = Some (mw1, mh1) -> qualitySettings q2 = Some (mw2, mh2) ->
  mw1 <= mw2 -> mh1 <= mh2 ->
  (scaledSize q1 iw ih).1 <= (scaledSize q2 iw ih).1 /\
  (scaledSize q1 iw ih).2 <= (scaledSize q2 iw ih).2.
Proof.
  intros Hiw Hih E1 E2 Hmw Hmh.
  destruct (qualitySettings_pos q1 mw1 mh1 E1) as [? ?].
  destruct (qualitySettings_pos q2 mw2 mh2 E2) as [? ?].
  pose proof (fit_monotone iw ih mw1 mh1 mw2 mh2) as Hfit.
  destruct (Rlt_dec mw1 iw) as [B1|B1]; [|destruct (Rlt_dec mh1 ih) as [B1'|B1']].
  3: { rewrite (scaledSize_within q1 iw ih mw1 mh1 E1), (scaledSize_within q2 iw ih mw2 mh2 E2)
         by lra. cbn [fst snd]. lra. }
  all: assert (mw1 < iw \/ mh1 < ih) as Hbig1 by tauto.
  all: rewrite (scaledSize_over q1 iw ih mw1 mh1 E1 Hbig1).
  all: destruct (scale_down iw ih mw1 mh1) as ([? ?] & _); try done.
  all: destruct (Rlt_dec mw2 iw) as [B2|B2]; [|destruct (Rlt_dec mh2 ih) as [B2'|B2']].
  all: try (rewrite (scaledSize_over q2 iw ih mw2 mh2 E2) by tauto; cbn [fst snd];
            split; apply Rmult_le_compat_l; try lra; apply Hfit; lra).
  all: rewrite (scaledSize_within q2 iw ih mw2 mh2 E2) by lra; cbn [fst snd]; nra.
Qed.

Lemma scaledSize_original iw ih : scaledSize Original iw ih = (iw, ih).
Proof. reflexivity. Qed.

End ScalingMore.

(** X8.  The tiers are ordered: for a source with positive dimensions the
    scaled width and the scaled height never decrease from Fast to
    Standard to High to Original. *)
Theorem tiers_monotone (iw ih : R) :
  (0 < iw)%R -> (0 < ih)%R ->
  let size q := scaledSize q iw ih in
  ((size Fast).1 <= (size Standard).1 <= (size High).1 /\ (size High).1 <= (size Original).1 /\
   (size Fast).2 <= (size Standard).2 <= (size High).2 /\ (size High).2 <= (size Original).2)%R.
Proof.
  intros Hiw Hih size. subst size. cbn beta.
  destruct (scaledSize_monotone Fast Standard iw ih 800 600 1280 720) as [? ?];
    [done|done|done|done|lra|lra|].
  destruct (scaledSize_monotone Standard High iw ih 1280 720 1920 1080) as [? ?];
    [done|done|done|done|lra|lra|].
  pose proof (scaledSize_spec High iw ih Hiw Hih) as Hs.
  rewrite scaledSize_original. destruct (scaledSize High iw ih) as [w h].
  cbn [fst snd] in *. destruct Hs as (? & ? & _). repeat split; lra.
Qed.

Lemma tiers_monotone_witness :
  ((scaledSize Fast 1600 1200).1 <= (scaledSize High 1600 1200).1)%R.
Proof.
  pose proof (tiers_monotone 1600 1200 ltac:(lra) ltac:(lra)) as H. cbn zeta beta in H. lra.
Defined.

(** ** When the selection loop can finish *)

Lemma bounded_length (l : list nat) (bound : nat) :
  NoDup l -> (forall i, i ∈ l -> (i < bound)%nat) -> (length l <= bound)%nat.
Proof.
  intros Hnd Hb. rewrite <- (length_seq bound 0). apply submseteq_length.
  apply NoDup_submseteq; [done|]. intros i Hi. apply elem_of_seq. specialize (Hb i Hi). lia.
Qed.

Lemma missingLoop_starved totalPieces missingCount omega (Hom : in_unit omega) fuel :
  forall acc n,
  (totalPieces < missingCount)%nat -> (0 < totalPieces)%nat ->
  NoDup acc -> (forall i, i ∈ acc -> (i < totalPieces)%nat) ->
  (missingLoop fuel totalPieces missingCount acc omega n).1 = None.
Proof.
  induction fuel as [|fuel IH]; intros acc n Hover Hpos Hnd Hr; cbn [missingLoop];
    pose proof (bounded_length acc totalPieces Hnd Hr);
    (destruct (Nat.ltb_spec (length acc) missingCount); [|lia]).
  - done.
  - unfold bind, Math_random. apply IH; [done|done|by apply set_add_NoDup|].
    intros i [->|Hi]%set_add_elem; [|by apply Hr].
    apply drawIndex_lt; [apply Hom..|done].
Qed.

Lemma cyclingOracle_in_unit totalPieces : (0 < totalPieces)%nat -> in_unit (cyclingOracle totalPieces).
Proof.
  intros Hpos n. unfold cyclingOracle, Qle, Qlt. cbn.
  pose proof (Nat.mod_upper_bound n totalPieces). lia.
Qed.

Lemma cyclingOracle_index totalPieces n :
  (0 < totalPieces)%nat ->
  drawIndex totalPieces (cyclingOracle totalPieces n) = (n mod totalPieces)%nat.
Proof.
  intros Hpos. unfold drawIndex, cyclingOracle, Qfloor, Qmult, inject_Z. cbn [Qnum Qden].
  rewrite Pos.mul_1_r.
  replace (Z.pos (Pos.of_succ_nat (totalPieces - 1))) with (Z.of_nat totalPieces) by lia.
  rewrite Z.div_mul by lia. apply Nat2Z.id.
Qed.

Lemma cyclingOracle_covers totalPieces n j :
  (j < totalPieces)%nat ->
  j ∈ draws (cyclingOracle totalPieces) n totalPieces totalPieces.
Proof.
  intros Hj. unfold draws. apply list_elem_of_fmap.
  exists ((j + totalPieces - n mod totalPieces) mod totalPieces)%nat. split.
  - rewrite cyclingOracle_index by lia.
    pose proof (Nat.mod_upper_bound n totalPieces ltac:(lia)) as Hr.
    rewrite Nat.Div0.add_mod_idemp_r.
    pose proof (Nat.div_mod_eq n totalPieces) as Hn.
    replace (n + (j + totalPieces - n mod totalPieces))%nat
      with (j + (n / totalPieces + 1) * totalPieces)%nat by nia.
    rewrite Nat.Div0.mod_add. symmetry. by apply Nat.mod_small.
  - apply elem_of_seq. pose proof (Nat.mod_upper_bound (j + totalPieces - n mod totalPieces)
      totalPieces ltac:(lia)). lia.
Qed.

Lemma cyclingOracle_enough (s : PuzzleSettings) n :
  (missingCountOf s <= rows s * columns s)%nat ->
  enoughDraws s (rows s * columns s) (cyclingOracle (rows s * columns s)) n.
Proof.
  intros Hle. unfold enoughDraws.
  set (T := (rows s * columns s)%nat) in *.
  set (n1 := (piecePattern (rows s) (columns s) (cyclingOracle T) n).2).
  eapply Nat.le_trans; [exact Hle|].
  rewrite <- (length_seq T 0) at 1.
  rewrite <- (size_list_to_set (C := gset nat) (seq 0 T)) by apply NoDup_seq.
  apply subseteq_size. intros j. rewrite !elem_of_list_to_set, elem_of_seq.
  intros [_ Hj]. apply cyclingOracle_covers. lia.
Qed.

(** X9.  Exactly when the call can finish.  Some sequence of
    [Math.random] values in [[0, 1)] makes [generatePuzzles] produce its
    result if and only if [missingCount <= rows * columns] (which a
    percentage of at most 100 guarantees).  With more pieces to remove
    than there are pieces, the [while] loop never fills its set, whatever
    the draws: the call does not return. *)
Theorem generation_finishes_iff (shapeSeed : R) (img : Image) (s : PuzzleSettings)
    (cur : option R) (n : nat) :
  (exists omega fuel g n', in_unit omega /\
     generatePuzzles shapeSeed img s cur fuel omega n = (Produced g, n'))
  <-> (missingCountOf s <= rows s * columns s)%nat.
Proof.
  split.
  - intros (omega & fuel & g & n' & Hom & Hg).
    destruct (Nat.le_gt_cases (missingCountOf s) (rows s * columns s)) as [|Hover]; [done|].
    exfalso.
    destruct (generatePuzzles_inv _ _ _ _ _ _ _ _ _ Hg)
      as (grid & n1 & indices & cc & hc & mc & _ & _ & Hm & _).
    assert (0 < rows s * columns s)%nat as Hpos.
    { destruct (Nat.eq_dec (rows s * columns s) 0) as [E|]; [|lia].
      unfold missingCountOf in Hover. rewrite E in Hover. cbn in Hover. lia. }
    assert (forall i : nat, i ∈ @nil nat -> (i < rows s * columns s)%nat) as Hnone
      by (by intros i ?%elem_of_nil).
    pose proof (missingLoop_starved _ _ omega Hom fuel [] n1 Hover Hpos NoDup_nil_2 Hnone) as Hs.
    rewrite Hm in Hs. discriminate Hs.
  - intros Hle. destruct (Nat.eq_dec (rows s * columns s) 0) as [E|Hne].
    + exists sampleOracle, 0%nat.
      destruct (generatePuzzles_no_missing shapeSeed img s cur 0 sampleOracle n)
        as (g & n' & Hg & _).
      { unfold missingCountOf. by rewrite E. }
      exists g, n'. split; [exact sampleOracle_in_unit|exact Hg].
    + exists (cyclingOracle (rows s * columns s)), (rows s * columns s)%nat.
      destruct (generatePuzzles_enough shapeSeed img s cur (rows s * columns s)
                  (cyclingOracle (rows s * columns s)) n) as (g & n' & Hg).
      * apply cyclingOracle_in_unit. lia.
      * by apply cyclingOracle_enough.
      * exists g, n'. split; [apply cyclingOracle_in_unit; lia|exact Hg].
Qed.

(** ** The layers of the two canvases *)

Lemma concat_length_uniform {A} (ls : list (list A)) (n : nat) :
  Forall (fun l => length l = n) ls -> length (concat ls) = (length ls * n)%nat.
Proof.
  induction 1 as [|l ls Hl _ IH]; [done|]. cbn [concat length].
  rewrite length_app, IH, Hl. lia.
Qed.

Section Layers.
Variables (shapeSeed : R) (img : Image) (s : PuzzleSettings) (cur : option R).

Lemma strokeBorders_layer grid ctx out :
  strokeBorders shapeSeed img s cur grid ctx = Some out ->
  exists strokes, out = ctx ++ strokes /\
    (forall ctx', strokeBorders shapeSeed img s cur grid ctx' = Some (ctx' ++ strokes)) /\
    length strokes = (rows s * columns s)%nat /\
    Forall (is_stroke_of (borderStyle s)) strokes.
Proof.
  unfold strokeBorders. destruct (mapM _ _) as [rowsOps|] eqn:E; [|done].
  cbn [mbind option_bind]. intros [= <-]. exists (concat rowsOps).
  split; [done|]. split; [done|].
  apply mapM_Some_1 in E.
  assert (Forall (fun l => length l = columns s
                           /\ Forall (is_stroke_of (borderStyle s)) l) rowsOps) as Hrows.
  { apply Forall_forall. intros l Hin.
    apply list_elem_of_lookup in Hin as [i Hi].
    destruct (Forall2_lookup_r _ _ _ _ _ E Hi) as (r & _ & Er).
    split.
    - apply length_mapM in Er. by rewrite length_seq in Er.
    - apply mapM_Some_1 in Er. apply Forall_forall. intros op Hop.
      apply list_elem_of_lookup in Hop as [j Hj].
      destruct (Forall2_lookup_r _ _ _ _ _ Er Hj) as (c & _ & Ec).
      destruct (piecePath _ _ _ _ _ _ _) as [p|]; [|done]. injection Ec as <-. by exists p. }
  split.
  - rewrite (concat_length_uniform rowsOps (columns s)).
    + apply Forall2_length in E. rewrite length_seq in E. by rewrite <- E.
    + eapply Forall_impl; [exact Hrows|]. by intros l [? _].
  - apply Forall_concat. eapply Forall_impl; [exact Hrows|]. by intros l [_ ?].
Qed.

Lemma cutHoles_layer grid indices ctx out :
  cutHoles shapeSeed img s cur grid indices ctx = Some out ->
  exists holes, out = ctx ++ holes /\ length holes = length indices /\ Forall is_hole holes.
Proof.
  unfold cutHoles. destruct (mapM _ _) as [holes|] eqn:E; [|done].
  cbn [mbind option_bind]. intros [= <-]. exists holes. split; [done|].
  split; [symmetry; by eapply length_mapM|].
  apply mapM_Some_1 in E. apply Forall_forall. intros op Hop.
  apply list_elem_of_lookup in Hop as [j Hj].
  destruct (Forall2_lookup_r _ _ _ _ _ E Hj) as (i & _ & Ei). cbn in Ei.
  destruct (piecePath _ _ _ _ _ _ _) as [p|]; [|done]. injection Ei as <-. by exists p.
Qed.

End Layers.

(** X10.  How the two canvases are layered.  When [generatePuzzles]
    produces its result, the complete canvas is the scaled image followed
    by exactly [rows * columns] strokes in the border style, and the
    missing canvas is the scaled image, then one destination-out fill per
    missing index, then the very same list of strokes: the two canvases
    differ by the holes alone, and a hole is always cut before any border
    is stroked. *)
Theorem canvas_layers shapeSeed img s cur fuel omega n g n' :
  generatePuzzles shapeSeed img s cur fuel omega n = (Produced g, n') ->
  exists strokes holes,
    cv_ops (completeCanvas g) = DrawImage img 0 0 (width img s) (height img s) :: strokes /\
    cv_ops (missingCanvas g)
      = DrawImage img 0 0 (width img s) (height img s) :: holes ++ strokes /\
    length strokes = (rows s * columns s)%nat /\
    length holes = length (missingIndices g) /\
    Forall (is_stroke_of (borderStyle s)) strokes /\
    Forall is_hole holes.
Proof.
  intros Hg.
  destruct (generatePuzzles_inv _ _ _ _ _ _ _ _ _ Hg)
    as (grid & n1 & indices & cc & hc & mc & _ & Hc & _ & Hh & Hm & ->).
  cbn [completeCanvas missingCanvas cv_ops missingIndices].
  destruct (strokeBorders_layer _ _ _ _ _ _ _ Hc) as (strokes & -> & Hany & Hlen & Hall).
  destruct (cutHoles_layer _ _ _ _ _ _ _ _ Hh) as (holes & -> & Hlh & Hallh).
  rewrite Hany in Hm. injection Hm as <-.
  exists strokes, holes. cbn [app]. repeat apply conj; done.
Qed.

Lemma canvas_layers_witness :
  exists g n' strokes holes,
    generatePuzzles 0 sampleImage sampleSettings None 10 sampleOracle 0 = (Produced g, n') /\
    cv_ops (missingCanvas g)
      = DrawImage sampleImage 0 0 (width sampleImage sampleSettings)
          (height sampleImage sampleSettings) :: holes ++ strokes /\
    length strokes = 12%nat.
Proof.
  destruct (generatePuzzles_enough 0 sampleImage sampleSettings None 10 sampleOracle 0)
    as (g & n' & Hg); [exact sampleOracle_in_unit | enough_draws |].
  destruct (canvas_layers 0 sampleImage sampleSettings None 10 sampleOracle 0 g n' Hg)
    as (strokes & holes & _ & Hm & Hl & _).
  exists g, n', strokes, holes. split; [exact Hg|]. split; [exact Hm|exact Hl].
Defined.

(** ** File intake *)

(** X11.  A drop loads the first image file and nothing else.  After
    [preventDefault] and clearing the drag flag, [handleDrop] either
    loads the first file of the drop whose type starts with [image/]
    (every file before it being of another type, and without any alert),
    or, when the drop holds no such file, shows the drop alert and loads
    nothing. *)
Theorem drop_loads_first_image (files : list File) :
  (exists before f after,
     files = before ++ f :: after /\ isImageFile f = true /\
     Forall (fun g => isImageFile g = false) before /\
     handleDrop files = [PreventDefault; SetIsDragOver false; LoadImage f]) \/
  (Forall (fun g => isImageFile g = false) files /\
   handleDrop files
   = [PreventDefault; SetIsDragOver false; Alert "Пожалуйста, перетащите файл изображения"]).
Proof.
  unfold handleDrop. induction files as [|g files IH]; cbn [List.find].
  - right. split; [constructor|done].
  - destruct (isImageFile g) eqn:Eg.
    + left. exists [], g, files. repeat split; [done|constructor|].
      unfold processImageFile. by rewrite Eg.
    + destruct IH as [(before & f & after & -> & Hf & Hb & Hd)|[Hall Hd]].
      * left. exists (g :: before), f, after. repeat split; [done|by constructor|done].
      * right. split; [by constructor|done].
Qed.

(** X12.  The file input and the drop zone treat the same list of files
    differently.  When the first file is not an image but a later one is,
    [handleImageUpload] looks at the first file only and shows the
    selection alert, while [handleDrop] skips ahead and loads an image
    file from the rest. *)
Theorem upload_ignores_later_files (f g : File) (rest : list File) :
  isImageFile f = false -> g ∈ rest -> isImageFile g = true ->
  handleImageUpload (f :: rest) = [Alert "Пожалуйста, выберите файл изображения"] /\
  exists g', g' ∈ rest /\ isImageFile g' = true /\
    handleDrop (f :: rest) = [PreventDefault; SetIsDragOver false; LoadImage g'].
Proof.
  intros Hf Hg Hi. split.
  - unfold handleImageUpload, processImageFile. by rewrite Hf.
  - unfold handleDrop. cbn [List.find]. rewrite Hf.
    destruct (List.find isImageFile rest) as [g'|] eqn:E.
    + apply List.find_some in E as [Hin Hi']. exists g'.
      split; [by apply list_elem_of_In|]. split; [done|].
      unfold processImageFile. by rewrite Hi'.
    + apply list_elem_of_In in Hg. pose proof (List.find_none _ _ E g Hg). congruence.
Qed.

Lemma upload_ignores_later_files_witness :
  handleImageUpload [notes; photo] = [Alert "Пожалуйста, выберите файл изображения"].
Proof.
  refine (proj1 (upload_ignores_later_files notes photo [photo] eq_refl _ eq_refl)).
  by left.
Defined.

(** ** The outline of a classic piece *)

(** X13.  The outline of a classic piece is one closed loop through the
    four corners of its cell: it starts with a [moveTo] to [(x, y)]; the
    top side ends at [(x + w, y)], the right side at [(x + w, y + h)],
    the bottom side at [(x, y + h)] and the left side back at [(x, y)],
    whether the side is straight or carries a tab or a blank; the last
    command is [closePath]. *)
Theorem classic_sides_join_corners (width height x y w h : R) (tabs : Tabs.t) :
  endPoint (topEdge x y w h tabs) = Some (pt (x + w) y) /\
  endPoint (rightEdge width x y w h tabs) = Some (pt (x + w) (y + h)) /\
  endPoint (bottomEdge height x y w h tabs) = Some (pt x (y + h)) /\
  endPoint (leftEdge x y w h tabs) = Some (pt x y) /\
  head (drawRealisticPuzzlePiece width height x y w h tabs) = Some (MoveTo (pt x y)) /\
  last (drawRealisticPuzzlePiece width height x y w h tabs) = Some ClosePath.
Proof.
  repeat apply conj.
  - unfold topEdge. by destruct (Tabs.top tabs), (Rgtb y 0).
  - unfold rightEdge. by destruct (Tabs.right tabs), (Rltb (x + w) width).
  - unfold bottomEdge. by destruct (Tabs.bottom tabs), (Rltb (y + h) height).
  - unfold leftEdge. by destruct (Tabs.left tabs), (Rgtb x 0).
  - done.
  - unfold drawRealisticPuzzlePiece. rewrite app_comm_cons, !app_assoc. apply last_snoc.
Qed.

Section ClassicReach.
Local Open Scope R_scope.
Variables (width height x y w h : R) (tabs : Tabs.t).
Hypotheses (Hw : 0 <= w) (Hh : 0 <= h).






End ClassicReach.



(** ** Where the shape seed goes *)

(** X15.  The shape seed reaches the abstract style only, and only
    through [currentShapeSeed || shapeSeed].  In the Classic style the
    whole result of [generatePuzzles] is the same for any two pairs of
    seeds (fresh shapes come from [Math.random] alone); in either style
    two calls whose seeds in use agree give the same result, so a current
    seed of 0 is the same as none. *)
Theorem seed_reaches_abstract_only (seed1 seed2 : R) (img : Image) (s : PuzzleSettings)
    (cur1 cur2 : option R) (fuel : nat) (omega : Oracle) (n : nat) :
  pieceStyle s = Classic \/ usedShapeSeed cur1 seed1 = usedShapeSeed cur2 seed2 ->
  generatePuzzles seed1 img s cur1 fuel omega n = generatePuzzles seed2 img s cur2 fuel omega n.
Proof.
  intros [Hst|Hseed]; unfold generatePuzzles, strokeBorders, cutHoles, piecePath.
  - by rewrite Hst.
  - by rewrite Hseed.
Qed.

Lemma seed_reaches_abstract_only_witness :
  generatePuzzles 7 sampleImage abstractSettings (Some 0%R) 10 sampleOracle 0
  = generatePuzzles 7 sampleImage abstractSettings None 10 sampleOracle 0.
Proof.
  apply seed_reaches_abstract_only. right. unfold usedShapeSeed.
  destruct (Req_dec_T 0 0) as [_|Hne]; [reflexivity|]. exfalso. apply Hne. reflexivity.
Defined.

(** * Properties that depend on round-off *)

Import Binary64.
Local Open Scope R_scope.

(** ** Powers of two and binades *)

Section Pow2.

Lemma pow2_pos e : 0 < pow2 e.
Proof. apply powerRZ_lt. lra. Qed.

Lemma pow2_add a b : pow2 (a + b) = pow2 a * pow2 b.
Proof. apply powerRZ_add. lra. Qed.

Lemma pow2_0 : pow2 0 = 1.
Proof. reflexivity. Qed.

Lemma pow2_1 : pow2 1 = 2.
Proof. unfold pow2, powerRZ. rewrite pow_1. reflexivity. Qed.

Lemma pow2_succ e : pow2 (e + 1) = 2 * pow2 e.
Proof. rewrite pow2_add, pow2_1. lra. Qed.

Lemma pow2_opp e : pow2 (- e) = / pow2 e.
Proof. apply powerRZ_neg'. Qed.

Lemma pow2_cancel a b : pow2 a * pow2 (b - a) = pow2 b.
Proof. rewrite <- pow2_add. f_equal. lia. Qed.

Lemma pow2_ge_1 (k : Z) : (0 <= k)%Z -> 1 <= pow2 k.
Proof.
  intros Hk. pattern k. apply natlike_ind; [rewrite pow2_0; lra| |exact Hk].
  intros x Hx IH. unfold Z.succ. rewrite pow2_succ. lra.
Qed.

Lemma pow2_le a b : (a <= b)%Z -> pow2 a <= pow2 b.
Proof.
  intros H. replace b with (a + (b - a))%Z by lia. rewrite pow2_add.
  pose proof (pow2_ge_1 (b - a) ltac:(lia)). pose proof (pow2_pos a). nra.
Qed.

Lemma pow2_lt a b : (a < b)%Z -> pow2 a < pow2 b.
Proof.
  intros H. apply Rlt_le_trans with (pow2 (a + 1)).
  - rewrite pow2_succ. pose proof (pow2_pos a). lra.
  - apply pow2_le. lia.
Qed.

Lemma pow2_lt_inv a b : pow2 a < pow2 b -> (a < b)%Z.
Proof.
  intros H. destruct (Z_lt_le_dec a b) as [|Hle]; [done|].
  apply pow2_le in Hle. lra.
Qed.

Lemma pow2_IZR (k : Z) : (0 <= k)%Z -> pow2 k = IZR (2 ^ k).
Proof.
  intros Hk. pattern k. apply natlike_ind; [reflexivity| |exact Hk].
  intros x Hx IH. unfold Z.succ. rewrite pow2_succ, IH, Z.pow_add_r by lia.
  rewrite mult_IZR. change (2 ^ 1)%Z with 2%Z. lra.
Qed.

Lemma pow2_exp e : pow2 e = exp (IZR e * ln 2).
Proof. unfold pow2. rewrite powerRZ_Rpower by lra. reflexivity. Qed.

Lemma ln2_pos : 0 < ln 2.
Proof. pose proof ln_lt_2. lra. Qed.

Lemma exponent_spec x : 0 < x -> pow2 (exponent x) <= x < pow2 (exponent x + 1).
Proof.
  intros Hx. unfold exponent.
  destruct (base_Int_part (ln x / ln 2)) as [Hlo Hhi].
  set (e := Int_part (ln x / ln 2)) in *.
  pose proof ln2_pos as H2.
  assert (ln x / ln 2 * ln 2 = ln x) as E by (field; lra).
  rewrite !pow2_exp, plus_IZR. pose proof (exp_ln x Hx) as Ex. split.
  - assert (IZR e * ln 2 <= ln x) as [Hlt|Heq] by nra.
    + apply exp_increasing in Hlt. lra.
    + rewrite Heq. lra.
  - assert (ln x < (IZR e + 1) * ln 2) as Hlt by nra.
    apply exp_increasing in Hlt. lra.
Qed.

Lemma exponent_unique x e : pow2 e <= x < pow2 (e + 1) -> exponent x = e.
Proof.
  intros [Hlo Hhi].
  assert (0 < x) as Hx by (pose proof (pow2_pos e); lra).
  destruct (exponent_spec x Hx) as [Hlo' Hhi'].
  assert (e < exponent x + 1)%Z by (apply pow2_lt_inv; lra).
  assert (exponent x < e + 1)%Z by (apply pow2_lt_inv; lra).
  lia.
Qed.

Lemma exponent_mono x y : 0 < x -> x <= y -> (exponent x <= exponent y)%Z.
Proof.
  intros Hx Hxy.
  destruct (exponent_spec x Hx) as [Hlo _].
  destruct (exponent_spec y ltac:(lra)) as [_ Hhi].
  assert (exponent x < exponent y + 1)%Z by (apply pow2_lt_inv; lra). lia.
Qed.

End Pow2.

(** ** Rounding to nearest, ties to even *)

Section Rounding.

Lemma Int_part_bounds t : IZR (Int_part t) <= t < IZR (Int_part t) + 1.
Proof. destruct (base_Int_part t). lra. Qed.

Lemma Int_part_IZR z : Int_part (IZR z) = z.
Proof. symmetry. apply Int_part_spec. lra. Qed.

Lemma Int_part_mono s t : s <= t -> (Int_part s <= Int_part t)%Z.
Proof.
  intros H. pose proof (Int_part_bounds s). pose proof (Int_part_bounds t).
  assert (IZR (Int_part s) < IZR (Int_part t + 1)) by (rewrite plus_IZR; lra).
  apply lt_IZR in H2. lia.
Qed.

Lemma nearestEven_cases t :
  (nearestEven t = Int_part t /\ t - IZR (Int_part t) <= 1 / 2) \/
  (nearestEven t = (Int_part t + 1)%Z /\ 1 / 2 <= t - IZR (Int_part t)).
Proof.
  unfold nearestEven. cbv zeta.
  destruct (Rlt_dec _ _); [left; split; [done|lra]|].
  destruct (Rlt_dec _ _); [right; split; [done|lra]|].
  destruct (Z.even _); [left|right]; split; try done; lra.
Qed.

Lemma nearestEven_err t : Rabs (IZR (nearestEven t) - t) <= 1 / 2.
Proof.
  pose proof (Int_part_bounds t).
  destruct (nearestEven_cases t) as [[-> ?]|[-> ?]]; try rewrite plus_IZR;
    apply Rabs_le; lra.
Qed.

Lemma nearestEven_IZR z : nearestEven (IZR z) = z.
Proof.
  unfold nearestEven. cbv zeta. rewrite Int_part_IZR.
  destruct (Rlt_dec _ _) as [|n]; [done|]. exfalso. apply n. lra.
Qed.

Lemma nearestEven_mono s t : s <= t -> (nearestEven s <= nearestEven t)%Z.
Proof.
  intros H. pose proof (Int_part_mono s t H) as Hf.
  pose proof (Int_part_bounds s). pose proof (Int_part_bounds t).
  destruct (Z.eq_dec (Int_part s) (Int_part t)) as [E|Hne].
  - unfold nearestEven. cbv zeta. rewrite E in *.
    repeat match goal with |- context [Rlt_dec ?a ?b] => destruct (Rlt_dec a b) end;
      try destruct (Z.even (Int_part t)); try lia; exfalso; lra.
  - destruct (nearestEven_cases s) as [[-> ?]|[-> ?]],
             (nearestEven_cases t) as [[-> ?]|[-> ?]]; lia.
Qed.

Lemma scaled_range x :
  0 < x -> pow2 52 <= x * pow2 (52 - exponent x) < pow2 53.
Proof.
  intros Hx. destruct (exponent_spec x Hx) as [Hlo Hhi].
  pose proof (pow2_pos (52 - exponent x)) as Hp.
  rewrite <- (pow2_cancel (52 - exponent x) 52).
  rewrite <- (pow2_cancel (52 - exponent x) 53).
  replace (52 - (52 - exponent x))%Z with (exponent x) by lia.
  replace (53 - (52 - exponent x))%Z with (exponent x + 1)%Z by lia.
  split; [nra|]. rewrite (Rmult_comm x). apply Rmult_lt_compat_l; lra.
Qed.

Lemma roundPositive_range x :
  0 < x -> pow2 (exponent x) <= roundPositive x <= pow2 (exponent x + 1).
Proof.
  intros Hx. destruct (scaled_range x Hx) as [Hlo Hhi]. unfold roundPositive.
  set (t := x * pow2 (52 - exponent x)) in *.
  pose proof (nearestEven_mono _ _ Hlo) as H1.
  pose proof (nearestEven_mono t (pow2 53) ltac:(lra)) as H2.
  rewrite (pow2_IZR 52), nearestEven_IZR in H1 by lia.
  rewrite (pow2_IZR 53), nearestEven_IZR in H2 by lia.
  apply IZR_le in H1, H2. rewrite <- pow2_IZR in H1, H2 by lia.
  pose proof (pow2_pos (exponent x - 52)) as Hp.
  rewrite <- (pow2_cancel 52 (exponent x)) at 1.
  rewrite <- (pow2_cancel 53 (exponent x + 1)).
  replace (exponent x + 1 - 53)%Z with (exponent x - 52)%Z by lia.
  split; apply Rmult_le_compat_r; lra.
Qed.

Lemma roundPositive_err x :
  0 < x -> Rabs (roundPositive x - x) <= pow2 (exponent x - 53).
Proof.
  intros Hx. unfold roundPositive.
  set (e := exponent x). set (t := x * pow2 (52 - e)).
  pose proof (nearestEven_err t) as Herr.
  pose proof (pow2_pos (e - 52)) as Hp.
  assert (x = t * pow2 (e - 52)) as Ex.
  { unfold t. rewrite Rmult_assoc, <- pow2_add.
    replace (52 - e + (e - 52))%Z with 0%Z by lia. rewrite pow2_0. lra. }
  replace (IZR (nearestEven t) * pow2 (e - 52) - x)
    with ((IZR (nearestEven t) - t) * pow2 (e - 52))
    by (rewrite Rmult_minus_distr_r; lra).
  rewrite Rabs_mult, (Rabs_pos_eq (pow2 _)) by lra.
  replace (e - 52)%Z with (e - 53 + 1)%Z by lia. rewrite pow2_succ.
  pose proof (pow2_pos (e - 53)). nra.
Qed.

Lemma roundPositive_mono x y : 0 < x -> x <= y -> roundPositive x <= roundPositive y.
Proof.
  intros Hx Hxy. pose proof (exponent_mono x y Hx Hxy) as He.
  destruct (Z.eq_dec (exponent x) (exponent y)) as [E|Hne].
  - unfold roundPositive. rewrite E.
    pose proof (pow2_pos (exponent y - 52)). pose proof (pow2_pos (52 - exponent y)).
    apply Rmult_le_compat_r; [lra|]. apply IZR_le, nearestEven_mono.
    apply Rmult_le_compat_r; lra.
  - destruct (roundPositive_range x Hx) as [_ H1].
    destruct (roundPositive_range y ltac:(lra)) as [H2 _].
    pose proof (pow2_le (exponent x + 1) (exponent y) ltac:(lia)). lra.
Qed.

(** ** The three facts about [round64] used below *)

Lemma round64_0 : round64 0 = 0.
Proof.
  unfold round64. destruct (Rlt_dec 0 0); [lra|]. destruct (Rlt_dec 0 0); [lra|]. done.
Qed.

Lemma round64_positive x : 0 < x -> round64 x = roundPositive x.
Proof. intros Hx. unfold round64. by destruct (Rlt_dec 0 x). Qed.

Lemma round64_pos x : 0 < x -> 0 < round64 x.
Proof.
  intros Hx. rewrite round64_positive by done.
  destruct (roundPositive_range x Hx). pose proof (pow2_pos (exponent x)). lra.
Qed.

Lemma round64_mono x y : 0 <= x -> x <= y -> round64 x <= round64 y.
Proof.
  intros [Hx| <-] Hxy.
  - rewrite !round64_positive by lra. by apply roundPositive_mono.
  - rewrite round64_0. destruct Hxy as [Hy| <-]; [|rewrite round64_0; lra].
    left. by apply round64_pos.
Qed.

(** The relative error of one rounding is at most [2^-53]. *)
Lemma round64_err x : 0 <= x -> Rabs (round64 x - x) <= x * pow2 (-53).
Proof.
  intros [Hx| <-].
  - rewrite round64_positive by done.
    eapply Rle_trans; [by apply roundPositive_err|].
    destruct (exponent_spec x Hx) as [Hlo _].
    replace (exponent x - 53)%Z with (exponent x + -53)%Z by lia. rewrite pow2_add.
    pose proof (pow2_pos (-53)). nra.
  - rewrite round64_0, Rminus_diag, Rabs_R0. lra.
Qed.

(** Numbers with at most 53 significant bits are left as they are. *)
Lemma round64_fixed (n : Z) (c : Z) :
  (0 < n <= 2 ^ 53)%Z -> round64 (IZR n * pow2 c) = IZR n * pow2 c.
Proof.
  intros Hn. pose proof (pow2_pos c) as Hc.
  assert (0 < IZR n) as Hn' by (apply IZR_lt; lia).
  rewrite round64_positive by nra.
  pose proof (Z.log2_spec n ltac:(lia)) as [Hlo Hhi].
  set (L := Z.log2 n) in *.
  assert (0 <= L)%Z as HL by apply Z.log2_nonneg.
  assert (exponent (IZR n * pow2 c) = (L + c)%Z) as He.
  { apply exponent_unique. replace (L + c + 1)%Z with (Z.succ L + c)%Z by lia.
    rewrite !pow2_add, (pow2_IZR L), (pow2_IZR (Z.succ L)) by lia. split.
    - apply Rmult_le_compat_r; [lra|]. by apply IZR_le.
    - apply Rmult_lt_compat_r; [lra|]. by apply IZR_lt. }
  unfold roundPositive. rewrite He.
  assert (L <= 53)%Z as HL53.
  { destruct (Z_le_gt_dec L 53) as [|Hgt]; [done|].
    assert (2 ^ 54 <= 2 ^ L)%Z by (apply Z.pow_le_mono_r; lia).
    assert (2 ^ 53 < 2 ^ 54)%Z by (apply Z.pow_lt_mono_r; lia). lia. }
  rewrite Rmult_assoc, <- pow2_add. replace (c + (52 - (L + c)))%Z with (52 - L)%Z by lia.
  destruct (Z_le_gt_dec L 52) as [Hle|Hgt].
  - rewrite (pow2_IZR (52 - L)), <- mult_IZR, nearestEven_IZR by lia.
    rewrite mult_IZR, <- pow2_IZR, Rmult_assoc, <- pow2_add by lia.
    do 2 f_equal. lia.
  - assert (L = 53%Z) as EL by lia. assert (n = (2 ^ 53)%Z) as ->.
    { rewrite EL in Hlo. lia. }
    rewrite EL. rewrite <- (pow2_IZR 53), <- pow2_add by lia.
    replace (53 + (52 - 53))%Z with 52%Z by lia.
    rewrite (pow2_IZR 52), nearestEven_IZR, <- pow2_IZR, <- !pow2_add by lia.
    f_equal. lia.
Qed.

Lemma round64_IZR (n : Z) : (0 <= n <= 2 ^ 53)%Z -> round64 (IZR n) = IZR n.
Proof.
  intros Hn. destruct (Z.eq_dec n 0%Z) as [->|]; [apply round64_0|].
  pose proof (round64_fixed n 0%Z ltac:(lia)) as H. rewrite pow2_0, !Rmult_1_r in H. exact H.
Qed.

(** How a value is computed: [x] is nearer to [m * 2^e] than to any other
    number with 53 significant bits. *)
Lemma round64_eval (x : R) (m e : Z) :
  (2 ^ 52 < m < 2 ^ 53)%Z -> Rabs (x - IZR m * pow2 e) < pow2 (e - 1) ->
  round64 x = IZR m * pow2 e.
Proof.
  intros Hm Hx. pose proof (pow2_pos e) as He. pose proof (pow2_pos (e - 1)) as He1.
  assert (pow2 e = 2 * pow2 (e - 1)) as E2.
  { rewrite <- pow2_succ. f_equal. lia. }
  apply Rabs_def2 in Hx as [Hhi Hlo].
  assert (IZR (2 ^ 52) + 1 <= IZR m) as Hm1.
  { rewrite <- (plus_IZR _ 1). apply IZR_le. lia. }
  assert (IZR m + 1 <= IZR (2 ^ 53)) as Hm2.
  { rewrite <- (plus_IZR _ 1). apply IZR_le. lia. }
  rewrite <- !pow2_IZR in * by lia.
  assert (pow2 (52 + e) <= x < pow2 (52 + e + 1)) as Hb.
  { replace (52 + e + 1)%Z with (53 + e)%Z by lia. rewrite !pow2_add. split; nra. }
  assert (0 < x) as Hpos by (pose proof (pow2_pos (52 + e)); lra).
  rewrite round64_positive by done. unfold roundPositive.
  rewrite (exponent_unique x (52 + e) Hb).
  replace (52 - (52 + e))%Z with (- e)%Z by lia.
  replace (52 + e - 52)%Z with e by lia.
  f_equal. f_equal.
  assert (x * pow2 (- e) - IZR m = (x - IZR m * pow2 e) * pow2 (- e)) as Ed.
  { rewrite pow2_opp. field. lra. }
  assert (pow2 (e - 1) * pow2 (- e) = 1 / 2) as Eh.
  { rewrite pow2_opp, E2. field. lra. }
  pose proof (pow2_pos (- e)) as Hne.
  assert (- (1 / 2) < x * pow2 (- e) - IZR m < 1 / 2) as [Hd1 Hd2].
  { rewrite Ed, <- Eh. split; nra. }
  set (t := x * pow2 (- e)) in *.
  pose proof (Int_part_bounds t) as Hf.
  destruct (nearestEven_cases t) as [[-> Hc]|[-> Hc]].
  - assert (IZR (Int_part t) - 1 < IZR m < IZR (Int_part t) + 1) as [H1 H2] by lra.
    rewrite <- (minus_IZR _ 1) in H1. rewrite <- (plus_IZR _ 1) in H2.
    apply lt_IZR in H1, H2. lia.
  - assert (IZR (Int_part t) < IZR m < IZR (Int_part t) + 2) as [H1 H2] by lra.
    rewrite <- (plus_IZR _ 2) in H2. apply lt_IZR in H1, H2. lia.
Qed.

(** A tie: [x] is half way between [m * 2^e] and the next number, and [m]
    is even. *)
Lemma round64_tie (x : R) (m e : Z) :
  (2 ^ 52 <= m < 2 ^ 53)%Z -> Z.even m = true -> x = (IZR m + 1 / 2) * pow2 e ->
  round64 x = IZR m * pow2 e.
Proof.
  intros Hm Heven ->. pose proof (pow2_pos e) as He.
  assert (IZR (2 ^ 52) <= IZR m) as Hm1 by (apply IZR_le; lia).
  assert (IZR m + 1 <= IZR (2 ^ 53)) as Hm2.
  { rewrite <- (plus_IZR _ 1). apply IZR_le. lia. }
  rewrite <- !pow2_IZR in * by lia.
  assert (pow2 (52 + e) <= (IZR m + 1 / 2) * pow2 e < pow2 (52 + e + 1)) as Hb.
  { replace (52 + e + 1)%Z with (53 + e)%Z by lia. rewrite !pow2_add. split; nra. }
  assert (0 < (IZR m + 1 / 2) * pow2 e) as Hpos by (pose proof (pow2_pos (52 + e)); lra).
  rewrite round64_positive by done. unfold roundPositive.
  rewrite (exponent_unique _ (52 + e) Hb).
  replace (52 - (52 + e))%Z with (- e)%Z by lia.
  replace (52 + e - 52)%Z with e by lia.
  f_equal. f_equal.
  assert ((IZR m + 1 / 2) * pow2 e * pow2 (- e) = IZR m + 1 / 2) as ->.
  { rewrite pow2_opp. field. lra. }
  unfold nearestEven. cbv zeta.
  assert (Int_part (IZR m + 1 / 2) = m) as ->.
  { symmetry. apply Int_part_spec. lra. }
  destruct (Rlt_dec _ _); [lra|]. destruct (Rlt_dec _ _); [lra|]. by rewrite Heven.
Qed.

End Rounding.

(** ** The scaling step *)

Section Scaling64.

Lemma unit_roundoff : pow2 (-53) = / 9007199254740992.
Proof.
  change (pow2 (-53)) with (pow2 (Z.opp 53)).
  rewrite (pow2_opp 53), (pow2_IZR 53) by lia. reflexivity.
Qed.

Lemma Rabs_bounds a b : Rabs a <= b -> - b <= a <= b.
Proof. unfold Rabs. destruct (Rcase_abs a); lra. Qed.

Lemma round64_upper x : 0 <= x -> round64 x <= x * (1 + pow2 (-53)).
Proof. intros Hx. pose proof (round64_err x Hx) as H. apply Rabs_bounds in H. lra. Qed.

Lemma round64_lower x : 0 <= x -> x * (1 - pow2 (-53)) <= round64 x.
Proof. intros Hx. pose proof (round64_err x Hx) as H. apply Rabs_bounds in H. lra. Qed.

Lemma round64_1 : round64 1 = 1.
Proof. apply (round64_IZR 1). lia. Qed.

(** The factor of one dimension: the rounded quotient [max / size]. *)
Lemma factor_bounds (size : Z) (max : R) :
  (0 < size)%Z -> 0 < max ->
  let f := round64 (max / IZR size) in
  0 < f /\ IZR size * f <= max * (1 + pow2 (-53)) /\
  max * (1 - pow2 (-53)) <= IZR size * f /\
  (max < IZR size -> f <= 1).
Proof.
  intros Hs Hm f. assert (0 < IZR size) as Hs' by (apply IZR_lt; lia).
  assert (0 < max / IZR size) as Hq by (apply Rdiv_lt_0_compat; lra).
  assert (IZR size * (max / IZR size) = max) as E by (field; lra).
  pose proof (round64_upper _ (Rlt_le _ _ Hq)) as Hu.
  pose proof (round64_lower _ (Rlt_le _ _ Hq)) as Hl. fold f in Hu, Hl.
  split; [by apply round64_pos|]. split; [|split].
  - apply Rle_trans with (IZR size * (max / IZR size * (1 + pow2 (-53))));
      [apply Rmult_le_compat_l; lra|]. rewrite <- Rmult_assoc, E. lra.
  - apply Rle_trans with (IZR size * (max / IZR size * (1 - pow2 (-53))));
      [rewrite <- Rmult_assoc, E; lra|]. apply Rmult_le_compat_l; lra.
  - intros Hbig. rewrite <- round64_1. apply round64_mono; [lra|].
    apply Rmult_le_reg_r with (IZR size); [done|].
    replace (max / IZR size * IZR size) with max by (field; lra). lra.
Qed.

Lemma qualitySettings_le q mw mh :
  qualitySettings q = Some (mw, mh) -> 0 < mw <= 1920 /\ 0 < mh <= 1080.
Proof. destruct q; intros [= <- <-]; lra. Qed.

(** Two roundings of a quantity next to a cap stay within one pixel of it. *)
Lemma near_cap_upper (v cap : R) :
  0 <= v -> 0 < cap <= 1920 -> v <= cap * (1 + pow2 (-53)) -> round64 v < cap + 1.
Proof.
  intros Hv Hc Hle. pose proof (round64_upper v Hv) as Hu.
  rewrite unit_roundoff in *. nra.
Qed.

Lemma near_cap_lower (v cap : R) :
  0 <= v -> 0 < cap <= 1920 -> cap * (1 - pow2 (-53)) <= v -> cap - 1 < round64 v.
Proof.
  intros Hv Hc Hle. pose proof (round64_lower v Hv) as Hl.
  rewrite unit_roundoff in *. nra.
Qed.

Lemma scaledSize_spec64 (q : OutputQuality) (iw ih : Z) :
  (0 < iw <= 2 ^ 53)%Z -> (0 < ih <= 2 ^ 53)%Z ->
  let '(W, H) := scaledSize q (IZR iw) (IZR ih) in
  0 < W <= IZR iw /\ 0 < H <= IZR ih /\
  (forall maxWidth maxHeight, qualitySettings q = Some (maxWidth, maxHeight) ->
     (W < maxWidth + 1 /\ H < maxHeight + 1) /\
     ((maxWidth < IZR iw \/ maxHeight < IZR ih) ->
        let scale := Rmin (round64 (maxWidth / IZR iw)) (round64 (maxHeight / IZR ih)) in
        0 < scale <= 1 /\
        W = round64 (IZR iw * scale) /\ H = round64 (IZR ih * scale) /\
        Rabs (W - IZR iw * scale) <= IZR iw * scale * pow2 (-53) /\
        Rabs (H - IZR ih * scale) <= IZR ih * scale * pow2 (-53) /\
        IZR iw * scale <= maxWidth * (1 + pow2 (-53)) /\
        IZR ih * scale <= maxHeight * (1 + pow2 (-53)) /\
        (maxWidth - 1 < W \/ maxHeight - 1 < H)) /\
     (IZR iw <= maxWidth -> IZR ih <= maxHeight -> W = IZR iw /\ H = IZR ih)) /\
  (qualitySettings q = None -> W = IZR iw /\ H = IZR ih).
Proof.
  intros Hiw Hih.
  assert (0 < IZR iw) as Hiw' by (apply IZR_lt; lia).
  assert (0 < IZR ih) as Hih' by (apply IZR_lt; lia).
  unfold scaledSize. destruct (qualitySettings q) as [[mw mh]|] eqn:Eq.
  2: { repeat apply conj; try lra; done. }
  destruct (qualitySettings_le q mw mh Eq) as [Hmw Hmh].
  destruct (Rgtb (IZR iw) mw || Rgtb (IZR ih) mh) eqn:Ebig.
  2: { apply orb_false_elim in Ebig as [E1 E2].
       assert (IZR iw <= mw) as Hw.
       { unfold Rgtb in E1. destruct (Rlt_dec mw (IZR iw)); [done|lra]. }
       assert (IZR ih <= mh) as Hh.
       { unfold Rgtb in E2. destruct (Rlt_dec mh (IZR ih)); [done|lra]. }
       repeat apply conj; try lra; try done.
       intros mw' mh' [= <- <-]. repeat apply conj; try lra; try done. }
  assert (mw < IZR iw \/ mh < IZR ih) as Hbig.
  { apply orb_true_elim in Ebig as [E|E]; [left|right]; unfold Rgtb in E;
      destruct (Rlt_dec _ _); done. }
  destruct (factor_bounds iw mw) as (Ha & Hau & Hal & Ha1); [lia|lra|].
  destruct (factor_bounds ih mh) as (Hb & Hbu & Hbl & Hb1); [lia|lra|].
  set (a := round64 (mw / IZR iw)) in *. set (b := round64 (mh / IZR ih)) in *.
  set (scale := Rmin a b).
  assert (scale <= a) as Hsa by apply Rmin_l.
  assert (scale <= b) as Hsb by apply Rmin_r.
  assert (0 < scale) as Hs0 by (by apply Rmin_glb_lt).
  assert (scale <= 1) as Hs1 by (destruct Hbig; [pose proof (Ha1 ltac:(done))
                                                 |pose proof (Hb1 ltac:(done))]; lra).
  assert (0 < IZR iw * scale <= IZR iw) as Hws by nra.
  assert (0 < IZR ih * scale <= IZR ih) as Hhs by nra.
  assert (round64 (IZR iw * scale) <= IZR iw) as HWle.
  { rewrite <- (round64_IZR iw) at 2 by lia. apply round64_mono; lra. }
  assert (round64 (IZR ih * scale) <= IZR ih) as HHle.
  { rewrite <- (round64_IZR ih) at 2 by lia. apply round64_mono; lra. }
  assert (0 < round64 (IZR iw * scale)) as HW0 by (apply round64_pos; lra).
  assert (0 < round64 (IZR ih * scale)) as HH0 by (apply round64_pos; lra).
  pose proof (pow2_pos (-53)) as Hu.
  assert (round64 (IZR iw * scale) < mw + 1) as HWcap.
  { apply near_cap_upper; [lra|lra|]. nra. }
  assert (round64 (IZR ih * scale) < mh + 1) as HHcap.
  { apply near_cap_upper; [lra|lra|]. nra. }
  repeat apply conj; try lra; try done.
  intros mw' mh' [= <- <-]. split; [done|]. split.
  - intros _. cbv zeta. fold a b scale. repeat apply conj; try lra; try done.
    + apply round64_err. lra.
    + apply round64_err. lra.
    + nra.
    + nra.
    + unfold scale, Rmin. destruct (Rle_dec a b).
      * left. apply near_cap_lower; [nra|lra|done].
      * right. apply near_cap_lower; [nra|lra|done].
  - intros Hw Hh. exfalso. lra.
Qed.

End Scaling64.

(** ** Sizes in the binary64 reading *)

Lemma canvasSize_bounds v : IZR (canvasSize v) <= v < IZR (canvasSize v) + 1.
Proof. apply Int_part_bounds. Qed.

Lemma canvasSize_is (v : R) (z : Z) : IZR z <= v < IZR z + 1 -> canvasSize v = z.
Proof. intros H. symmetry. apply Int_part_spec. lra. Qed.

Lemma raster_le (v : R) (cap : Z) : v < IZR cap + 1 -> (canvasSize v <= cap)%Z.
Proof.
  intros H. pose proof (canvasSize_bounds v) as Hb.
  assert (IZR (canvasSize v) < IZR (cap + 1)) as Hlt by (rewrite plus_IZR; lra).
  apply lt_IZR in Hlt. lia.
Qed.

Lemma raster_ge (v : R) (cap : Z) : IZR cap - 1 < v -> (cap - 1 <= canvasSize v)%Z.
Proof.
  intros H. pose proof (canvasSize_bounds v) as Hb.
  assert (IZR (cap - 2) < IZR (canvasSize v)) as Hlt by (rewrite minus_IZR; lra).
  apply lt_IZR in Hlt. lia.
Qed.

Lemma qualitySettings_integer q mw mh :
  qualitySettings q = Some (mw, mh) -> exists a b : Z, mw = IZR a /\ mh = IZR b.
Proof.
  destruct q; intros [= <- <-];
    [by exists 800%Z, 600%Z|by exists 1280%Z, 720%Z|by exists 1920%Z, 1080%Z].
Qed.

(** C6.  The raster, in the arithmetic of the code.  For a source image
    of [iw] by [ih] pixels (positive integers, as an [HTMLImageElement]
    reports them) the canvases are [floor W] by [floor H] pixels, where
    [W] and [H] are the rounded products of lines 110 and 111.  Neither
    raster dimension exceeds the source dimension; under a tier with a
    cap neither exceeds the cap (the variable [W] itself may, by one
    unit in the last place); when a source
    dimension exceeds its cap both dimensions are the source dimension
    times the one factor [scale], the minimum of the two rounded
    quotients, each product rounded once, so that the aspect ratio is
    kept up to a relative error of [2^-53] per dimension before the
    truncation to pixels, and up to one pixel after it; otherwise, and
    always under [Original], the raster has the source dimensions. *)
Theorem output_size_bounded (img : Image) (s : PuzzleSettings) (iw ih : Z) :
  (0 < iw <= 2 ^ 53)%Z -> (0 < ih <= 2 ^ 53)%Z ->
  img_width img = IZR iw -> img_height img = IZR ih ->
  let W := Binary64.width img s in
  let H := Binary64.height img s in
  let rasterW := Binary64.canvasWidth img s in
  let rasterH := Binary64.canvasHeight img s in
  (IZR rasterW <= W < IZR rasterW + 1 /\ IZR rasterH <= H < IZR rasterH + 1) /\
  (0 <= rasterW <= iw /\ 0 <= rasterH <= ih)%Z /\
  (forall maxWidth maxHeight,
     qualitySettings (outputQuality s) = Some (maxWidth, maxHeight) ->
     (IZR rasterW <= maxWidth /\ IZR rasterH <= maxHeight) /\
     ((maxWidth < IZR iw \/ maxHeight < IZR ih) ->
        let scale := Rmin (round64 (maxWidth / IZR iw)) (round64 (maxHeight / IZR ih)) in
        0 < scale <= 1 /\
        W = round64 (IZR iw * scale) /\ H = round64 (IZR ih * scale) /\
        IZR iw * scale * (1 - pow2 (-53)) - 1 < IZR rasterW
          <= IZR iw * scale * (1 + pow2 (-53)) /\
        IZR ih * scale * (1 - pow2 (-53)) - 1 < IZR rasterH
          <= IZR ih * scale * (1 + pow2 (-53)) /\
        Rabs (IZR rasterW * IZR ih - IZR rasterH * IZR iw) < IZR iw + IZR ih) /\
     (IZR iw <= maxWidth -> IZR ih <= maxHeight -> rasterW = iw /\ rasterH = ih)) /\
  (outputQuality s = Original -> rasterW = iw /\ rasterH = ih).
Proof.
  intros Hiw Hih Ew Eh W H rasterW rasterH.
  pose proof (scaledSize_spec64 (outputQuality s) iw ih Hiw Hih) as Hspec.
  subst rasterW rasterH W H.
  unfold Binary64.canvasWidth, Binary64.canvasHeight, Binary64.width, Binary64.height,
    Binary64.targetSize.
  rewrite Ew, Eh.
  destruct (scaledSize (outputQuality s) (IZR iw) (IZR ih)) as [w h]. cbn [fst snd].
  destruct Hspec as ([Hw0 Hw] & [Hh0 Hh] & Hcap & Horig).
  pose proof (canvasSize_bounds w) as Hbw. pose proof (canvasSize_bounds h) as Hbh.
  assert (0 <= canvasSize w <= iw /\ 0 <= canvasSize h <= ih)%Z as Hr.
  { pose proof (raster_le w iw ltac:(lra)). pose proof (raster_le h ih ltac:(lra)).
    pose proof (raster_ge w 1 ltac:(lra)). pose proof (raster_ge h 1 ltac:(lra)). lia. }
  split; [done|]. split; [done|]. split.
  - intros mw mh Eq. destruct (Hcap mw mh Eq) as ([Hcw Hch] & Hscale & Hkeep).
    destruct (qualitySettings_le _ _ _ Eq) as [Hmw Hmh].
    destruct (qualitySettings_integer _ _ _ Eq) as (a & b & -> & ->).
    split; [|split].
    + split; apply IZR_le; by apply raster_le.
    + intros Hbig. destruct (Hscale Hbig) as (Hs & EW & EH & HeW & HeH & HA & HB & _).
      cbv zeta. set (scale := Rmin _ _) in *.
      assert (0 < IZR iw) as Hiw' by (apply IZR_lt; lia).
      assert (0 < IZR ih) as Hih' by (apply IZR_lt; lia).
      apply Rabs_bounds in HeW, HeH.
      set (A := IZR iw * scale) in *. set (B := IZR ih * scale) in *.
      set (u := pow2 (-53)) in *.
      assert (u = / 9007199254740992) as Eu by apply unit_roundoff.
      assert (0 < A) as HA0 by (unfold A; nra).
      assert (0 < B) as HB0 by (unfold B; nra).
      assert (A * u <= 1 / 4) as HAu by (rewrite Eu in *; nra).
      assert (B * u <= 1 / 4) as HBu by (rewrite Eu in *; nra).
      assert (A * IZR ih = B * IZR iw) as Ecross by (unfold A, B; ring).
      assert (IZR (canvasSize w) <= A + A * u) as Hrw by lra.
      assert (B - B * u - 1 < IZR (canvasSize h)) as Hrh by lra.
      assert (IZR (canvasSize h) <= B + B * u) as Hrh' by lra.
      assert (A - A * u - 1 < IZR (canvasSize w)) as Hrw' by lra.
      repeat apply conj; try done; try lra.
      apply Rabs_def1.
      * assert (IZR (canvasSize w) * IZR ih <= (A + A * u) * IZR ih) as P1
          by (apply Rmult_le_compat_r; lra).
        assert ((B - B * u - 1) * IZR iw < IZR (canvasSize h) * IZR iw) as P2
          by (apply Rmult_lt_compat_r; lra).
        assert (B * u * IZR iw = A * u * IZR ih) as P3 by (unfold A, B; ring).
        assert (A * u * IZR ih <= 1 / 4 * IZR ih) as P4
          by (apply Rmult_le_compat_r; lra).
        lra.
      * assert (IZR (canvasSize h) * IZR iw <= (B + B * u) * IZR iw) as P1
          by (apply Rmult_le_compat_r; lra).
        assert ((A - A * u - 1) * IZR ih < IZR (canvasSize w) * IZR ih) as P2
          by (apply Rmult_lt_compat_r; lra).
        assert (A * u * IZR ih = B * u * IZR iw) as P3 by (unfold A, B; ring).
        assert (B * u * IZR iw <= 1 / 4 * IZR iw) as P4
          by (apply Rmult_le_compat_r; lra).
        lra.
    + intros H1 H2. destruct (Hkeep H1 H2) as [-> ->].
      split; apply canvasSize_is; lra.
  - intros Eq. destruct Horig as [-> ->]; [by rewrite Eq|].
    split; apply canvasSize_is; lra.
Qed.

Lemma output_size_bounded_witness :
  (IZR (Binary64.canvasWidth sampleImage sampleSettings) <= 800 /\
   IZR (Binary64.canvasHeight sampleImage sampleSettings) <= 600)%R.
Proof.
  assert (0 < 1600 <= 2 ^ 53)%Z as Hw by lia.
  assert (0 < 1200 <= 2 ^ 53)%Z as Hh by lia.
  destruct (output_size_bounded sampleImage sampleSettings 1600 1200 Hw Hh eq_refl eq_refl)
    as (_ & _ & Hcap & _).
  exact (proj1 (Hcap 800%R 600%R eq_refl)).
Defined.

(** The round-off of the scaling step, as the model computes it. *)

Lemma Rmin_round64 (a b : R) :
  0 <= a -> a <= b -> Rmin (round64 b) (round64 a) = round64 a.
Proof. intros Ha Hab. apply Rmin_right. by apply round64_mono. Qed.

Lemma squarePhoto_size :
  Binary64.targetSize squarePhoto sampleSettings
  = (IZR 5277655813324799 * pow2 (-43), IZR 5277655813324799 * pow2 (-43)).
Proof.
  unfold Binary64.targetSize, scaledSize. cbn [squarePhoto sampleSettings outputQuality
    img_width img_height qualitySettings].
  rewrite (Rgtb_true 1109 800) by lra. cbn [orb].
  rewrite (Rmin_round64 (600 / 1109) (800 / 1109)) by lra.
  assert (round64 (600 / 1109) = IZR 4873146576054639 * pow2 (-53)) as ->
    by (apply (round64_eval _ 4873146576054639 (-53)); [lia|close_enough]).
  assert (round64 (1109 * (IZR 4873146576054639 * pow2 (-53)))
          = IZR 5277655813324799 * pow2 (-43)) as ->; [|done].
  apply (round64_eval _ 5277655813324799 (-43)); [lia|close_enough].
Qed.

(** A 1109 by 1109 image under Fast: the scaled height is just below 600
    and the canvas is 599 by 599. *)
Lemma squarePhoto_raster :
  Binary64.height squarePhoto sampleSettings < 600 /\
  Binary64.canvasWidth squarePhoto sampleSettings = 599%Z /\
  Binary64.canvasHeight squarePhoto sampleSettings = 599%Z.
Proof.
  unfold Binary64.canvasWidth, Binary64.canvasHeight, Binary64.width, Binary64.height.
  rewrite squarePhoto_size. cbn [fst snd].
  pow2_values. split; [lra|]. split; apply canvasSize_is; lra.
Qed.

Lemma bannerImage_size :
  Binary64.targetSize bannerImage sampleSettings
  = (IZR 7036874417766401 * pow2 (-43), IZR 5310848617182189 * pow2 (-46)).
Proof.
  unfold Binary64.targetSize, scaledSize. cbn [bannerImage sampleSettings outputQuality
    img_width img_height qualitySettings].
  rewrite (Rgtb_true 1060 800) by lra. cbn [orb].
  rewrite Rmin_left.
  2: { assert (round64 (600 / 100) = 6) as ->.
       { replace (600 / 100) with (IZR 6) by lra. apply round64_IZR. lia. }
       apply Rle_trans with (round64 1); [apply round64_mono; lra|rewrite round64_1; lra]. }
  assert (round64 (800 / 1060) = IZR 6797886229993202 * pow2 (-53)) as ->
    by (apply (round64_eval _ 6797886229993202 (-53)); [lia|close_enough]).
  f_equal.
  - apply (round64_eval _ 7036874417766401 (-43)); [lia|close_enough].
  - apply (round64_eval _ 5310848617182189 (-46)); [lia|close_enough].
Qed.

(** C6 (as stated, refuted).  A 1060 by 100 image under Fast.  The factor
    is the double nearest to [800 / 1060]; the scaled width is one unit
    in the last place above the cap of 800 and the scaled height is
    about 75.47, so the canvas is 800 by 75 pixels: the raster height is
    not the source height times the factor, and the raster is not in the
    ratio of the source. *)
Lemma banner_raster_out_of_ratio :
  let scale := Rmin (round64 (800 / 1060)) (round64 (600 / 100)) in
  Binary64.canvasWidth bannerImage sampleSettings = 800%Z /\
  Binary64.canvasHeight bannerImage sampleSettings = 75%Z /\
  IZR (Binary64.canvasHeight bannerImage sampleSettings) <> img_height bannerImage * scale /\
  IZR (Binary64.canvasWidth bannerImage sampleSettings) * img_height bannerImage
    <> IZR (Binary64.canvasHeight bannerImage sampleSettings) * img_width bannerImage /\
  800 < Binary64.width bannerImage sampleSettings.
Proof.
  intros scale.
  assert (scale = IZR 6797886229993202 * pow2 (-53)) as Es.
  { unfold scale. rewrite Rmin_left.
    - apply (round64_eval _ 6797886229993202 (-53)); [lia|close_enough].
    - assert (round64 (600 / 100) = 6) as ->.
      { replace (600 / 100) with (IZR 6) by lra. apply round64_IZR. lia. }
      apply Rle_trans with (round64 1); [apply round64_mono; lra|rewrite round64_1; lra]. }
  assert (Binary64.canvasWidth bannerImage sampleSettings = 800%Z) as Ew.
  { unfold Binary64.canvasWidth, Binary64.width. rewrite bannerImage_size. cbn [fst].
    apply canvasSize_is. pow2_values. lra. }
  assert (Binary64.canvasHeight bannerImage sampleSettings = 75%Z) as Eh.
  { unfold Binary64.canvasHeight, Binary64.height. rewrite bannerImage_size. cbn [snd].
    apply canvasSize_is. pow2_values. lra. }
  rewrite Ew, Eh, Es. unfold Binary64.width. rewrite bannerImage_size.
  cbn [fst bannerImage img_width img_height]. pow2_values.
  repeat split; try done; lra.
Qed.

(** ** The rim of the image in the binary64 reading *)

Lemma landscape_size : Binary64.targetSize landscapeImage sevenRows = (800, 600).
Proof.
  unfold Binary64.targetSize, scaledSize. cbn [landscapeImage sevenRows outputQuality
    img_width img_height qualitySettings].
  by rewrite (Rgtb_false 800 800), (Rgtb_false 600 600) by lra.
Qed.

Lemma sevenRows_pieceHeight :
  Binary64.pieceHeight landscapeImage sevenRows = IZR 6031606643799771 * pow2 (-46).
Proof.
  unfold Binary64.pieceHeight, Binary64.height. rewrite landscape_size.
  cbn [snd sevenRows rows]. rewrite (INR_IZR_INZ 7). change (Z.of_nat 7) with 7%Z.
  apply (round64_eval _ 6031606643799771 (-46)); [lia|close_enough].
Qed.

Lemma sevenRows_lastY :
  Binary64.cellY landscapeImage sevenRows 6 = IZR 4523704982849828 * pow2 (-43).
Proof.
  unfold Binary64.cellY. rewrite sevenRows_pieceHeight.
  rewrite (INR_IZR_INZ 6). change (Z.of_nat 6) with 6%Z.
  apply (round64_eval _ 4523704982849828 (-43)); [lia|close_enough].
Qed.

(** The rim sides at [x = 0] and [y = 0]: column 0 and row 0 start at 0
    exactly, so their guards fail and the sides are straight. *)
Lemma rim_top_left_straight (img : Image) (s : PuzzleSettings) (x y w h : R) (tabs : Tabs.t) :
  Binary64.cellX img s 0 = 0 /\ Binary64.cellY img s 0 = 0 /\
  topEdge x (Binary64.cellY img s 0) w h tabs = [LineTo (pt (x + w) (Binary64.cellY img s 0))] /\
  leftEdge (Binary64.cellX img s 0) y w h tabs = [LineTo (pt (Binary64.cellX img s 0) y)].
Proof.
  assert (Binary64.cellX img s 0 = 0) as Ex.
  { unfold Binary64.cellX. cbn [INR]. rewrite Rmult_0_l. apply round64_0. }
  assert (Binary64.cellY img s 0 = 0) as Ey.
  { unfold Binary64.cellY. cbn [INR]. rewrite Rmult_0_l. apply round64_0. }
  rewrite Ex, Ey. repeat split.
  - apply topEdge_straight. lra.
  - apply leftEdge_straight. lra.
Qed.

(** C9 (the code at a failing input).  An 800 by 600 image cut into 7
    rows under Fast: nothing is scaled, the canvas height is 600, and
    for the pieces of the last row [y + h], computed as
    [6 * (600 / 7) + 600 / 7] in binary64, is below 600.  The guard
    [y + h < height] of the bottom side therefore holds, and the bottom
    side of these pieces, which lies on the border of the image, is
    drawn with three curves, whatever the flags, and not as the single
    [lineTo] of a straight side. *)
Theorem bottom_rim_bumped :
  let img := landscapeImage in
  let s := sevenRows in
  let height := Binary64.height img s in
  let h := Binary64.pieceHeight img s in
  let y := Binary64.cellY img s (rows s - 1) in
  height = 600 /\
  round64 (y + h) < height /\ y + h < height /\
  forall (x w : R) (tabs : Tabs.t),
    curveCount (bottomEdge height x y w h tabs) = 3%nat /\
    bottomEdge height x y w h tabs <> [LineTo (pt x (y + h))].
Proof.
  intros img s height h y. subst img s.
  change (rows sevenRows - 1)%nat with 6%nat in y.
  assert (height = 600) as EH.
  { subst height. unfold Binary64.height. by rewrite landscape_size. }
  assert (h = IZR 6031606643799771 * pow2 (-46)) as Eh by apply sevenRows_pieceHeight.
  assert (y = IZR 4523704982849828 * pow2 (-43)) as Ey by apply sevenRows_lastY.
  assert (round64 (y + h) = IZR 5277655813324799 * pow2 (-43)) as Es.
  { rewrite Ey, Eh. apply (round64_eval _ 5277655813324799 (-43)); [lia|close_enough]. }
  assert (y + h < height) as Hlt.
  { rewrite Ey, Eh, EH. pow2_values. lra. }
  split; [exact EH|]. split; [rewrite Es, EH; pow2_values; lra|]. split; [exact Hlt|].
  intros x w tabs.
  assert (curveCount (bottomEdge height x y w h tabs) = 3%nat) as Hc
    by (by apply bottomEdge_bumped).
  split; [exact Hc|]. intros E. rewrite E in Hc. discriminate Hc.
Qed.

(** X7.  The scaling step on its own raster, and how close the raster
    comes to the cap.  For a source of [iw] by [ih] pixels, scaling an
    image that has the dimensions of the raster again with the same
    quality changes nothing; and whenever the source exceeds the cap of
    its tier, the raster is at the cap or one pixel below it in width or
    in height (one pixel below happens: see [squarePhoto_raster]). *)
Theorem scaling_idempotent_and_tight (q : OutputQuality) (iw ih : Z) :
  (0 < iw <= 2 ^ 53)%Z -> (0 < ih <= 2 ^ 53)%Z ->
  let '(W, H) := Binary64.scaledSize q (IZR iw) (IZR ih) in
  let rasterW := canvasSize W in
  let rasterH := canvasSize H in
  Binary64.scaledSize q (IZR rasterW) (IZR rasterH) = (IZR rasterW, IZR rasterH) /\
  (forall maxWidth maxHeight, qualitySettings q = Some (maxWidth, maxHeight) ->
     (maxWidth < IZR iw \/ maxHeight < IZR ih) ->
     maxWidth - 1 <= IZR rasterW <= maxWidth \/ maxHeight - 1 <= IZR rasterH <= maxHeight).
Proof.
  intros Hiw Hih.
  pose proof (scaledSize_spec64 q iw ih Hiw Hih) as Hspec.
  destruct (Binary64.scaledSize q (IZR iw) (IZR ih)) as [w h]. cbv zeta.
  destruct Hspec as (_ & _ & Hcap & _).
  assert (forall mw mh, qualitySettings q = Some (mw, mh) ->
            IZR (canvasSize w) <= mw /\ IZR (canvasSize h) <= mh) as Hle.
  { intros mw mh Eq. destruct (Hcap mw mh Eq) as ([Hcw Hch] & _).
    destruct (qualitySettings_integer _ _ _ Eq) as (a & b & -> & ->).
    split; apply IZR_le; by apply raster_le. }
  split.
  - unfold Binary64.scaledSize. destruct (qualitySettings q) as [[mw mh]|] eqn:Eq; [|done].
    destruct (Hle mw mh eq_refl) as [H1 H2].
    by rewrite (Rgtb_false _ _ H1), (Rgtb_false _ _ H2).
  - intros mw mh Eq Hbig. destruct (Hle mw mh Eq) as [H1 H2].
    destruct (Hcap mw mh Eq) as (_ & Hscale & _).
    destruct (Hscale Hbig) as (_ & _ & _ & _ & _ & _ & _ & Htight).
    destruct (qualitySettings_integer _ _ _ Eq) as (a & b & -> & ->).
    destruct Htight as [Ht|Ht]; [left|right]; (split; [|done]);
      rewrite <- minus_IZR; apply IZR_le; by apply raster_ge.
Qed.

Lemma scaling_idempotent_and_tight_witness :
  let '(W, H) := Binary64.scaledSize Fast 1109 1109 in
  Binary64.scaledSize Fast (IZR (canvasSize W)) (IZR (canvasSize H))
  = (IZR (canvasSize W), IZR (canvasSize H)).
Proof.
  assert (0 < 1109 <= 2 ^ 53)%Z as Hw by lia.
  pose proof (scaling_idempotent_and_tight Fast 1109 1109 Hw Hw) as H.
  destruct (Binary64.scaledSize Fast 1109 1109) as [w h]. exact (proj1 H).
Defined.

(** ** Where a cell ends *)

(** One dimension of the grid: [n] cells of rounded size [p] along a side
    of length [size].  A cell that is not the last one ends before the
    side does, also after the rounding of [x + p]. *)
Lemma inner_cell_ends (size : R) (n k : nat) :
  0 < size -> (k + 1 < n)%nat -> (Z.of_nat n <= 2 ^ 32)%Z ->
  let p := round64 (size / INR n) in
  let x := round64 (INR k * p) in
  0 < p /\ 0 <= x /\ ((0 < k)%nat -> 0 < x) /\ x + p < size /\ round64 (x + p) < size.
Proof.
  intros Hsize Hk Hn p x.
  assert (INR k + 2 <= INR n) as Hkn.
  { replace (INR k + 2) with (INR (k + 2)) by (rewrite plus_INR; cbn; lra).
    apply le_INR. lia. }
  assert (0 <= INR k) as Hk0 by apply pos_INR.
  assert (INR n <= 4294967296) as Hn'.
  { rewrite INR_IZR_INZ. apply IZR_le in Hn. exact Hn. }
  set (c := INR n) in *. set (kk := INR k) in *.
  set (u := pow2 (-53)).
  assert (0 < u) as Hu0 by apply pow2_pos.
  assert (u = / 9007199254740992) as Eu by apply unit_roundoff.
  set (q := size / c).
  assert (c * q = size) as Eq by (unfold q; field; lra).
  assert (0 < q) as Hq by (apply Rdiv_lt_0_compat; lra).
  assert (0 < p) as Hp0 by (by apply round64_pos).
  assert (p <= q * (1 + u)) as Hp by (apply round64_upper; lra).
  assert (0 <= kk * p) as Hkp by nra.
  assert (0 <= x) as Hx0.
  { unfold x. rewrite <- round64_0. apply round64_mono; lra. }
  assert (x <= kk * p * (1 + u)) as Hx by (by apply round64_upper).
  assert (round64 (x + p) <= (x + p) * (1 + u)) as Hs by (apply round64_upper; lra).
  assert (x + p <= p * ((kk + 1) * (1 + u))) as H1 by nra.
  assert (p * ((kk + 1) * (1 + u)) <= q * (1 + u) * ((c - 1) * (1 + u))) as H2.
  { apply Rmult_le_compat; try nra. }
  assert ((1 + u) * (1 + u) * (1 + u) <= 1 + 4 * u) as H3 by (rewrite Eu; lra).
  assert ((1 + 4 * u) * (c - 1) < c) as H4 by (rewrite Eu; lra).
  assert ((x + p) * (1 + u) <= q * ((1 + u) * (1 + u) * (1 + u) * (c - 1))) as H5.
  { replace (q * ((1 + u) * (1 + u) * (1 + u) * (c - 1)))
      with (q * (1 + u) * ((c - 1) * (1 + u)) * (1 + u)) by ring.
    apply Rmult_le_compat_r; lra. }
  assert (q * ((1 + u) * (1 + u) * (1 + u) * (c - 1)) < size) as H6.
  { rewrite <- Eq, (Rmult_comm c q). apply Rmult_lt_compat_l; [done|].
    apply Rle_lt_trans with ((1 + 4 * u) * (c - 1)); [|done].
    apply Rmult_le_compat_r; lra. }
  repeat split; try done.
  - intros Hpos. apply round64_pos. apply Rmult_lt_0_compat; [|done].
    apply lt_0_INR. lia.
  - assert (x + p <= (x + p) * (1 + u)) by nra. lra.
  - lra.
Qed.

Lemma cell_start_pos (size : R) (n k : nat) :
  0 < size -> (0 < k < n)%nat -> 0 < round64 (INR k * round64 (size / INR n)).
Proof.
  intros Hsize Hk. apply round64_pos. apply Rmult_lt_0_compat; [apply lt_0_INR; lia|].
  apply round64_pos. apply Rdiv_lt_0_compat; [done|]. apply lt_0_INR. lia.
Qed.

Section Sizes64.
Variables (img : Image) (s : PuzzleSettings) (iw ih : Z).
Hypotheses (Hiw : (0 < iw <= 2 ^ 53)%Z) (Hih : (0 < ih <= 2 ^ 53)%Z).
Hypotheses (Ew : img_width img = IZR iw) (Eh : img_height img = IZR ih).

Lemma size64_pos : 0 < Binary64.width img s /\ 0 < Binary64.height img s.
Proof.
  pose proof (scaledSize_spec64 (outputQuality s) iw ih Hiw Hih) as Hspec.
  unfold Binary64.width, Binary64.height, Binary64.targetSize. rewrite Ew, Eh.
  destruct (scaledSize (outputQuality s) (IZR iw) (IZR ih)) as [w h]. cbn [fst snd].
  destruct Hspec as ([? _] & [? _] & _). done.
Qed.

End Sizes64.

(** X4.  How many curves the sides of a classic piece carry, in the
    arithmetic of the code.  For a source of [iw] by [ih] pixels and a
    grid of at most [2^32] rows and columns: the top side of a piece of
    row 0 and the left side of a piece of column 0 have no curve; the top
    side of every other row and the left side of every other column have
    exactly three; the right side of a piece left of the last column and
    the bottom side of a piece above the last row have exactly three,
    their guards [x + w < width] and [y + h < height] holding also after
    the rounding of the sum; an inner piece has twelve curves.  (Nothing
    is said of the right side of the last column and of the bottom side
    of the last row, where the round-off decides.) *)
Theorem inner_sides_bumped (img : Image) (s : PuzzleSettings) (iw ih : Z)
    (tabs : Tabs.t) (row col : nat) :
  (0 < iw <= 2 ^ 53)%Z -> (0 < ih <= 2 ^ 53)%Z ->
  img_width img = IZR iw -> img_height img = IZR ih ->
  (Z.of_nat (rows s) <= 2 ^ 32)%Z -> (Z.of_nat (columns s) <= 2 ^ 32)%Z ->
  let W := Binary64.width img s in
  let H := Binary64.height img s in
  let w := Binary64.pieceWidth img s in
  let h := Binary64.pieceHeight img s in
  let x := Binary64.cellX img s col in
  let y := Binary64.cellY img s row in
  (row = 0%nat -> curveCount (topEdge x y w h tabs) = 0%nat) /\
  (col = 0%nat -> curveCount (leftEdge x y w h tabs) = 0%nat) /\
  ((0 < row < rows s)%nat -> curveCount (topEdge x y w h tabs) = 3%nat) /\
  ((0 < col < columns s)%nat -> curveCount (leftEdge x y w h tabs) = 3%nat) /\
  ((col + 1 < columns s)%nat ->
     round64 (x + w) < W /\ curveCount (rightEdge W x y w h tabs) = 3%nat) /\
  ((row + 1 < rows s)%nat ->
     round64 (y + h) < H /\ curveCount (bottomEdge H x y w h tabs) = 3%nat) /\
  ((0 < row)%nat -> (row + 1 < rows s)%nat -> (0 < col)%nat -> (col + 1 < columns s)%nat ->
     curveCount (drawRealisticPuzzlePiece W H x y w h tabs) = 12%nat).
Proof.
  intros Hiw Hih Ew Eh Hrows Hcols W H w h x y.
  destruct (size64_pos img s iw ih Hiw Hih Ew Eh) as [HW HH]. fold W H in HW, HH.
  assert (row = 0%nat -> curveCount (topEdge x y w h tabs) = 0%nat) as T0.
  { intros ->. destruct (rim_top_left_straight img s x 0 w h tabs) as (_ & Ey & Et & _).
    subst y. by rewrite Et. }
  assert (col = 0%nat -> curveCount (leftEdge x y w h tabs) = 0%nat) as L0.
  { intros ->. destruct (rim_top_left_straight img s 0 y w h tabs) as (Ex & _ & _ & El).
    subst x. by rewrite El. }
  assert ((col + 1 < columns s)%nat ->
          0 < w /\ ((0 < col)%nat -> 0 < x) /\ x + w < W /\ round64 (x + w) < W) as HX.
  { intros Hc. destruct (inner_cell_ends W (columns s) col HW Hc Hcols) as (? & _ & ? & ? & ?).
    done. }
  assert ((row + 1 < rows s)%nat ->
          0 < h /\ ((0 < row)%nat -> 0 < y) /\ y + h < H /\ round64 (y + h) < H) as HY.
  { intros Hr. destruct (inner_cell_ends H (rows s) row HH Hr Hrows) as (? & _ & ? & ? & ?).
    done. }
  assert ((0 < row < rows s)%nat -> curveCount (topEdge x y w h tabs) = 3%nat) as T3.
  { intros Hr. apply topEdge_bumped. by apply cell_start_pos. }
  assert ((0 < col < columns s)%nat -> curveCount (leftEdge x y w h tabs) = 3%nat) as L3.
  { intros Hc. apply leftEdge_bumped. by apply cell_start_pos. }
  assert ((col + 1 < columns s)%nat ->
          round64 (x + w) < W /\ curveCount (rightEdge W x y w h tabs) = 3%nat) as R3.
  { intros Hc. destruct (HX Hc) as (_ & _ & Hlt & Hr). split; [done|].
    by apply rightEdge_bumped. }
  assert ((row + 1 < rows s)%nat ->
          round64 (y + h) < H /\ curveCount (bottomEdge H x y w h tabs) = 3%nat) as B3.
  { intros Hr. destruct (HY Hr) as (_ & _ & Hlt & Hb). split; [done|].
    by apply bottomEdge_bumped. }
  repeat split; try done; try (by apply R3); try (by apply B3).
  intros Hr0 Hr Hc0 Hc. rewrite curveCount_piece, T3, L3 by lia.
  destruct (R3 Hc) as [_ ->]. destruct (B3 Hr) as [_ ->]. done.
Qed.

Lemma inner_sides_bumped_witness :
  curveCount (drawRealisticPuzzlePiece
                (Binary64.width sampleImage sampleSettings)
                (Binary64.height sampleImage sampleSettings)
                (Binary64.cellX sampleImage sampleSettings 1)
                (Binary64.cellY sampleImage sampleSettings 1)
                (Binary64.pieceWidth sampleImage sampleSettings)
                (Binary64.pieceHeight sampleImage sampleSettings)
                (Tabs.mk true false true false)) = 12%nat.
Proof.
  assert (0 < 1600 <= 2 ^ 53)%Z as Hw by lia.
  assert (0 < 1200 <= 2 ^ 53)%Z as Hh by lia.
  assert (Z.of_nat (rows sampleSettings) <= 2 ^ 32)%Z as Hr by (cbn; lia).
  assert (Z.of_nat (columns sampleSettings) <= 2 ^ 32)%Z as Hc by (cbn; lia).
  refine (proj2 (proj2 (proj2 (proj2 (proj2 (proj2
    (inner_sides_bumped sampleImage sampleSettings 1600 1200 (Tabs.mk true false true false)
       1 1 Hw Hh eq_refl eq_refl Hr Hc)))))) _ _ _ _); cbn; lia.
Defined.

(** ** Neighbouring classic pieces *)

Lemma vertical_mirror (width x y w h : R) (a b : Tabs.t) :
  Tabs.left b = negb (Tabs.right a) -> x + w < width -> 0 < x + w ->
  pathSegments (pt (x + w) (y + h)) (leftEdge (x + w) y w h b)
  = reversed (pathSegments (pt (x + w) y) (rightEdge width x y w h a)).
Proof.
  intros Hf H1 H2. unfold leftEdge, rightEdge. rewrite Hf.
  rewrite (Rltb_true _ _ H1), (Rgtb_true _ _ H2).
  destruct (Tabs.right a); reflexivity.
Qed.

Lemma horizontal_mirror (height x y w h : R) (a b : Tabs.t) :
  Tabs.top b = negb (Tabs.bottom a) -> y + h < height -> 0 < y + h ->
  pathSegments (pt x (y + h)) (topEdge x (y + h) w h b)
  = reversed (pathSegments (pt (x + w) (y + h)) (bottomEdge height x y w h a)).
Proof.
  intros Hf H1 H2. unfold topEdge, bottomEdge. rewrite Hf.
  rewrite (Rltb_true _ _ H1), (Rgtb_true _ _ H2).
  destruct (Tabs.bottom a); reflexivity.
Qed.

(** Where the next cell starts, against where this one ends: the two are
    computed differently and agree within four roundings. *)
Lemma next_cell_gap (p : R) (k : nat) :
  0 < p ->
  Rabs (round64 (INR (k + 1) * p) - round64 (round64 (INR k * p) + p))
  <= pow2 (-51) * (INR (k + 1) * p).
Proof.
  intros Hp. rewrite plus_INR. cbn [INR].
  assert (0 <= INR k) as Hk by apply pos_INR. set (kk := INR k) in *.
  set (u := pow2 (-53)).
  assert (pow2 (-51) = 4 * u) as ->.
  { unfold u. change (-51)%Z with (-53 + 1 + 1)%Z. rewrite !pow2_succ. lra. }
  assert (0 < u) as Hu by apply pow2_pos.
  assert (u <= 1) as Hu1.
  { unfold u. replace 1 with (pow2 0) by reflexivity. apply pow2_le. lia. }
  assert (0 <= kk * p) as HB by nra.
  pose proof (round64_err ((kk + 1) * p) ltac:(nra)) as E1. apply Rabs_bounds in E1.
  pose proof (round64_err (kk * p) HB) as E2. apply Rabs_bounds in E2.
  assert (0 <= round64 (kk * p)) as Hb0.
  { rewrite <- round64_0. apply round64_mono; lra. }
  pose proof (round64_err (round64 (kk * p) + p) ltac:(lra)) as E3. apply Rabs_bounds in E3.
  fold u in E1, E2, E3.
  set (a := round64 ((kk + 1) * p)) in *. set (b0 := round64 (kk * p)) in *.
  set (b := round64 (b0 + p)) in *.
  assert (b0 + p <= (kk + 1) * p * (1 + u)) as HS by nra.
  assert ((b0 + p) * u <= (kk + 1) * p * (1 + u) * u) as HS'.
  { apply Rmult_le_compat_r; lra. }
  assert (0 <= (kk + 1) * p) as HA by nra.
  assert ((kk + 1) * p * (1 + u) * u <= 2 * ((kk + 1) * p * u)) as HS'' by nra.
  assert (kk * p * u <= (kk + 1) * p * u) as HB' by nra.
  apply Rabs_le. split; lra.
Qed.

(** X3.  Neighbouring classic pieces, in the arithmetic of the code.
    For the grid [piecePattern] returns and two horizontally adjacent
    cells, the left side of a cell that starts at [x + w], where its
    left neighbour ends, is the right side of that neighbour run
    through backwards: the same line or the same three curves with the
    same end and control points, expression by expression.  The cell
    the code gives the right neighbour starts at [(col + 1) * w]
    instead, which agrees with the rounded [x + w] up to a relative
    error of [2^-51] and not always exactly (see [ninths_do_not_meet]).
    Likewise for vertically adjacent cells. *)
Theorem neighbours_share_edge (img : Image) (s : PuzzleSettings) (omega : Oracle) (n : nat)
    (iw ih : Z) :
  (0 < iw <= 2 ^ 53)%Z -> (0 < ih <= 2 ^ 53)%Z ->
  img_width img = IZR iw -> img_height img = IZR ih ->
  (Z.of_nat (rows s) <= 2 ^ 32)%Z -> (Z.of_nat (columns s) <= 2 ^ 32)%Z ->
  exists grid, (piecePattern (rows s) (columns s) omega n).1 = Some grid /\
    let W := Binary64.width img s in
    let H := Binary64.height img s in
    let w := Binary64.pieceWidth img s in
    let h := Binary64.pieceHeight img s in
    (forall row col a b,
       cell grid row col = Some a -> cell grid row (col + 1) = Some b ->
       let x := Binary64.cellX img s col in
       let y := Binary64.cellY img s row in
       pathSegments (pt (x + w) (y + h)) (leftEdge (x + w) y w h b)
       = reversed (pathSegments (pt (x + w) y) (rightEdge W x y w h a)) /\
       Rabs (Binary64.cellX img s (col + 1) - round64 (x + w))
       <= pow2 (-51) * (INR (col + 1) * w)) /\
    (forall row col a b,
       cell grid row col = Some a -> cell grid (row + 1) col = Some b ->
       let x := Binary64.cellX img s col in
       let y := Binary64.cellY img s row in
       pathSegments (pt x (y + h)) (topEdge x (y + h) w h b)
       = reversed (pathSegments (pt (x + w) (y + h)) (bottomEdge H x y w h a)) /\
       Rabs (Binary64.cellY img s (row + 1) - round64 (y + h))
       <= pow2 (-51) * (INR (row + 1) * h)).
Proof.
  intros Hiw Hih Ew Eh Hrows Hcols.
  destruct (piecePattern_Some (rows s) (columns s) omega n) as (grid & E & Hs & _ & Hh & Hv).
  exists grid. split; [exact E|]. intros W H w h.
  destruct (size64_pos img s iw ih Hiw Hih Ew Eh) as [HW HH]. fold W H in HW, HH.
  split.
  - intros row col a b Ha Hb x y.
    assert (row < rows s /\ col + 1 < columns s)%nat as [Hr Hc].
    { apply (proj1 (Hs row (col + 1)%nat)). by rewrite Hb. }
    destruct (inner_cell_ends W (columns s) col HW Hc Hcols) as (Hw0 & Hx0 & _ & Hlt & _).
    change (0 < w) in Hw0. change (0 <= x) in Hx0. change (x + w < W) in Hlt. split.
    + apply vertical_mirror; [by destruct (Hh _ _ _ _ Ha Hb)|exact Hlt|lra].
    + by apply next_cell_gap.
  - intros row col a b Ha Hb x y.
    assert (row + 1 < rows s /\ col < columns s)%nat as [Hr Hc].
    { apply (proj1 (Hs (row + 1)%nat col)). by rewrite Hb. }
    destruct (inner_cell_ends H (rows s) row HH Hr Hrows) as (Hh0 & Hy0 & _ & Hlt & _).
    change (0 < h) in Hh0. change (0 <= y) in Hy0. change (y + h < H) in Hlt. split.
    + apply horizontal_mirror; [by destruct (Hv _ _ _ _ Ha Hb)|exact Hlt|lra].
    + by apply next_cell_gap.
Qed.

Lemma neighbours_share_edge_witness :
  exists grid, (piecePattern 3 4 sampleOracle 0%nat).1 = Some grid /\
    forall a b, cell grid 1 1 = Some a -> cell grid 1 2 = Some b ->
      let w := Binary64.pieceWidth sampleImage sampleSettings in
      let h := Binary64.pieceHeight sampleImage sampleSettings in
      let x := Binary64.cellX sampleImage sampleSettings 1 in
      let y := Binary64.cellY sampleImage sampleSettings 1 in
      pathSegments (pt (x + w) (y + h)) (leftEdge (x + w) y w h b)
      = reversed (pathSegments (pt (x + w) y)
                    (rightEdge (Binary64.width sampleImage sampleSettings) x y w h a)).
Proof.
  assert (0 < 1600 <= 2 ^ 53)%Z as Hw by lia.
  assert (0 < 1200 <= 2 ^ 53)%Z as Hh by lia.
  assert (Z.of_nat (rows sampleSettings) <= 2 ^ 32)%Z as Hr by (cbn; lia).
  assert (Z.of_nat (columns sampleSettings) <= 2 ^ 32)%Z as Hc by (cbn; lia).
  destruct (neighbours_share_edge sampleImage sampleSettings sampleOracle 0%nat 1600 1200
              Hw Hh eq_refl eq_refl Hr Hc) as (grid & E & Hright & _).
  exists grid. split; [exact E|]. intros a b Ha Hb.
  exact (proj1 (Hright 1%nat 1%nat a b Ha Hb)).
Defined.

(** The gap is real: with 9 columns on 600 pixels, column 6 starts at 400
    while column 5 ends one unit in the last place after it. *)
Lemma ninths_size : Binary64.targetSize narrowImage ninths = (600, 450).
Proof.
  unfold Binary64.targetSize, scaledSize. cbn [narrowImage ninths outputQuality
    img_width img_height qualitySettings].
  by rewrite (Rgtb_false 600 800), (Rgtb_false 450 600) by lra.
Qed.

Lemma ninths_pieceWidth :
  Binary64.pieceWidth narrowImage ninths = IZR 4691249611844267 * pow2 (-46).
Proof.
  unfold Binary64.pieceWidth, Binary64.width. rewrite ninths_size.
  cbn [fst ninths columns]. rewrite (INR_IZR_INZ 9). change (Z.of_nat 9) with 9%Z.
  apply (round64_eval _ 4691249611844267 (-46)); [lia|close_enough].
Qed.

Lemma ninths_do_not_meet :
  Binary64.cellX narrowImage ninths 6 = 400 /\
  round64 (Binary64.cellX narrowImage ninths 5 + Binary64.pieceWidth narrowImage ninths)
  = IZR 7036874417766401 * pow2 (-44) /\
  Binary64.cellX narrowImage ninths 6
  < round64 (Binary64.cellX narrowImage ninths 5 + Binary64.pieceWidth narrowImage ninths).
Proof.
  assert (Binary64.cellX narrowImage ninths 6 = IZR 7036874417766400 * pow2 (-44)) as E6.
  { unfold Binary64.cellX. rewrite ninths_pieceWidth.
    rewrite (INR_IZR_INZ 6). change (Z.of_nat 6) with 6%Z.
    apply (round64_tie _ 7036874417766400 (-44)); [lia|reflexivity|pow2_values; lra]. }
  assert (Binary64.cellX narrowImage ninths 5 = IZR 5864062014805334 * pow2 (-44)) as E5.
  { unfold Binary64.cellX. rewrite ninths_pieceWidth.
    rewrite (INR_IZR_INZ 5). change (Z.of_nat 5) with 5%Z.
    apply (round64_eval _ 5864062014805334 (-44)); [lia|close_enough]. }
  assert (round64 (Binary64.cellX narrowImage ninths 5 + Binary64.pieceWidth narrowImage ninths)
          = IZR 7036874417766401 * pow2 (-44)) as Es.
  { rewrite E5, ninths_pieceWidth. apply (round64_eval _ 7036874417766401 (-44)); [lia|close_enough]. }
  rewrite Es, E6. pow2_values. repeat split; lra.
Qed.

(** ** Agreement with the binary64 specification of the Standard Library *)

Lemma ieee_sevenRows :
  let h := IEEE754.div (IEEE754.ofPositive 600) (IEEE754.ofPositive 7) in
  let y := IEEE754.mul (IEEE754.ofPositive 6) h in
  IEEE754.toR h = Binary64.pieceHeight landscapeImage sevenRows /\
  IEEE754.toR y = Binary64.cellY landscapeImage sevenRows 6 /\
  IEEE754.ltb (IEEE754.add y h) (IEEE754.ofPositive 600) = true.
Proof.
  intros h y. subst h y. rewrite sevenRows_pieceHeight, sevenRows_lastY.
  split; [by ieee_value|]. split; [by ieee_value|]. by vm_compute.
Qed.

Lemma ieee_squarePhoto :
  let scale := IEEE754.div (IEEE754.ofPositive 600) (IEEE754.ofPositive 1109) in
  IEEE754.toR (IEEE754.mul (IEEE754.ofPositive 1109) scale)
  = Binary64.height squarePhoto sampleSettings.
Proof.
  intros scale. subst scale. unfold Binary64.height. rewrite squarePhoto_size. cbn [snd].
  by ieee_value.
Qed.

Lemma ieee_bannerImage :
  let scale := IEEE754.div (IEEE754.ofPositive 800) (IEEE754.ofPositive 1060) in
  IEEE754.toR (IEEE754.mul (IEEE754.ofPositive 1060) scale)
  = Binary64.width bannerImage sampleSettings /\
  IEEE754.toR (IEEE754.mul (IEEE754.ofPositive 100) scale)
  = Binary64.height bannerImage sampleSettings.
Proof.
  intros scale. subst scale. unfold Binary64.width, Binary64.height.
  rewrite bannerImage_size. cbn [fst snd]. split; by ieee_value.
Qed.

Lemma ieee_ninths :
  let w := IEEE754.div (IEEE754.ofPositive 600) (IEEE754.ofPositive 9) in
  IEEE754.toR w = Binary64.pieceWidth narrowImage ninths /\
  IEEE754.toR (IEEE754.mul (IEEE754.ofPositive 6) w) = Binary64.cellX narrowImage ninths 6 /\
  IEEE754.toR (IEEE754.add (IEEE754.mul (IEEE754.ofPositive 5) w) w)
  = round64 (Binary64.cellX narrowImage ninths 5 + Binary64.pieceWidth narrowImage ninths).
Proof.
  intros w. subst w. destruct ninths_do_not_meet as (E6 & Es & _).
  rewrite Es, E6, ninths_pieceWidth. split; [by ieee_value|]. split; [|by ieee_value].
  ieee_value. pow2_values. lra.
Qed.
